(** * Verification of the minishell tokenizer drafts

    The repository holds two drafts of one character-driven tokenizer:

    - [src/index.ts]: the earlier draft.  It drops newlines when it builds
      the character stream, has no [SPACE] token, and its errors carry a
      single point [{line, column}];
    - the later draft (437 lines): every token, whitespace runs included,
      and every error carries a position range.

    Both are embedded below, each in a module of its own ([IndexTs] and
    [Ranged]), function by function.

    Conventions of the embedding.
    - A JavaScript string is a Rocq [string]; the [char] handed to a state
      handler is itself a string, of length one for a character of the
      input and empty for the end-of-input sentinel, exactly as in the
      source.  The handlers only compare [char] with ASCII characters, so
      the alphabet is Rocq's 8-bit [ascii]; one code unit is one column.
    - [line] and [column] are integers ([Z]): the sentinel uses [-1].
    - The token array [acc] is a [list]; [acc.push(t)] is [acc ++ [t]].
      A context owns the only live reference to its array (the previous
      context is dropped at each step), so the in-place mutation of the
      source is observationally the list being passed on.
    - [tokenize] returns a token list, an error, or throws: the three
      outcomes are the constructors of [Outcome]. *)

From Stdlib Require Import ZArith List String Ascii Bool Sorted Lia.
From Stdlib Require Import DecimalString.
Import ListNotations.
Open Scope string_scope.
Open Scope Z_scope.
Open Scope list_scope.

(** ** Shared data and JavaScript string primitives *)

Record Position : Type := { line : Z; column : Z }.

(** The object literal [{ line, column }]. *)
Definition at_ (l c : Z) : Position := {| line := l; column := c |}.

(** One element of the [chars] array built by [tokenize]. *)
Record CharInfo : Type := { char : string; cline : Z; ccolumn : Z }.

Definition posOf (c : CharInfo) : Position :=
  {| line := cline c; column := ccolumn c |}.

(** Control characters of the two delimiter literals. *)
Definition TAB : ascii := "009"%char.
Definition LF : ascii := "010"%char.
Definition VT : ascii := "011"%char.
Definition FF : ascii := "012"%char.
Definition CR : ascii := "013"%char.

(** The double quote, as a character and as the one-character string. *)
Definition DQUOTE : ascii := "034"%char.
Definition DQ : string := String DQUOTE "".

(** The literal [" \t\n\v\f\r"]. *)
Definition whitespace : string :=
  String " " (String TAB (String LF (String VT (String FF (String CR ""))))).

(** The literal [" \t\n\v\f\r<>()&|"]. *)
Definition delimiters : string := (whitespace ++ "<>()&|")%string.

(** [s.includes(sub)]: [sub] occurs in [s] as a substring.  The empty
    string occurs in every string. *)
Fixpoint includes (s sub : string) : bool :=
  String.prefix sub s
  || match s with
     | EmptyString => false
     | String _ s' => includes s' sub
     end.

(** [s.split("\n")]: always at least one piece. *)
Fixpoint split_lines (s : string) : list string :=
  match s with
  | EmptyString => [EmptyString]
  | String c s' =>
      if Ascii.eqb c LF then EmptyString :: split_lines s'
      else match split_lines s' with
           | l :: ls => String c l :: ls
           | [] => [String c EmptyString]
           end
  end.

(** [s.split("")]: the code units of [s], each as a string of length one. *)
Fixpoint split_chars (s : string) : list string :=
  match s with
  | EmptyString => []
  | String c s' => String c EmptyString :: split_chars s'
  end.

(** [a.map((x, i, a) => f(x, i, a))], the index counted from [i]. *)
Fixpoint mapi_from {A B : Type} (i : nat) (f : A -> nat -> B) (a : list A)
  : list B :=
  match a with
  | [] => []
  | x :: a' => f x i :: mapi_from (S i) f a'
  end.

Definition mapi {A B : Type} (f : A -> nat -> B) (a : list A) : list B :=
  mapi_from 0 f a.

(** [a.flatMap((x, i) => f(x, i))]. *)
Definition flatMapi {A B : Type} (f : A -> nat -> list B) (a : list A)
  : list B :=
  List.concat (mapi f a).

(** The text of a run of stream elements. *)
Definition textOf (cs : list CharInfo) : string :=
  fold_right (fun c s => (char c ++ s)%string) "" cs.

(** Lexicographic order on positions, line first. *)
Definition Position_leb (p q : Position) : bool :=
  (line p <? line q) || ((line p =? line q) && (column p <=? column q)).

Definition Position_lt (p q : Position) : Prop :=
  line p < line q \/ (line p = line q /\ column p < column q).

(** ** The later draft: ranges on every token and error *)

Module Ranged.

(** [export module MS]: the token variants.  Every variant extends
    [PositionRange]; the three word variants add [body]. *)
Module MS.

Inductive Token : Type :=
| AND (start end_ : Position)
| OR (start end_ : Position)
| PIPE (start end_ : Position)
| L (start end_ : Position)
| LL (start end_ : Position)
| R (start end_ : Position)
| RR (start end_ : Position)
| LPAREN (start end_ : Position)
| RPAREN (start end_ : Position)
| SPACE (start end_ : Position)
| WORD (body : string) (start end_ : Position)
| WORD_Q (body : string) (start end_ : Position)
| WORD_DQ (body : string) (start end_ : Position)
| EOF (start end_ : Position).

Definition start (t : Token) : Position :=
  match t with
  | AND s _ | OR s _ | PIPE s _ | L s _ | LL s _ | R s _ | RR s _
  | LPAREN s _ | RPAREN s _ | SPACE s _ | EOF s _ => s
  | WORD _ s _ | WORD_Q _ s _ | WORD_DQ _ s _ => s
  end.

Definition end_ (t : Token) : Position :=
  match t with
  | AND _ e | OR _ e | PIPE _ e | L _ e | LL _ e | R _ e | RR _ e
  | LPAREN _ e | RPAREN _ e | SPACE _ e | EOF _ e => e
  | WORD _ _ e | WORD_Q _ _ e | WORD_DQ _ _ e => e
  end.

Definition isEOF (t : Token) : bool :=
  match t with EOF _ _ => true | _ => false end.

End MS.

Record TokenizeError : Type :=
  { message : string; start : Position; end_ : Position }.

Inductive TokenizerContext : Type :=
| INITIAL
| ERROR (e : TokenizeError)
| PREV_L (acc : list MS.Token) (start : Position)
| PREV_R (acc : list MS.Token) (start : Position)
| PREV_AND (acc : list MS.Token) (start : Position)
| PREV_OR (acc : list MS.Token) (start : Position)
| DEFAULT (acc : list MS.Token)
| SPACE (acc : list MS.Token) (start end_ : Position)
| WORD (acc : list MS.Token) (acc2 : string) (start end_ : Position)
| WORD_Q (acc : list MS.Token) (acc2 : string) (start end_ : Position)
| WORD_DQ (acc : list MS.Token) (acc2 : string) (start end_ : Position).

Definition UnrecognizedToken (line column : Z) : TokenizeError :=
  {| message := "Unrecognized token";
     start := {| line := line; column := column |};
     end_ := {| line := line; column := column |} |}.

Definition UnterminatedString (start end_ : Position) : TokenizeError :=
  {| message := "Unterminated string"; start := start; end_ := end_ |}.

Definition tokenizeDefault (char : string) (line column : Z)
  (acc : list MS.Token) : TokenizerContext :=
  let here := {| line := line; column := column |} in
  if negb (char =? "")%string && includes whitespace char then
    SPACE acc here here
  else if (char =? "<")%string then PREV_L acc here
  else if (char =? ">")%string then PREV_R acc here
  else if (char =? "&")%string then PREV_AND acc here
  else if (char =? "|")%string then PREV_OR acc here
  else if (char =? "(")%string then DEFAULT (acc ++ [MS.LPAREN here here])
  else if (char =? ")")%string then DEFAULT (acc ++ [MS.RPAREN here here])
  else if (char =? "")%string then DEFAULT (acc ++ [MS.EOF here here])
  else if (char =? DQ)%string then WORD_DQ acc "" here here
  else if (char =? "'")%string then WORD_Q acc "" here here
  else WORD acc char here here.

Definition tokenizeInitial (char : string) (line column : Z)
  : TokenizerContext :=
  tokenizeDefault char line column [].

Definition tokenizePrevL (char : string) (line column : Z)
  (acc : list MS.Token) (start : Position) : TokenizerContext :=
  if (char =? "<")%string then
    DEFAULT (acc ++ [MS.LL start {| line := line; column := column |}])
  else tokenizeDefault char line column (acc ++ [MS.L start start]).

Definition tokenizePrevR (char : string) (line column : Z)
  (acc : list MS.Token) (start : Position) : TokenizerContext :=
  if (char =? ">")%string then
    DEFAULT (acc ++ [MS.RR start {| line := line; column := column |}])
  else tokenizeDefault char line column (acc ++ [MS.R start start]).

Definition tokenizePrevAnd (char : string) (line column : Z)
  (acc : list MS.Token) (start : Position) : TokenizerContext :=
  if (char =? "&")%string then
    DEFAULT (acc ++ [MS.AND start {| line := line; column := column |}])
  else ERROR (UnrecognizedToken line column).

Definition tokenizePrevOr (char : string) (line column : Z)
  (acc : list MS.Token) (start : Position) : TokenizerContext :=
  if (char =? "|")%string then
    DEFAULT (acc ++ [MS.OR start {| line := line; column := column |}])
  else tokenizeDefault char line column (acc ++ [MS.PIPE start start]).

Definition tokenizeSpace (char : string) (line column : Z)
  (acc : list MS.Token) (start end_ : Position) : TokenizerContext :=
  if negb (char =? "")%string && includes whitespace char then
    SPACE acc start {| line := line; column := column |}
  else tokenizeDefault char line column (acc ++ [MS.SPACE start end_]).

Definition tokenizeWord (char : string) (line column : Z)
  (acc : list MS.Token) (acc2 : string) (start end_ : Position)
  : TokenizerContext :=
  if includes delimiters char then
    tokenizeDefault char line column (acc ++ [MS.WORD acc2 start end_])
  else WORD acc (acc2 ++ char)%string start {| line := line; column := column |}.

Definition tokenizeWordQ (char : string) (line column : Z)
  (acc : list MS.Token) (acc2 : string) (start end_ : Position)
  : TokenizerContext :=
  if (char =? "")%string then ERROR (UnterminatedString start end_)
  else if (char =? "'")%string then
    DEFAULT (acc ++ [MS.WORD_Q acc2 start {| line := line; column := column |}])
  else WORD_Q acc (acc2 ++ char)%string start
         {| line := line; column := column |}.

Definition tokenizeWordDQ (char : string) (line column : Z)
  (acc : list MS.Token) (acc2 : string) (start end_ : Position)
  : TokenizerContext :=
  if (char =? "")%string then ERROR (UnterminatedString start end_)
  else if (char =? DQ)%string then
    DEFAULT (acc ++ [MS.WORD_DQ acc2 start {| line := line; column := column |}])
  else WORD_DQ acc (acc2 ++ char)%string start
         {| line := line; column := column |}.

(** [tokenizerMap[context[0]](char, line, column, ...rest)].  The table
    has no entry for ["ERROR"], and the type of the loop variable excludes
    that tag: the loop leaves before an error context is stored.  The
    [ERROR] row below is never used by [tokenize]. *)
Definition tokenizerMap (context : TokenizerContext)
  (char : string) (line column : Z) : TokenizerContext :=
  match context with
  | INITIAL => tokenizeInitial char line column
  | ERROR e => ERROR e
  | PREV_L acc start => tokenizePrevL char line column acc start
  | PREV_R acc start => tokenizePrevR char line column acc start
  | PREV_AND acc start => tokenizePrevAnd char line column acc start
  | PREV_OR acc start => tokenizePrevOr char line column acc start
  | DEFAULT acc => tokenizeDefault char line column acc
  | SPACE acc start end_ => tokenizeSpace char line column acc start end_
  | WORD acc acc2 start end_ =>
      tokenizeWord char line column acc acc2 start end_
  | WORD_Q acc acc2 start end_ =>
      tokenizeWordQ char line column acc acc2 start end_
  | WORD_DQ acc acc2 start end_ =>
      tokenizeWordDQ char line column acc acc2 start end_
  end.

(** The [chars] array: the input cut at newlines, the newline put back at
    the end of every piece but the last, and every code unit tagged with
    its 1-based line and 0-based column. *)
Definition chars (input : string) : list CharInfo :=
  let a := split_lines input in
  let withNewlines :=
    mapi (fun l i =>
            if Nat.eqb i (List.length a - 1) then l
            else (l ++ String LF "")%string) a in
  flatMapi (fun l line =>
              mapi (fun char column =>
                      {| char := char;
                         cline := Z.of_nat line + 1;
                         ccolumn := Z.of_nat column |})
                   (split_chars l))
           withNewlines.

(** What a call of [tokenize] does: return the tokens, return an error,
    or throw. *)
Inductive Outcome : Type :=
| Tokens (tokens : list MS.Token)
| Failure (error : TokenizeError)
| Thrown (what : string).

(** The [for ... of chars] loop: [inl] is the early [return nextContext[1]],
    [inr] the context with which the loop is left. *)
Fixpoint forLoop (context : TokenizerContext) (chars : list CharInfo)
  : TokenizeError + TokenizerContext :=
  match chars with
  | [] => inr context
  | c :: rest =>
      match tokenizerMap context (char c) (cline c) (ccolumn c) with
      | ERROR e => inl e
      | nextContext => forLoop nextContext rest
      end
  end.

(** The step after the loop, fed the sentinel [("", -1, -1)]. *)
Definition finish (context : TokenizerContext) : Outcome :=
  match tokenizerMap context "" (-1) (-1) with
  | ERROR e => Failure e
  | DEFAULT acc => Tokens acc
  | _ => Thrown "must never called"
  end.

Definition tokenize (input : string) : Outcome :=
  match forLoop INITIAL (chars input) with
  | inl e => Failure e
  | inr context => finish context
  end.

End Ranged.


(** ** The earlier draft: [src/index.ts] *)

Module IndexTs.

(** [export module MS]: as in the later draft, without [SPACE]. *)
Module MS.

Inductive Token : Type :=
| AND (start end_ : Position)
| OR (start end_ : Position)
| PIPE (start end_ : Position)
| L (start end_ : Position)
| LL (start end_ : Position)
| R (start end_ : Position)
| RR (start end_ : Position)
| LPAREN (start end_ : Position)
| RPAREN (start end_ : Position)
| WORD (body : string) (start end_ : Position)
| WORD_Q (body : string) (start end_ : Position)
| WORD_DQ (body : string) (start end_ : Position)
| EOF (start end_ : Position).

Definition isEOF (t : Token) : bool :=
  match t with EOF _ _ => true | _ => false end.

End MS.

Record TokenizeError : Type :=
  { message : string; line : Z; column : Z }.

Inductive TokenizerContext : Type :=
| INITIAL
| ERROR (e : TokenizeError)
| SPACE (acc : list MS.Token)
| PREV_L (acc : list MS.Token) (start : Position)
| PREV_R (acc : list MS.Token) (start : Position)
| PREV_AND (acc : list MS.Token) (start : Position)
| PREV_OR (acc : list MS.Token) (start : Position)
| DEFAULT (acc : list MS.Token)
| WORD (acc : list MS.Token) (acc2 : string) (start end_ : Position)
| WORD_Q (acc : list MS.Token) (acc2 : string) (start : Position)
| WORD_DQ (acc : list MS.Token) (acc2 : string) (start : Position).

Definition UnrecognizedToken (line column : Z) : TokenizeError :=
  {| message := "Unrecognized token"; line := line; column := column |}.

Definition UnterminatedString (line column : Z) : TokenizeError :=
  {| message := "Unterminated string"; line := line; column := column |}.

Definition tokenizeDefault (char : string) (line column : Z)
  (acc : list MS.Token) : TokenizerContext :=
  let here := (Build_Position line column) in
  if negb (char =? "")%string && includes whitespace char then SPACE acc
  else if (char =? "<")%string then PREV_L acc here
  else if (char =? ">")%string then PREV_R acc here
  else if (char =? "&")%string then PREV_AND acc here
  else if (char =? "|")%string then PREV_OR acc here
  else if (char =? "(")%string then DEFAULT (acc ++ [MS.LPAREN here here])
  else if (char =? ")")%string then DEFAULT (acc ++ [MS.RPAREN here here])
  else if (char =? "")%string then DEFAULT (acc ++ [MS.EOF here here])
  else if (char =? DQ)%string then WORD_DQ acc "" here
  else if (char =? "'")%string then WORD_Q acc "" here
  else WORD acc char here here.

Definition tokenizeInitial (char : string) (line column : Z)
  : TokenizerContext :=
  tokenizeDefault char line column [].

Definition tokenizeSpace (char : string) (line column : Z)
  (acc : list MS.Token) : TokenizerContext :=
  if negb (char =? "")%string && includes whitespace char then SPACE acc
  else tokenizeDefault char line column acc.

Definition tokenizePrevL (char : string) (line column : Z)
  (acc : list MS.Token) (start : Position) : TokenizerContext :=
  if (char =? "<")%string then
    DEFAULT (acc ++ [MS.LL start
                       (Build_Position line column)])
  else tokenizeDefault char line column (acc ++ [MS.L start start]).

Definition tokenizePrevR (char : string) (line column : Z)
  (acc : list MS.Token) (start : Position) : TokenizerContext :=
  if (char =? ">")%string then
    DEFAULT (acc ++ [MS.RR start
                       (Build_Position line column)])
  else tokenizeDefault char line column (acc ++ [MS.R start start]).

Definition tokenizePrevAnd (char : string) (line column : Z)
  (acc : list MS.Token) (start : Position) : TokenizerContext :=
  if (char =? "&")%string then
    DEFAULT (acc ++ [MS.AND start
                       (Build_Position line column)])
  else ERROR (UnrecognizedToken line column).

Definition tokenizePrevOr (char : string) (line column : Z)
  (acc : list MS.Token) (start : Position) : TokenizerContext :=
  if (char =? "|")%string then
    DEFAULT (acc ++ [MS.OR start
                       (Build_Position line column)])
  else tokenizeDefault char line column (acc ++ [MS.PIPE start start]).

Definition tokenizeWord (char : string) (line column : Z)
  (acc : list MS.Token) (acc2 : string) (start end_ : Position)
  : TokenizerContext :=
  if includes delimiters char then
    tokenizeDefault char line column (acc ++ [MS.WORD acc2 start end_])
  else WORD acc (acc2 ++ char)%string start
         (Build_Position line column).

Definition tokenizeWordQ (char : string) (line column : Z)
  (acc : list MS.Token) (acc2 : string) (start : Position)
  : TokenizerContext :=
  if (char =? "")%string then ERROR (UnterminatedString line column)
  else if (char =? "'")%string then
    DEFAULT (acc ++ [MS.WORD_Q acc2 start
                       (Build_Position line column)])
  else WORD_Q acc (acc2 ++ char)%string start.

(** The last branch returns a [WORD_Q] context, as the source does. *)
Definition tokenizeWordDQ (char : string) (line column : Z)
  (acc : list MS.Token) (acc2 : string) (start : Position)
  : TokenizerContext :=
  if (char =? "")%string then ERROR (UnterminatedString line column)
  else if (char =? DQ)%string then
    DEFAULT (acc ++ [MS.WORD_DQ acc2 start
                       (Build_Position line column)])
  else WORD_Q acc (acc2 ++ char)%string start.

(** As in the later draft, the [ERROR] row is never used by [tokenize]. *)
Definition tokenizerMap (context : TokenizerContext)
  (char : string) (line column : Z) : TokenizerContext :=
  match context with
  | INITIAL => tokenizeInitial char line column
  | ERROR e => ERROR e
  | SPACE acc => tokenizeSpace char line column acc
  | PREV_L acc start => tokenizePrevL char line column acc start
  | PREV_R acc start => tokenizePrevR char line column acc start
  | PREV_AND acc start => tokenizePrevAnd char line column acc start
  | PREV_OR acc start => tokenizePrevOr char line column acc start
  | DEFAULT acc => tokenizeDefault char line column acc
  | WORD acc acc2 start end_ =>
      tokenizeWord char line column acc acc2 start end_
  | WORD_Q acc acc2 start => tokenizeWordQ char line column acc acc2 start
  | WORD_DQ acc acc2 start => tokenizeWordDQ char line column acc acc2 start
  end.

(** The [chars] array of this draft: the pieces between newlines, the
    newlines themselves left out. *)
Definition chars (input : string) : list CharInfo :=
  flatMapi (fun l line =>
              mapi (fun char column =>
                      {| char := char;
                         cline := Z.of_nat line + 1;
                         ccolumn := Z.of_nat column |})
                   (split_chars l))
           (split_lines input).

Inductive Outcome : Type :=
| Tokens (tokens : list MS.Token)
| Failure (error : TokenizeError)
| Thrown (what : string).

Fixpoint forLoop (context : TokenizerContext) (chars : list CharInfo)
  : TokenizeError + TokenizerContext :=
  match chars with
  | [] => inr context
  | c :: rest =>
      match tokenizerMap context (char c) (cline c) (ccolumn c) with
      | ERROR e => inl e
      | nextContext => forLoop nextContext rest
      end
  end.

Definition finish (context : TokenizerContext) : Outcome :=
  match tokenizerMap context "" (-1) (-1) with
  | ERROR e => Failure e
  | DEFAULT acc => Tokens acc
  | _ => Thrown "must never called"
  end.

Definition tokenize (input : string) : Outcome :=
  match forLoop INITIAL (chars input) with
  | inl e => Failure e
  | inr context => finish context
  end.

End IndexTs.


(** ** Notions used to state the properties *)

(** A stream element that stands for one character of the input. *)
Definition single (c : CharInfo) : Prop :=
  exists a : ascii, char c = String a "".

(** Positions of a stream grow strictly from one element to the next. *)
Definition increasing (cs : list CharInfo) : Prop :=
  StronglySorted (fun a b => Position_lt (posOf a) (posOf b)) cs.

(** The source text covered by the inclusive range [s .. e]: the characters
    of the stream whose position lies in the range. *)
Definition within (s e : Position) (c : CharInfo) : bool :=
  Position_leb s (posOf c) && Position_leb (posOf c) e.

Definition covered (stream : list CharInfo) (s e : Position) : string :=
  textOf (filter (within s e) stream).

Definition joinAll (pieces : list string) : string :=
  fold_right String.append "" pieces.

(** The text of the input between two positions, both included, read off
    the input itself: the characters of [input], the first of them at
    line [line], column [column], whose own line and column lie from [s]
    to [e].  A newline is the last character of its line; the character
    after it is at column 0 of the next line. *)
Fixpoint textBetween (s e : Position) (line column : Z) (input : string)
  : string :=
  match input with
  | EmptyString => EmptyString
  | String a rest =>
      let here := {| line := line; column := column |} in
      let after :=
        if Ascii.eqb a LF then textBetween s e (line + 1) 0 rest
        else textBetween s e line (column + 1) rest in
      if Position_leb s here && Position_leb here e then String a after
      else after
  end.

(** The stream of the later draft, read off the input from left to right:
    the element for a character sits at the current line and column, a
    newline moves to column 0 of the next line. *)
Fixpoint chars_from (line column : Z) (s : string) : list CharInfo :=
  match s with
  | EmptyString => []
  | String a s' =>
      {| char := String a ""; cline := line; ccolumn := column |}
      :: (if Ascii.eqb a LF then chars_from (line + 1) 0 s'
          else chars_from line (column + 1) s')
  end.

(** The stream of the earlier draft, read off the input in the same way:
    a newline moves to the next line and leaves no element. *)
Fixpoint chars_skipping (line column : Z) (s : string) : list CharInfo :=
  match s with
  | EmptyString => []
  | String a s' =>
      if Ascii.eqb a LF then chars_skipping (line + 1) 0 s'
      else {| char := String a ""; cline := line; ccolumn := column |}
           :: chars_skipping line (column + 1) s'
  end.

(** The position immediately past the last character of the input:
    line 1, column 0 for the empty input. *)
Fixpoint pastEnd (line column : Z) (s : string) : Position :=
  match s with
  | EmptyString => {| line := line; column := column |}
  | String a s' =>
      if Ascii.eqb a LF then pastEnd (line + 1) 0 s'
      else pastEnd line (column + 1) s'
  end.

Definition sentinel : Position := {| line := -1; column := -1 |}.

(** The character [a] occurs in [s]. *)
Fixpoint occurs (a : ascii) (s : string) : bool :=
  match s with
  | EmptyString => false
  | String b s' => Ascii.eqb b a || occurs a s'
  end.

Module RangedSpec.
Import Ranged.

Definition isThrown (o : Outcome) : bool :=
  match o with Thrown _ => true | _ => false end.

Definition accOf (context : TokenizerContext) : list MS.Token :=
  match context with
  | INITIAL | ERROR _ => []
  | PREV_L acc _ | PREV_R acc _ | PREV_AND acc _ | PREV_OR acc _
  | DEFAULT acc | SPACE acc _ _ => acc
  | WORD acc _ _ _ | WORD_Q acc _ _ _ | WORD_DQ acc _ _ _ => acc
  end.

Definition isERROR (context : TokenizerContext) : bool :=
  match context with ERROR _ => true | _ => false end.

Definition isDEFAULT (context : TokenizerContext) : bool :=
  match context with DEFAULT _ => true | _ => false end.

(** The source text a token's range covers. *)
Definition sourceText (input : string) (t : MS.Token) : string :=
  covered (chars input) (MS.start t) (MS.end_ t).

(** [Covers acc p]: the tokens of [acc], none of them [EOF], cut the run
    [p] of stream elements into consecutive non-empty pieces, each token
    ranging from the first to the last element of its piece. *)
Inductive Covers : list MS.Token -> list CharInfo -> Prop :=
| Covers_nil : Covers [] []
| Covers_snoc acc p t c rest :
    Covers acc p ->
    MS.isEOF t = false ->
    MS.start t = posOf c ->
    MS.end_ t = posOf (last rest c) ->
    Covers (acc ++ [t]) (p ++ c :: rest).

(** What a context holds of the part of the stream not yet turned into a
    token. *)
Definition spans (seg : list CharInfo) (s e : Position) : Prop :=
  exists c rest, seg = c :: rest /\ s = posOf c /\ e = posOf (last rest c).

Definition quoted (quote : string) (seg : list CharInfo) (acc2 : string)
  (s e : Position) : Prop :=
  exists q body,
    seg = q :: body /\ char q = quote /\ s = posOf q
    /\ e = posOf (last body q) /\ acc2 = textOf body
    /\ Forall (fun c => char c <> quote) body.

Definition Pending (context : TokenizerContext) (seg : list CharInfo)
  : Prop :=
  match context with
  | INITIAL | DEFAULT _ => seg = []
  | ERROR _ => False
  | PREV_L _ s | PREV_R _ s | PREV_AND _ s | PREV_OR _ s =>
      exists c, seg = [c] /\ s = posOf c
  | SPACE _ s e => spans seg s e
  | WORD _ acc2 s e => spans seg s e /\ acc2 = textOf seg
  | WORD_Q _ acc2 s e => quoted "'" seg acc2 s e
  | WORD_DQ _ acc2 s e => quoted DQ seg acc2 s e
  end.

(** The stream ends inside a quote opened at [s]: its last [quote]
    character sits at [s], and [e] is the position of its last element. *)
Definition openQuoteAt (quote : string) (stream : list CharInfo)
  (s e : Position) : Prop :=
  exists p q body,
    stream = p ++ q :: body /\ char q = quote /\ s = posOf q
    /\ e = posOf (last stream q)
    /\ Forall (fun c => char c <> quote) body.

(** The invariant of the loop after the run [p] of the stream. *)
Definition Inv (p : list CharInfo) (context : TokenizerContext) : Prop :=
  exists p0 seg,
    p = p0 ++ seg /\ Covers (accOf context) p0 /\ Pending context seg.

End RangedSpec.

(** The source text under the range of a token of the later draft: the
    text of the input between the token's start and end, the input
    counted from line 1, column 0. *)
Definition tokenText (input : string) (t : Ranged.MS.Token) : string :=
  textBetween (Ranged.MS.start t) (Ranged.MS.end_ t) 1 0 input.

Module IndexTsSpec.
Import IndexTs.

Definition isThrown (o : Outcome) : bool :=
  match o with Thrown _ => true | _ => false end.

Definition accOf (context : TokenizerContext) : list MS.Token :=
  match context with
  | INITIAL | ERROR _ => []
  | SPACE acc | PREV_L acc _ | PREV_R acc _ | PREV_AND acc _ | PREV_OR acc _
  | DEFAULT acc => acc
  | WORD acc _ _ _ | WORD_Q acc _ _ | WORD_DQ acc _ _ => acc
  end.

Definition isERROR (context : TokenizerContext) : bool :=
  match context with ERROR _ => true | _ => false end.

Definition isDEFAULT (context : TokenizerContext) : bool :=
  match context with DEFAULT _ => true | _ => false end.

(** The [EOF] token pushed by the step fed the sentinel. *)
Definition eofSentinel : MS.Token := MS.EOF sentinel sentinel.

(** A token that is not a [WORD_DQ] with a non-empty body. *)
Definition dqBodyEmpty (t : MS.Token) : bool :=
  match t with
  | MS.WORD_DQ body _ _ => (body =? "")%string
  | _ => true
  end.

(** What the loop of this draft keeps true of double-quoted words: none
    with a body was pushed, and none is being accumulated. *)
Definition dqInv (context : TokenizerContext) : bool :=
  forallb dqBodyEmpty (accOf context)
  && match context with
     | WORD_DQ _ acc2 _ => (acc2 =? "")%string
     | _ => true
     end.

End IndexTsSpec.

(** The input without its newlines. *)
Fixpoint dropNewlines (s : string) : string :=
  match s with
  | EmptyString => EmptyString
  | String a s' =>
      if Ascii.eqb a LF then dropNewlines s' else String a (dropNewlines s')
  end.

(** ** Notions for the lexemes of the later draft *)

(** Every character of [s] satisfies [P]. *)
Fixpoint allChars (P : ascii -> bool) (s : string) : bool :=
  match s with
  | EmptyString => true
  | String a s' => P a && allChars P s'
  end.

(** [s] is not empty and its first character satisfies [P]. *)
Definition startsWith (P : ascii -> bool) (s : string) : bool :=
  match s with
  | EmptyString => false
  | String a _ => P a
  end.

Definition isWhitespace (a : ascii) : bool := occurs a whitespace.

Definition isDelimiter (a : ascii) : bool := occurs a delimiters.

Definition isQuote (a : ascii) : bool :=
  Ascii.eqb a "'" || Ascii.eqb a DQUOTE.

(** A non-empty run of whitespace. *)
Definition whitespaceRun (txt : string) : bool :=
  negb (txt =? "")%string && allChars isWhitespace txt.

(** The text of an unquoted word: it does not start with a quote and
    holds no delimiter. *)
Definition wordBody (txt : string) : bool :=
  startsWith (fun a => negb (isQuote a)) txt
  && allChars (fun a => negb (isDelimiter a)) txt.

Definition Position_ltb (p q : Position) : bool :=
  (line p <? line q) || ((line p =? line q) && (column p <? column q)).

Module RangedLex.
Import Ranged RangedSpec.

(** [lexemeOK t txt]: the source text [txt] is what a token [t] stands
    for.  [EOF] stands for no text. *)
Definition lexemeOK (t : MS.Token) (txt : string) : bool :=
  match t with
  | MS.AND _ _ => (txt =? "&&")%string
  | MS.OR _ _ => (txt =? "||")%string
  | MS.PIPE _ _ => (txt =? "|")%string
  | MS.L _ _ => (txt =? "<")%string
  | MS.LL _ _ => (txt =? "<<")%string
  | MS.R _ _ => (txt =? ">")%string
  | MS.RR _ _ => (txt =? ">>")%string
  | MS.LPAREN _ _ => (txt =? "(")%string
  | MS.RPAREN _ _ => (txt =? ")")%string
  | MS.SPACE _ _ => whitespaceRun txt
  | MS.WORD body _ _ => (txt =? body)%string && wordBody body
  | MS.WORD_Q body _ _ =>
      (txt =? "'" ++ body ++ "'")%string && negb (occurs "'" body)
  | MS.WORD_DQ body _ _ =>
      (txt =? DQ ++ body ++ DQ)%string && negb (occurs DQUOTE body)
  | MS.EOF _ _ => false
  end.

(** [Lexed acc p]: as [Covers acc p], and the text of each piece is what
    its token stands for. *)
Inductive Lexed : list MS.Token -> list CharInfo -> Prop :=
| Lexed_nil : Lexed [] []
| Lexed_snoc acc p t c rest :
    Lexed acc p ->
    MS.start t = posOf c ->
    MS.end_ t = posOf (last rest c) ->
    lexemeOK t (textOf (c :: rest)) = true ->
    Lexed (acc ++ [t]) (p ++ c :: rest).

Definition lone (operator : string) (seg : list CharInfo) (s : Position)
  : Prop :=
  exists c, seg = [c] /\ s = posOf c /\ char c = operator.

Definition quotedText (quote : ascii) (seg : list CharInfo) (acc2 : string)
  (s e : Position) : Prop :=
  exists q body,
    seg = q :: body /\ char q = String quote "" /\ s = posOf q
    /\ e = posOf (last body q) /\ acc2 = textOf body
    /\ occurs quote acc2 = false.

Definition PendingLex (context : TokenizerContext) (seg : list CharInfo)
  : Prop :=
  match context with
  | INITIAL | DEFAULT _ => seg = []
  | ERROR _ => False
  | PREV_L _ s => lone "<" seg s
  | PREV_R _ s => lone ">" seg s
  | PREV_AND _ s => lone "&" seg s
  | PREV_OR _ s => lone "|" seg s
  | SPACE _ s e => spans seg s e /\ whitespaceRun (textOf seg) = true
  | WORD _ acc2 s e =>
      spans seg s e /\ acc2 = textOf seg /\ wordBody acc2 = true
  | WORD_Q _ acc2 s e => quotedText "'" seg acc2 s e
  | WORD_DQ _ acc2 s e => quotedText DQUOTE seg acc2 s e
  end.

(** The invariant of the loop, with the texts. *)
Definition LexInv (p : list CharInfo) (context : TokenizerContext) : Prop :=
  exists p0 seg,
    p = p0 ++ seg /\ Lexed (accOf context) p0 /\ PendingLex context seg.

(** Why [tokenize] can fail on a stream: a character other than [&] right
    after a lone [&], the end of the stream right after a lone [&], or the
    end of the stream inside a quote. *)
Definition failureCause (stream : list CharInfo) (e : TokenizeError)
  : Prop :=
  (exists p c0 x rest,
      stream = p ++ c0 :: x :: rest /\ char c0 = "&" /\ char x <> "&"
      /\ e = {| message := "Unrecognized token";
                start := posOf x; end_ := posOf x |})
  \/ (exists p c0,
         stream = p ++ [c0] /\ char c0 = "&"
         /\ e = {| message := "Unrecognized token";
                   start := sentinel; end_ := sentinel |})
  \/ (exists s en,
         e = {| message := "Unterminated string"; start := s; end_ := en |}
         /\ (openQuoteAt "'" stream s en \/ openQuoteAt DQ stream s en)).

End RangedLex.

(** ** The diagnostic printer of the later draft *)

(** [n] copies of [input] in a row. *)
Fixpoint copies (input : string) (n : nat) : string :=
  match n with
  | O => EmptyString
  | S n' => (input ++ copies input n')%string
  end.

Module RangedPrint.
Import Ranged.

(** [Array.from(new Array(times)).map(() => input).join("")].
    [new Array(times)] throws a [RangeError] unless [times] is an integer
    from 0 to 2^32 - 1: that is [None].  Otherwise the array holds
    [times] empty slots, which [map] fills with [input]. *)
Definition repeat (input : string) (times : Z) : option string :=
  if (0 <=? times) && (times <=? 4294967295) then
    Some (String.concat ""
            (List.map (fun _ : unit => input)
                      (List.repeat tt (Z.to_nat times))))
  else None.

(** A number in a template literal.  Lines and columns are integers far
    below 10^21, which JavaScript writes in plain decimal digits. *)
Definition numberToString (n : Z) : string :=
  NilZero.string_of_int (Z.to_int n).

(** [input.split("\n")[index]] in a template literal: a missing element
    reads [undefined]. *)
Definition lineAt (input : string) (index : Z) : string :=
  if index <? 0 then "undefined"
  else match nth_error (split_lines input) (Z.to_nat index) with
       | Some l => l
       | None => "undefined"
       end.

(** What a call of [printToken] does: one call of [console.log] with the
    tokens as its arguments, one call of [console.error] with one text,
    or an exception: the [RangeError] of [repeat], or the one [tokenize]
    throws. *)
Inductive Console : Type :=
| Log (args : list MS.Token)
| Error (text : string)
| RangeError
| Uncaught (what : string).

(** The text handed to [console.error], once both calls of [repeat] have
    returned. *)
Definition errorText (input : string) (result : TokenizeError)
  (spaces carets : string) : string :=
  ("Failed to parse: " ++ message result
   ++ " at " ++ numberToString (line (start result))
   ++ ":" ++ numberToString (column (start result))
   ++ " to " ++ numberToString (line (end_ result))
   ++ ":" ++ numberToString (column (end_ result))
   ++ String LF (lineAt input (line (start result) - 1))
   ++ String LF (spaces ++ carets))%string.

(** The substitutions of the template are evaluated from left to right:
    the first call of [repeat] that throws ends [printToken]. *)
Definition printToken (input : string) : Console :=
  match tokenize input with
  | Tokens result => Log result
  | Failure result =>
      match repeat " " (column (start result)) with
      | None => RangeError
      | Some spaces =>
          match repeat "^"
                  (1 + column (end_ result) - column (start result)) with
          | None => RangeError
          | Some carets => Error (errorText input result spaces carets)
          end
      end
  | Thrown what => Uncaught what
  end.

End RangedPrint.

(** ** Notions for the longest match in the later draft *)

Module RangedGreedy.
Import Ranged RangedSpec.

(** [canFollow t t']: [t'] may come right after [t] in the output.  What
    may not: a second whitespace run, a word or quoted word glued to a
    word, and the operators that a longer match would have swallowed. *)
Definition canFollow (t t' : MS.Token) : bool :=
  match t, t' with
  | MS.SPACE _ _, MS.SPACE _ _ => false
  | MS.WORD _ _ _, (MS.WORD _ _ _ | MS.WORD_Q _ _ _ | MS.WORD_DQ _ _ _) =>
      false
  | MS.L _ _, (MS.L _ _ | MS.LL _ _) => false
  | MS.R _ _, (MS.R _ _ | MS.RR _ _) => false
  | MS.PIPE _ _, (MS.PIPE _ _ | MS.OR _ _) => false
  | _, _ => true
  end.

Fixpoint adjacentOK (ts : list MS.Token) : bool :=
  match ts with
  | t :: rest =>
      match rest with
      | t' :: _ => canFollow t t' && adjacentOK rest
      | [] => true
      end
  | [] => true
  end.

Definition lastToken (ts : list MS.Token) : option MS.Token :=
  match rev ts with
  | [] => None
  | t :: _ => Some t
  end.

(** [okAfter t context]: the context may hold after [t] was pushed last. *)
Definition okAfter (t : MS.Token) (context : TokenizerContext) : bool :=
  match context with
  | INITIAL | DEFAULT _ =>
      match t with
      | MS.SPACE _ _ | MS.WORD _ _ _ | MS.L _ _ | MS.R _ _ | MS.PIPE _ _ =>
          false
      | _ => true
      end
  | PREV_L _ _ => match t with MS.L _ _ => false | _ => true end
  | PREV_R _ _ => match t with MS.R _ _ => false | _ => true end
  | PREV_OR _ _ => match t with MS.PIPE _ _ => false | _ => true end
  | SPACE _ _ _ => match t with MS.SPACE _ _ => false | _ => true end
  | WORD _ _ _ _ | WORD_Q _ _ _ _ | WORD_DQ _ _ _ _ =>
      match t with MS.WORD _ _ _ => false | _ => true end
  | PREV_AND _ _ | ERROR _ => true
  end.

(** The invariant of the loop for the longest match. *)
Definition greedy (context : TokenizerContext) : bool :=
  adjacentOK (accOf context)
  && match lastToken (accOf context) with
     | Some t => okAfter t context
     | None => true
     end.

End RangedGreedy.

(** ** Notions to compare the two drafts *)

Module Drafts.

(** A token of the later draft as the earlier draft has it: the same
    token, or nothing for [SPACE]. *)
Definition erase (t : Ranged.MS.Token) : list IndexTs.MS.Token :=
  match t with
  | Ranged.MS.AND s e => [IndexTs.MS.AND s e]
  | Ranged.MS.OR s e => [IndexTs.MS.OR s e]
  | Ranged.MS.PIPE s e => [IndexTs.MS.PIPE s e]
  | Ranged.MS.L s e => [IndexTs.MS.L s e]
  | Ranged.MS.LL s e => [IndexTs.MS.LL s e]
  | Ranged.MS.R s e => [IndexTs.MS.R s e]
  | Ranged.MS.RR s e => [IndexTs.MS.RR s e]
  | Ranged.MS.LPAREN s e => [IndexTs.MS.LPAREN s e]
  | Ranged.MS.RPAREN s e => [IndexTs.MS.RPAREN s e]
  | Ranged.MS.SPACE _ _ => []
  | Ranged.MS.WORD b s e => [IndexTs.MS.WORD b s e]
  | Ranged.MS.WORD_Q b s e => [IndexTs.MS.WORD_Q b s e]
  | Ranged.MS.WORD_DQ b s e => [IndexTs.MS.WORD_DQ b s e]
  | Ranged.MS.EOF s e => [IndexTs.MS.EOF s e]
  end.

Definition eraseAll (ts : list Ranged.MS.Token) : list IndexTs.MS.Token :=
  flat_map erase ts.

(** The same error in the two shapes: the same message, and for
    [UnrecognizedToken] the same point. *)
Definition sameError (eR : Ranged.TokenizeError)
  (eI : IndexTs.TokenizeError) : Prop :=
  Ranged.message eR = IndexTs.message eI
  /\ (Ranged.message eR = "Unrecognized token" ->
      Ranged.start eR = at_ (IndexTs.line eI) (IndexTs.column eI)
      /\ Ranged.end_ eR = at_ (IndexTs.line eI) (IndexTs.column eI)).

(** Contexts of the two drafts that stand for the same state.  The
    double-quote state has no counterpart: the earlier draft leaves it
    for the single-quote state. *)
Definition sim (cR : Ranged.TokenizerContext)
  (cI : IndexTs.TokenizerContext) : Prop :=
  match cR, cI with
  | Ranged.INITIAL, IndexTs.INITIAL => True
  | Ranged.ERROR eR, IndexTs.ERROR eI => sameError eR eI
  | Ranged.PREV_L a s, IndexTs.PREV_L a' s' => a' = eraseAll a /\ s' = s
  | Ranged.PREV_R a s, IndexTs.PREV_R a' s' => a' = eraseAll a /\ s' = s
  | Ranged.PREV_AND a s, IndexTs.PREV_AND a' s' =>
      a' = eraseAll a /\ s' = s
  | Ranged.PREV_OR a s, IndexTs.PREV_OR a' s' => a' = eraseAll a /\ s' = s
  | Ranged.DEFAULT a, IndexTs.DEFAULT a' => a' = eraseAll a
  | Ranged.SPACE a _ _, IndexTs.SPACE a' => a' = eraseAll a
  | Ranged.WORD a b s e, IndexTs.WORD a' b' s' e' =>
      a' = eraseAll a /\ b' = b /\ s' = s /\ e' = e
  | Ranged.WORD_Q a b s _, IndexTs.WORD_Q a' b' s' =>
      a' = eraseAll a /\ b' = b /\ s' = s
  | _, _ => False
  end.

(** Outcomes of the two drafts that agree. *)
Definition agree (oR : Ranged.Outcome) (oI : IndexTs.Outcome) : Prop :=
  match oR, oI with
  | Ranged.Tokens r, IndexTs.Tokens i => i = eraseAll r
  | Ranged.Failure eR, IndexTs.Failure eI => sameError eR eI
  | _, _ => False
  end.

End Drafts.

(** ** The character stream *)

Section Stream.

Lemma split_lines_nonempty (s : string) : split_lines s <> [].
Proof.
  destruct s as [|a s]; simpl; [discriminate|].
  destruct (Ascii.eqb a LF); [discriminate|].
  destruct (split_lines s); discriminate.
Qed.

Lemma Forall_mapi_from {A B : Type} (P : B -> Prop) (f : A -> nat -> B)
  (l : list A) :
  (forall x i, P (f x i)) -> forall i, Forall P (mapi_from i f l).
Proof.
  intros Hf. induction l as [|x l IH]; intros i; simpl; constructor; auto.
Qed.

Lemma Forall_concat {B : Type} (P : B -> Prop) (ll : list (list B)) :
  Forall (Forall P) ll -> Forall P (List.concat ll).
Proof.
  induction 1; simpl; [constructor|]. apply Forall_app; split; assumption.
Qed.

Lemma split_chars_single (l : string) (line : Z) (k : nat) :
  Forall single
    (mapi_from k (fun ch column =>
                    {| char := ch; cline := line;
                       ccolumn := Z.of_nat column |}) (split_chars l)).
Proof.
  revert k. induction l as [|a l IH]; intros k; simpl; constructor.
  - exists a. reflexivity.
  - apply IH.
Qed.

(** The stream of the earlier draft holds characters only. *)
Lemma IndexTs_chars_single (input : string) :
  Forall single (IndexTs.chars input).
Proof.
  unfold IndexTs.chars, flatMapi, mapi. apply Forall_concat.
  apply Forall_mapi_from. intros l i. apply split_chars_single.
Qed.

(** The later draft's [chars], piece by piece: the first piece laid out
    from column [k] of line [i + 1], the others from column 0. *)
Lemma Ranged_chars_pieces (s : string) :
  forall (i k n : nat),
    n = (i + List.length (split_lines s))%nat ->
    match split_lines s with
    | [] => []
    | l :: rest =>
        mapi_from k
          (fun ch column =>
             {| char := ch; cline := Z.of_nat i + 1;
                ccolumn := Z.of_nat column |})
          (split_chars (if Nat.eqb i (n - 1) then l
                        else (l ++ String LF "")%string))
        ++ List.concat
             (mapi_from (S i)
                (fun l line =>
                   mapi (fun ch column =>
                           {| char := ch; cline := Z.of_nat line + 1;
                              ccolumn := Z.of_nat column |})
                        (split_chars l))
                (mapi_from (S i)
                   (fun l i => if Nat.eqb i (n - 1) then l
                               else (l ++ String LF "")%string) rest))
    end = chars_from (Z.of_nat i + 1) (Z.of_nat k) s.
Proof.
  induction s as [|a s IH]; intros i k n Hn.
  - simpl in *. replace (Nat.eqb i (n - 1)) with true
      by (symmetry; apply Nat.eqb_eq; lia). reflexivity.
  - simpl split_lines in *. simpl chars_from.
    destruct (Ascii.eqb a LF) eqn:Ea.
    + simpl List.length in Hn.
      replace (Nat.eqb i (n - 1)) with false
        by (symmetry; apply Nat.eqb_neq;
            pose proof (split_lines_nonempty s);
            destruct (split_lines s); simpl in *; [congruence | lia]).
      apply Ascii.eqb_eq in Ea. subst a.
      cbn [String.append split_chars mapi_from app]. f_equal.
      specialize (IH (S i) 0%nat n).
      destruct (split_lines s) as [|h t] eqn:Es;
        [exfalso; eapply split_lines_nonempty; eassumption|].
      cbn [mapi_from List.concat]. unfold mapi at 1.
      rewrite IH by (cbn [List.length] in *; lia).
      f_equal. lia.
    + destruct (split_lines s) as [|h t] eqn:Es;
        [exfalso; eapply split_lines_nonempty; eassumption|].
      specialize (IH i (S k) n).
      simpl List.length in *.
      replace (Z.of_nat k + 1) with (Z.of_nat (S k)) by lia.
      rewrite <- (IH Hn).
      destruct (Nat.eqb i (n - 1));
        cbn [String.append split_chars mapi_from app]; reflexivity.
Qed.

Lemma Ranged_chars_from (input : string) :
  Ranged.chars input = chars_from 1 0 input.
Proof.
  unfold Ranged.chars, flatMapi, mapi.
  pose proof (Ranged_chars_pieces input 0 0
                (List.length (split_lines input)) eq_refl) as H.
  simpl Z.of_nat in H. simpl Z.add in H. rewrite <- H.
  destruct (split_lines input) as [|h t]; reflexivity.
Qed.

Lemma chars_from_single (s : string) :
  forall l c, Forall single (chars_from l c s).
Proof.
  induction s as [|a s IH]; intros l c; simpl; constructor.
  - exists a. reflexivity.
  - destruct (Ascii.eqb a LF); apply IH.
Qed.

Lemma chars_from_text (s : string) :
  forall l c, textOf (chars_from l c s) = s.
Proof.
  induction s as [|a s IH]; intros l c; simpl; [reflexivity|].
  f_equal. destruct (Ascii.eqb a LF); apply IH.
Qed.

Lemma chars_from_after (s : string) :
  forall l c,
    Forall (fun x => l < cline x \/ (l = cline x /\ c <= ccolumn x))
           (chars_from l c s).
Proof.
  induction s as [|a s IH]; intros l c; simpl; constructor.
  - simpl. right. lia.
  - destruct (Ascii.eqb a LF).
    + eapply Forall_impl; [|apply (IH (l + 1) 0)]. simpl. intros x Hx. lia.
    + eapply Forall_impl; [|apply (IH l (c + 1))]. simpl. intros x Hx. lia.
Qed.

Lemma chars_from_increasing (s : string) :
  forall l c, increasing (chars_from l c s).
Proof.
  unfold increasing.
  induction s as [|a s IH]; intros l c; simpl; constructor.
  - destruct (Ascii.eqb a LF); apply IH.
  - unfold Position_lt. simpl. destruct (Ascii.eqb a LF).
    + eapply Forall_impl; [|apply (chars_from_after s (l + 1) 0)].
      simpl. intros x Hx. lia.
    + eapply Forall_impl; [|apply (chars_from_after s l (c + 1))].
      simpl. intros x Hx. lia.
Qed.

Lemma chars_from_app (s t : string) :
  forall l c,
    chars_from l c (s ++ t)
    = chars_from l c s
      ++ chars_from (line (pastEnd l c s)) (column (pastEnd l c s)) t.
Proof.
  induction s as [|a s IH]; intros l c; simpl; [reflexivity|].
  f_equal. destruct (Ascii.eqb a LF); apply IH.
Qed.

Lemma pastEnd_app (s t : string) :
  forall l c,
    pastEnd l c (s ++ t)
    = pastEnd (line (pastEnd l c s)) (column (pastEnd l c s)) t.
Proof.
  induction s as [|a s IH]; intros l c; simpl; [now destruct t|].
  destruct (Ascii.eqb a LF); apply IH.
Qed.

(** The earlier draft's [chars], piece by piece. *)
Lemma IndexTs_chars_pieces (s : string) :
  forall (i k : nat),
    match split_lines s with
    | [] => []
    | l :: rest =>
        mapi_from k
          (fun ch column =>
             {| char := ch; cline := Z.of_nat i + 1;
                ccolumn := Z.of_nat column |})
          (split_chars l)
        ++ List.concat
             (mapi_from (S i)
                (fun l line =>
                   mapi (fun ch column =>
                           {| char := ch; cline := Z.of_nat line + 1;
                              ccolumn := Z.of_nat column |})
                        (split_chars l))
                rest)
    end = chars_skipping (Z.of_nat i + 1) (Z.of_nat k) s.
Proof.
  induction s as [|a s IH]; intros i k; [reflexivity|].
  simpl split_lines. simpl chars_skipping.
  destruct (Ascii.eqb a LF) eqn:Ea.
  - specialize (IH (S i) 0%nat).
    destruct (split_lines s) as [|h t] eqn:Es;
      [exfalso; eapply split_lines_nonempty; eassumption|].
    cbn [split_chars mapi_from app List.concat]. unfold mapi at 1.
    rewrite IH. f_equal. lia.
  - destruct (split_lines s) as [|h t] eqn:Es;
      [exfalso; eapply split_lines_nonempty; eassumption|].
    specialize (IH i (S k)).
    replace (Z.of_nat k + 1) with (Z.of_nat (S k)) by lia.
    rewrite <- IH. reflexivity.
Qed.

Lemma IndexTs_chars_skipping (input : string) :
  IndexTs.chars input = chars_skipping 1 0 input.
Proof.
  unfold IndexTs.chars, flatMapi, mapi.
  pose proof (IndexTs_chars_pieces input 0 0) as H.
  simpl Z.of_nat in H. simpl Z.add in H. rewrite <- H.
  destruct (split_lines input) as [|h t]; reflexivity.
Qed.

Lemma chars_skipping_app (s t : string) :
  forall l c,
    chars_skipping l c (s ++ t)
    = chars_skipping l c s
      ++ chars_skipping (line (pastEnd l c s)) (column (pastEnd l c s)) t.
Proof.
  induction s as [|a s IH]; intros l c; simpl; [reflexivity|].
  destruct (Ascii.eqb a LF); [apply IH|]. simpl. f_equal. apply IH.
Qed.

End Stream.

(** ** General facts on strings and lists *)

Lemma string_app_nil_r (s : string) : (s ++ "")%string = s.
Proof. induction s as [|a s IH]; simpl; [reflexivity | now rewrite IH]. Qed.

Lemma string_app_assoc (a b c : string) :
  (a ++ (b ++ c))%string = ((a ++ b) ++ c)%string.
Proof. induction a as [|x a IH]; simpl; [reflexivity | now rewrite IH]. Qed.

Lemma textOf_app (p q : list CharInfo) :
  textOf (p ++ q) = (textOf p ++ textOf q)%string.
Proof.
  induction p as [|c p IH]; simpl; [reflexivity|].
  rewrite IH. apply string_app_assoc.
Qed.

Lemma textOf_snoc (p : list CharInfo) (c : CharInfo) :
  textOf (p ++ [c]) = (textOf p ++ char c)%string.
Proof. rewrite textOf_app. simpl. now rewrite string_app_nil_r. Qed.

Lemma joinAll_snoc (l : list string) (x : string) :
  joinAll (l ++ [x]) = (joinAll l ++ x)%string.
Proof.
  induction l as [|y l IH]; simpl.
  - apply string_app_nil_r.
  - rewrite IH. apply string_app_assoc.
Qed.

Lemma single_not_empty (c : CharInfo) :
  single c -> (char c =? "")%string = false.
Proof. intros [a Ha]. rewrite Ha. reflexivity. Qed.

Lemma posOf_eta (c : CharInfo) :
  {| line := cline c; column := ccolumn c |} = posOf c.
Proof. reflexivity. Qed.

(** ** The loop invariant of the later draft *)

Module RangedFacts.
Import Ranged RangedSpec.

Ltac break_if :=
  match goal with
  | |- context [if ?b then _ else _] =>
      let E := fresh "E" in destruct b eqn:E
  end.

Lemma Covers_nil_inv (p : list CharInfo) : Covers [] p -> p = [].
Proof.
  inversion 1; [reflexivity|].
  match goal with H : _ ++ [_] = [] |- _ =>
    apply app_eq_nil in H; destruct H; discriminate end.
Qed.

Lemma Covers_noEOF (acc : list MS.Token) (p : list CharInfo) :
  Covers acc p -> existsb MS.isEOF acc = false.
Proof.
  induction 1; [reflexivity|].
  rewrite existsb_app. simpl. rewrite IHCovers.
  match goal with H : MS.isEOF _ = false |- _ => rewrite H end. reflexivity.
Qed.

(** The equations of the final step, state by state. *)
Lemma finish_INITIAL : finish INITIAL = Tokens [MS.EOF sentinel sentinel].
Proof. reflexivity. Qed.

Lemma finish_DEFAULT acc :
  finish (DEFAULT acc) = Tokens (acc ++ [MS.EOF sentinel sentinel]).
Proof. reflexivity. Qed.

Lemma finish_PREV_L acc s :
  finish (PREV_L acc s)
  = Tokens ((acc ++ [MS.L s s]) ++ [MS.EOF sentinel sentinel]).
Proof. reflexivity. Qed.

Lemma finish_PREV_R acc s :
  finish (PREV_R acc s)
  = Tokens ((acc ++ [MS.R s s]) ++ [MS.EOF sentinel sentinel]).
Proof. reflexivity. Qed.

Lemma finish_PREV_OR acc s :
  finish (PREV_OR acc s)
  = Tokens ((acc ++ [MS.PIPE s s]) ++ [MS.EOF sentinel sentinel]).
Proof. reflexivity. Qed.

Lemma finish_PREV_AND acc s :
  finish (PREV_AND acc s) = Failure (UnrecognizedToken (-1) (-1)).
Proof. reflexivity. Qed.

Lemma finish_SPACE acc s e :
  finish (SPACE acc s e)
  = Tokens ((acc ++ [MS.SPACE s e]) ++ [MS.EOF sentinel sentinel]).
Proof. reflexivity. Qed.

Lemma finish_WORD acc acc2 s e :
  finish (WORD acc acc2 s e)
  = Tokens ((acc ++ [MS.WORD acc2 s e]) ++ [MS.EOF sentinel sentinel]).
Proof. reflexivity. Qed.

Lemma finish_WORD_Q acc acc2 s e :
  finish (WORD_Q acc acc2 s e) = Failure (UnterminatedString s e).
Proof. reflexivity. Qed.

Lemma finish_WORD_DQ acc acc2 s e :
  finish (WORD_DQ acc acc2 s e) = Failure (UnterminatedString s e).
Proof. reflexivity. Qed.

Lemma forLoop_app (p q : list CharInfo) :
  forall context,
    forLoop context (p ++ q)
    = match forLoop context p with
      | inl e => inl e
      | inr context' => forLoop context' q
      end.
Proof.
  induction p as [|c p IH]; intros context; simpl; [reflexivity|].
  destruct (tokenizerMap context (char c) (cline c) (ccolumn c));
    try reflexivity; apply IH.
Qed.

Lemma forLoop_not_ERROR (p : list CharInfo) :
  forall context context',
    isERROR context = false ->
    forLoop context p = inr context' -> isERROR context' = false.
Proof.
  induction p as [|c p IH]; intros context context' Hc H; simpl in H.
  - congruence.
  - destruct (tokenizerMap context (char c) (cline c) (ccolumn c)) eqn:E;
      try discriminate; (eapply IH; [|exact H]; reflexivity).
Qed.

Lemma Inv_default (p : list CharInfo) (acc : list MS.Token) (c : CharInfo) :
  Covers acc p -> single c ->
  Inv (p ++ [c]) (tokenizeDefault (char c) (cline c) (ccolumn c) acc).
Proof.
  intros HC Hs. pose proof (single_not_empty c Hs) as Hne.
  destruct Hs as [a Ha].
  unfold tokenizeDefault. cbv zeta. rewrite posOf_eta.
  repeat break_if; try congruence; unfold Inv; simpl accOf.
  - exists p, [c]. repeat split; auto. exists c, []. auto.
  - exists p, [c]. repeat split; auto. exists c. auto.
  - exists p, [c]. repeat split; auto. exists c. auto.
  - exists p, [c]. repeat split; auto. exists c. auto.
  - exists p, [c]. repeat split; auto. exists c. auto.
  - exists (p ++ [c]), []. rewrite app_nil_r. repeat split; auto.
    apply Covers_snoc; auto.
  - exists (p ++ [c]), []. rewrite app_nil_r. repeat split; auto.
    apply Covers_snoc; auto.
  - exists p, [c]. repeat split; auto. exists c, [].
    match goal with H : (char c =? _)%string = true |- _ =>
      apply String.eqb_eq in H end.
    repeat split; auto.
  - exists p, [c]. repeat split; auto. exists c, [].
    match goal with H : (char c =? _)%string = true |- _ =>
      apply String.eqb_eq in H end.
    repeat split; auto.
  - exists p, [c]. repeat split; auto.
    + exists c, []. auto.
    + simpl. now rewrite string_app_nil_r.
Qed.

Lemma Covers_push acc p0 c0 rest t :
  Covers acc p0 -> MS.isEOF t = false ->
  MS.start t = posOf c0 -> MS.end_ t = posOf (last rest c0) ->
  Covers (acc ++ [t]) (p0 ++ c0 :: rest).
Proof. intros. apply Covers_snoc; assumption. Qed.

Lemma snoc_assoc (p0 : list CharInfo) c0 rest c :
  (p0 ++ c0 :: rest) ++ [c] = p0 ++ c0 :: (rest ++ [c]).
Proof. now rewrite <- app_assoc. Qed.

(** One turn of the loop keeps the invariant, unless it ends in an error. *)
Lemma Inv_step (p : list CharInfo) (context : TokenizerContext)
  (c : CharInfo) :
  Inv p context -> single c ->
  isERROR (tokenizerMap context (char c) (cline c) (ccolumn c)) = true
  \/ Inv (p ++ [c]) (tokenizerMap context (char c) (cline c) (ccolumn c)).
Proof.
  intros (p0 & seg & -> & HC & HP) Hs.
  pose proof (single_not_empty c Hs) as Hne.
  destruct context; simpl in HC, HP; simpl tokenizerMap.
  - (* INITIAL *)
    subst seg. apply Covers_nil_inv in HC. subst p0. right.
    apply (Inv_default [] [] c); [constructor | assumption].
  - contradiction.
  - (* PREV_L *)
    destruct HP as (c0 & -> & ->). right. unfold tokenizePrevL. break_if.
    + exists (p0 ++ [c0; c]), []. rewrite app_nil_r, snoc_assoc.
      repeat split; simpl; auto. apply Covers_push; auto.
    + apply Inv_default; auto. apply Covers_push; auto.
  - (* PREV_R *)
    destruct HP as (c0 & -> & ->). right. unfold tokenizePrevR. break_if.
    + exists (p0 ++ [c0; c]), []. rewrite app_nil_r, snoc_assoc.
      repeat split; simpl; auto. apply Covers_push; auto.
    + apply Inv_default; auto. apply Covers_push; auto.
  - (* PREV_AND *)
    destruct HP as (c0 & -> & ->). unfold tokenizePrevAnd. break_if.
    + right. exists (p0 ++ [c0; c]), []. rewrite app_nil_r, snoc_assoc.
      repeat split; simpl; auto. apply Covers_push; auto.
    + left. reflexivity.
  - (* PREV_OR *)
    destruct HP as (c0 & -> & ->). right. unfold tokenizePrevOr. break_if.
    + exists (p0 ++ [c0; c]), []. rewrite app_nil_r, snoc_assoc.
      repeat split; simpl; auto. apply Covers_push; auto.
    + apply Inv_default; auto. apply Covers_push; auto.
  - (* DEFAULT *)
    subst seg. rewrite app_nil_r. right. apply Inv_default; auto.
  - (* SPACE *)
    destruct HP as (c0 & rest & -> & -> & ->). right.
    unfold tokenizeSpace. break_if.
    + exists p0, (c0 :: rest ++ [c]). rewrite snoc_assoc.
      repeat split; simpl; auto.
      exists c0, (rest ++ [c]). rewrite last_last. auto.
    + apply Inv_default; auto. apply Covers_push; auto.
  - (* WORD *)
    destruct HP as ((c0 & rest & -> & -> & ->) & ->). right.
    unfold tokenizeWord. break_if.
    + apply Inv_default; auto. apply Covers_push; auto.
    + exists p0, (c0 :: rest ++ [c]). rewrite snoc_assoc.
      repeat split; simpl accOf; auto.
      * exists c0, (rest ++ [c]). rewrite last_last. auto.
      * change (c0 :: rest ++ [c]) with ((c0 :: rest) ++ [c]).
        now rewrite textOf_snoc.
  - (* WORD_Q *)
    destruct HP as (q & body & -> & Hq & -> & -> & -> & Hb). right.
    unfold tokenizeWordQ. rewrite Hne. break_if.
    + exists (p0 ++ q :: body ++ [c]), []. rewrite app_nil_r, snoc_assoc.
      repeat split; simpl; auto. apply Covers_push; auto.
      simpl. now rewrite last_last.
    + exists p0, (q :: body ++ [c]). rewrite snoc_assoc.
      repeat split; simpl accOf; auto.
      exists q, (body ++ [c]). rewrite last_last, textOf_snoc.
      repeat split; auto. apply Forall_app. split; auto.
      constructor; [|constructor]. now apply String.eqb_neq.
  - (* WORD_DQ *)
    destruct HP as (q & body & -> & Hq & -> & -> & -> & Hb). right.
    unfold tokenizeWordDQ. rewrite Hne. break_if.
    + exists (p0 ++ q :: body ++ [c]), []. rewrite app_nil_r, snoc_assoc.
      repeat split; simpl; auto. apply Covers_push; auto.
      simpl. now rewrite last_last.
    + exists p0, (q :: body ++ [c]). rewrite snoc_assoc.
      repeat split; simpl accOf; auto.
      exists q, (body ++ [c]). rewrite last_last, textOf_snoc.
      repeat split; auto. apply Forall_app. split; auto.
      constructor; [|constructor]. now apply String.eqb_neq.
Qed.

Lemma Inv_INITIAL : Inv [] INITIAL.
Proof. exists [], []. repeat split. constructor. Qed.

Lemma Inv_not_ERROR p context : Inv p context -> isERROR context = false.
Proof.
  intros (p0 & seg & _ & _ & HP). destruct context; simpl in *; tauto.
Qed.

(** The loop keeps the invariant over any run of characters. *)
Lemma forLoop_Inv (q : list CharInfo) :
  forall p context,
    Forall single q -> Inv p context ->
    match forLoop context q with
    | inl _ => True
    | inr context' => Inv (p ++ q) context'
    end.
Proof.
  induction q as [|c q IH]; intros p context Hq HI.
  - simpl. now rewrite app_nil_r.
  - inversion Hq as [|? ? Hc Hq']; subst.
    destruct (Inv_step p context c HI Hc) as [HE | HI'].
    + simpl.
      destruct (tokenizerMap context (char c) (cline c) (ccolumn c));
        try discriminate; exact I.
    + specialize (IH (p ++ [c]) _ Hq' HI').
      rewrite <- app_assoc in IH. simpl in IH.
      pose proof (Inv_not_ERROR _ _ HI') as HnE. simpl.
      destruct (tokenizerMap context (char c) (cline c) (ccolumn c));
        try discriminate; exact IH.
Qed.

(** The step fed the sentinel: the pending piece becomes a token and
    [EOF] is pushed, or the pending piece is a lone [&] or an open quote. *)
Lemma Inv_finish (p : list CharInfo) (context : TokenizerContext) :
  Inv p context ->
  match finish context with
  | Tokens ts =>
      exists acc, ts = acc ++ [MS.EOF sentinel sentinel] /\ Covers acc p
  | Failure e =>
      (exists acc s, context = PREV_AND acc s
                     /\ e = UnrecognizedToken (-1) (-1))
      \/ (exists acc acc2 s en,
            (context = WORD_Q acc acc2 s en \/ context = WORD_DQ acc acc2 s en)
            /\ e = UnterminatedString s en)
  | Thrown _ => False
  end.
Proof.
  intros (p0 & seg & -> & HC & HP).
  destruct context; simpl in HC, HP.
  - subst seg. apply Covers_nil_inv in HC. subst p0.
    rewrite finish_INITIAL. exists []. split; [reflexivity | constructor].
  - contradiction.
  - destruct HP as (c0 & -> & ->). rewrite finish_PREV_L.
    eexists. split; [reflexivity|]. apply Covers_push; auto.
  - destruct HP as (c0 & -> & ->). rewrite finish_PREV_R.
    eexists. split; [reflexivity|]. apply Covers_push; auto.
  - rewrite finish_PREV_AND. left. eauto.
  - destruct HP as (c0 & -> & ->). rewrite finish_PREV_OR.
    eexists. split; [reflexivity|]. apply Covers_push; auto.
  - subst seg. rewrite app_nil_r, finish_DEFAULT. eauto.
  - destruct HP as (c0 & rest & -> & -> & ->). rewrite finish_SPACE.
    eexists. split; [reflexivity|]. apply Covers_push; auto.
  - destruct HP as ((c0 & rest & -> & -> & ->) & ->). rewrite finish_WORD.
    eexists. split; [reflexivity|]. apply Covers_push; auto.
  - rewrite finish_WORD_Q. right. eauto 8.
  - rewrite finish_WORD_DQ. right. eauto 8.
Qed.

(** The invariant at the end of the loop of [tokenize]. *)
Lemma tokenize_Inv (input : string) :
  match forLoop INITIAL (chars input) with
  | inl _ => True
  | inr context => Inv (chars input) context
  end.
Proof.
  apply (forLoop_Inv (chars input) [] INITIAL).
  - rewrite Ranged_chars_from. apply chars_from_single.
  - apply Inv_INITIAL.
Qed.

End RangedFacts.

(** ** Ranges and the text they cover *)

Section Coverage.

Lemma Position_leb_refl (p : Position) : Position_leb p p = true.
Proof.
  unfold Position_leb. rewrite Z.eqb_refl, Z.leb_refl.
  now destruct (line p <? line p).
Qed.

Lemma Position_lt_leb (p q : Position) :
  Position_lt p q -> Position_leb p q = true.
Proof.
  unfold Position_lt, Position_leb. intros [H | [H1 H2]].
  - apply Z.ltb_lt in H. now rewrite H.
  - rewrite H1, Z.eqb_refl. apply Z.lt_le_incl, Z.leb_le in H2.
    rewrite H2. now destruct (line q <? line q).
Qed.

Lemma Position_lt_not_leb (p q : Position) :
  Position_lt p q -> Position_leb q p = false.
Proof.
  unfold Position_lt, Position_leb. intros H.
  destruct (line q <? line p) eqn:E1; [apply Z.ltb_lt in E1; lia|].
  destruct (line q =? line p) eqn:E2; [|reflexivity].
  apply Z.eqb_eq in E2. simpl. apply Z.leb_gt. lia.
Qed.

Lemma StronglySorted_app_inv {A : Type} (R : A -> A -> Prop)
  (a b : list A) :
  StronglySorted R (a ++ b) ->
  StronglySorted R a /\ StronglySorted R b
  /\ Forall (fun x => Forall (R x) b) a.
Proof.
  induction a as [|x a IH]; simpl; intros H.
  - repeat split; [constructor | assumption | constructor].
  - apply StronglySorted_inv in H. destruct H as [H1 H2].
    apply Forall_app in H2. destruct H2 as [H2 H3].
    destruct (IH H1) as (Ha & Hb & Hab).
    repeat split; [constructor | | constructor]; assumption.
Qed.

Lemma last_cons {A : Type} (rest : list A) :
  forall c d, last (c :: rest) d = last rest c.
Proof.
  induction rest as [|r rs IH]; intros c d; [reflexivity|].
  change (last (c :: r :: rs) d) with (last (r :: rs) d).
  rewrite (IH r d), (IH r c). reflexivity.
Qed.

Lemma filter_all {A : Type} (f : A -> bool) (l : list A) :
  Forall (fun x => f x = true) l -> filter f l = l.
Proof.
  induction 1 as [|x l Hx _ IH]; simpl; [reflexivity|].
  now rewrite Hx, IH.
Qed.

Lemma filter_none {A : Type} (f : A -> bool) (l : list A) :
  Forall (fun x => f x = false) l -> filter f l = [].
Proof.
  induction 1 as [|x l Hx _ IH]; simpl; [reflexivity|].
  now rewrite Hx.
Qed.

Lemma snoc_last {A : Type} (c : A) (rest : list A) :
  c :: rest = removelast (c :: rest) ++ [last rest c].
Proof.
  rewrite <- (last_cons rest c c). apply app_removelast_last. discriminate.
Qed.

Lemma last_In {A : Type} (c : A) (rest : list A) :
  In (last rest c) (c :: rest).
Proof.
  rewrite (snoc_last c rest) at 1. apply in_or_app. right. now left.
Qed.

(** In an increasing run, nothing lies after its last element. *)
Lemma increasing_last (c : CharInfo) (rest : list CharInfo) :
  increasing (c :: rest) ->
  Forall (fun x => Position_leb (posOf x) (posOf (last rest c)) = true)
         (c :: rest).
Proof.
  intros H.
  pose proof (snoc_last c rest) as Hd.
  rewrite Hd in H. rewrite Hd at 1.
  apply StronglySorted_app_inv in H. destruct H as (_ & _ & H).
  apply Forall_app. split.
  - eapply Forall_impl; [|exact H]. simpl. intros x Hx.
    inversion Hx; subst. now apply Position_lt_leb.
  - constructor; [apply Position_leb_refl | constructor].
Qed.

(** In an increasing stream, the range from the first to the last element
    of a piece covers that piece and nothing else. *)
Lemma covered_piece (p rest q : list CharInfo) (c : CharInfo) :
  increasing (p ++ (c :: rest) ++ q) ->
  covered (p ++ (c :: rest) ++ q) (posOf c) (posOf (last rest c))
  = textOf (c :: rest).
Proof.
  intros H. unfold covered. f_equal.
  apply StronglySorted_app_inv in H. destruct H as (_ & H & Hp).
  apply StronglySorted_app_inv in H. destruct H as (Hseg & _ & Hq).
  rewrite !filter_app.
  rewrite (filter_none _ p), (filter_none _ q), (filter_all _ (c :: rest)).
  - now rewrite app_nil_r.
  - pose proof (increasing_last c rest Hseg) as Hl.
    apply StronglySorted_inv in Hseg. destruct Hseg as [_ Hc].
    unfold within. constructor.
    + rewrite Position_leb_refl. simpl. now inversion Hl.
    + inversion Hl as [|? ? _ Hl']; subst.
      rewrite Forall_forall in *. intros x Hx.
      rewrite (Position_lt_leb _ _ (Hc x Hx)). simpl. now apply Hl'.
  - pose proof (last_In c rest) as Hin.
    rewrite Forall_forall in Hq. specialize (Hq _ Hin).
    eapply Forall_impl; [|exact Hq]. simpl. intros x Hx.
    unfold within. rewrite (Position_lt_not_leb _ _ Hx).
    apply andb_false_r.
  - eapply Forall_impl; [|exact Hp]. simpl. intros x Hx.
    inversion Hx; subst. unfold within.
    match goal with H : Position_lt _ _ |- _ =>
      now rewrite (Position_lt_not_leb _ _ H) end.
Qed.

End Coverage.

(** ** The loop invariant of the earlier draft *)

Module IndexTsFacts.
Import IndexTs IndexTsSpec.

Ltac break_if :=
  match goal with
  | |- context [if ?b then _ else _] =>
      let E := fresh "E" in destruct b eqn:E
  end.

Lemma ix_finish_INITIAL : finish INITIAL = Tokens [eofSentinel].
Proof. reflexivity. Qed.

Lemma ix_finish_DEFAULT acc : finish (DEFAULT acc) = Tokens (acc ++ [eofSentinel]).
Proof. reflexivity. Qed.

Lemma ix_finish_SPACE acc : finish (SPACE acc) = Tokens (acc ++ [eofSentinel]).
Proof. reflexivity. Qed.

Lemma ix_finish_PREV_L acc s :
  finish (PREV_L acc s) = Tokens ((acc ++ [MS.L s s]) ++ [eofSentinel]).
Proof. reflexivity. Qed.

Lemma ix_finish_PREV_R acc s :
  finish (PREV_R acc s) = Tokens ((acc ++ [MS.R s s]) ++ [eofSentinel]).
Proof. reflexivity. Qed.

Lemma ix_finish_PREV_OR acc s :
  finish (PREV_OR acc s) = Tokens ((acc ++ [MS.PIPE s s]) ++ [eofSentinel]).
Proof. reflexivity. Qed.

Lemma ix_finish_PREV_AND acc s :
  finish (PREV_AND acc s) = Failure (UnrecognizedToken (-1) (-1)).
Proof. reflexivity. Qed.

Lemma ix_finish_WORD acc acc2 s e :
  finish (WORD acc acc2 s e)
  = Tokens ((acc ++ [MS.WORD acc2 s e]) ++ [eofSentinel]).
Proof. reflexivity. Qed.

Lemma ix_finish_WORD_Q acc acc2 s :
  finish (WORD_Q acc acc2 s) = Failure (UnterminatedString (-1) (-1)).
Proof. reflexivity. Qed.

Lemma ix_finish_WORD_DQ acc acc2 s :
  finish (WORD_DQ acc acc2 s) = Failure (UnterminatedString (-1) (-1)).
Proof. reflexivity. Qed.

Lemma ix_forLoop_app (p q : list CharInfo) :
  forall context,
    forLoop context (p ++ q)
    = match forLoop context p with
      | inl e => inl e
      | inr context' => forLoop context' q
      end.
Proof.
  induction p as [|c p IH]; intros context; simpl; [reflexivity|].
  destruct (tokenizerMap context (char c) (cline c) (ccolumn c));
    try reflexivity; apply IH.
Qed.

Lemma ix_forLoop_not_ERROR (p : list CharInfo) :
  forall context context',
    isERROR context = false ->
    forLoop context p = inr context' -> isERROR context' = false.
Proof.
  induction p as [|c p IH]; intros context context' Hc H; simpl in H.
  - congruence.
  - destruct (tokenizerMap context (char c) (cline c) (ccolumn c)) eqn:E;
      try discriminate; (eapply IH; [|exact H]; reflexivity).
Qed.

(** No [EOF] is pushed while characters of the input are read. *)
Lemma noEOF_default (char : string) (l c : Z) (acc : list MS.Token) :
  (char =? "")%string = false ->
  existsb MS.isEOF acc = false ->
  existsb MS.isEOF (accOf (tokenizeDefault char l c acc)) = false.
Proof.
  intros Hne H. unfold tokenizeDefault. cbv zeta.
  repeat break_if; try congruence; simpl accOf;
    rewrite ?existsb_app, ?H; reflexivity.
Qed.

Lemma noEOF_step (context : TokenizerContext) (c : CharInfo) :
  single c ->
  existsb MS.isEOF (accOf context) = false ->
  existsb MS.isEOF
    (accOf (tokenizerMap context (char c) (cline c) (ccolumn c))) = false.
Proof.
  intros Hs H. pose proof (single_not_empty c Hs) as Hne.
  destruct context; simpl in H; simpl tokenizerMap;
    unfold tokenizeInitial, tokenizeSpace, tokenizePrevL, tokenizePrevR,
      tokenizePrevAnd, tokenizePrevOr, tokenizeWord, tokenizeWordQ,
      tokenizeWordDQ;
    repeat break_if;
    try (apply noEOF_default; [assumption|]);
    simpl accOf; rewrite ?existsb_app, ?H; reflexivity.
Qed.

Lemma noEOF_forLoop (q : list CharInfo) :
  forall context context',
    Forall single q ->
    existsb MS.isEOF (accOf context) = false ->
    forLoop context q = inr context' ->
    existsb MS.isEOF (accOf context') = false.
Proof.
  induction q as [|c q IH]; intros context context' Hq H HL; simpl in HL.
  - congruence.
  - inversion Hq as [|? ? Hc Hq']; subst.
    pose proof (noEOF_step context c Hc H) as Hs.
    destruct (tokenizerMap context (char c) (cline c) (ccolumn c)) eqn:E;
      try discriminate; (eapply IH; [exact Hq' | exact Hs | exact HL]).
Qed.

(** The step fed the sentinel. *)
Lemma noEOF_finish (context : TokenizerContext) :
  isERROR context = false ->
  existsb MS.isEOF (accOf context) = false ->
  match finish context with
  | Tokens ts =>
      exists acc, ts = acc ++ [eofSentinel] /\ existsb MS.isEOF acc = false
  | Failure e => line e = -1 /\ column e = -1
  | Thrown _ => False
  end.
Proof.
  intros HE H. destruct context; simpl in H; try discriminate.
  - rewrite ix_finish_INITIAL. exists []. auto.
  - rewrite ix_finish_SPACE. eauto.
  - rewrite ix_finish_PREV_L. eexists. split; [reflexivity|].
    rewrite existsb_app, H. reflexivity.
  - rewrite ix_finish_PREV_R. eexists. split; [reflexivity|].
    rewrite existsb_app, H. reflexivity.
  - rewrite ix_finish_PREV_AND. auto.
  - rewrite ix_finish_PREV_OR. eexists. split; [reflexivity|].
    rewrite existsb_app, H. reflexivity.
  - rewrite ix_finish_DEFAULT. eauto.
  - rewrite ix_finish_WORD. eexists. split; [reflexivity|].
    rewrite existsb_app, H. reflexivity.
  - rewrite ix_finish_WORD_Q. auto.
  - rewrite ix_finish_WORD_DQ. auto.
Qed.

(** The outcome of [tokenize] in the earlier draft. *)
Lemma tokenize_shape (input : string) :
  match tokenize input with
  | Tokens ts =>
      exists acc, ts = acc ++ [eofSentinel] /\ existsb MS.isEOF acc = false
  | Failure _ => True
  | Thrown _ => False
  end.
Proof.
  unfold tokenize.
  destruct (forLoop INITIAL (chars input)) as [e | context] eqn:HL;
    [exact I|].
  pose proof (ix_forLoop_not_ERROR _ INITIAL _ eq_refl HL) as HE.
  pose proof (noEOF_forLoop _ INITIAL _ (IndexTs_chars_single input)
                eq_refl HL) as HN.
  pose proof (noEOF_finish context HE HN) as HF.
  destruct (finish context); auto.
Qed.

End IndexTsFacts.

(** ** The drafts on the inputs of the specification and of the source *)

Section Examples.

Example tokenize_empty :
  Ranged.tokenize "" = Ranged.Tokens [Ranged.MS.EOF sentinel sentinel].
Proof. reflexivity. Qed.

Example tokenize_pipeline :
  Ranged.tokenize "ls -al | grep foo"
  = Ranged.Tokens
      [Ranged.MS.WORD "ls" (at_ 1 0) (at_ 1 1);
       Ranged.MS.SPACE (at_ 1 2) (at_ 1 2);
       Ranged.MS.WORD "-al" (at_ 1 3) (at_ 1 5);
       Ranged.MS.SPACE (at_ 1 6) (at_ 1 6);
       Ranged.MS.PIPE (at_ 1 7) (at_ 1 7);
       Ranged.MS.SPACE (at_ 1 8) (at_ 1 8);
       Ranged.MS.WORD "grep" (at_ 1 9) (at_ 1 12);
       Ranged.MS.SPACE (at_ 1 13) (at_ 1 13);
       Ranged.MS.WORD "foo" (at_ 1 14) (at_ 1 16);
       Ranged.MS.EOF sentinel sentinel].
Proof. reflexivity. Qed.

Example tokenize_and :
  Ranged.tokenize "a && b"
  = Ranged.Tokens
      [Ranged.MS.WORD "a" (at_ 1 0) (at_ 1 0);
       Ranged.MS.SPACE (at_ 1 1) (at_ 1 1);
       Ranged.MS.AND (at_ 1 2) (at_ 1 3);
       Ranged.MS.SPACE (at_ 1 4) (at_ 1 4);
       Ranged.MS.WORD "b" (at_ 1 5) (at_ 1 5);
       Ranged.MS.EOF sentinel sentinel].
Proof. reflexivity. Qed.

(** A backslash inside quotes is an ordinary character. *)
Example tokenize_quoted_backslash :
  Ranged.tokenize "'a\nb'"
  = Ranged.Tokens
      [Ranged.MS.WORD_Q "a\nb" (at_ 1 0) (at_ 1 5);
       Ranged.MS.EOF sentinel sentinel].
Proof. reflexivity. Qed.

(** The two calls at the end of the later draft. *)
Example printToken_first :
  Ranged.tokenize
    ("ls -al |" ++ String LF (String TAB "grep \\.c &&& cat test.c"))
  = Ranged.Failure (Ranged.UnrecognizedToken 2 14).
Proof. reflexivity. Qed.

Example printToken_second :
  Ranged.tokenize ("echo 'Hello world!" ++ DQ)
  = Ranged.Failure (Ranged.UnterminatedString (at_ 1 5) (at_ 1 18)).
Proof. reflexivity. Qed.

(** The earlier draft drops newlines and whitespace runs. *)
Example IndexTs_tokenize_two_lines :
  IndexTs.tokenize ("a " ++ String LF "b")
  = IndexTs.Tokens
      [IndexTs.MS.WORD "a" (at_ 1 0) (at_ 1 0);
       IndexTs.MS.WORD "b" (at_ 2 0) (at_ 2 0);
       IndexTs.MS.EOF sentinel sentinel].
Proof. reflexivity. Qed.

End Examples.

(** ** Properties of the two drafts *)

Lemma textBetween_covered (s e : Position) (input : string) :
  forall l c,
    textBetween s e l c input = covered (chars_from l c input) s e.
Proof.
  induction input as [|a rest IH]; intros l c; [reflexivity|].
  cbn [textBetween chars_from]. cbv zeta. unfold covered in *.
  cbn [filter]. unfold within at 1. unfold posOf at 1 2.
  cbn [cline ccolumn].
  destruct (Position_leb s {| line := l; column := c |}
            && Position_leb {| line := l; column := c |} e);
    cbn [textOf fold_right char String.append];
    destruct (Ascii.eqb a LF); now rewrite IH.
Qed.

Lemma Ranged_tokenText (input : string) (t : Ranged.MS.Token) :
  tokenText input t = RangedSpec.sourceText input t.
Proof.
  unfold tokenText, RangedSpec.sourceText.
  now rewrite textBetween_covered, Ranged_chars_from.
Qed.

Lemma Covers_text (acc : list Ranged.MS.Token) (p : list CharInfo) :
  RangedSpec.Covers acc p ->
  forall q, increasing (p ++ q) ->
    joinAll (map (fun t => covered (p ++ q) (Ranged.MS.start t)
                             (Ranged.MS.end_ t)) acc)
    = textOf p.
Proof.
  induction 1 as [|acc p t c rest HC IH Ht Hs He]; intros q Hq;
    [reflexivity|].
  rewrite map_app. cbn [map]. rewrite joinAll_snoc.
  rewrite <- app_assoc in Hq |- *.
  rewrite (IH _ Hq), Hs, He.
  change (c :: rest ++ q) with ((c :: rest) ++ q) in Hq |- *.
  rewrite (covered_piece p rest q c Hq).
  symmetry. apply textOf_app.
Qed.

Lemma filter_noEOF (acc : list Ranged.MS.Token) :
  existsb Ranged.MS.isEOF acc = false ->
  filter (fun t => negb (Ranged.MS.isEOF t)) acc = acc.
Proof.
  induction acc as [|t acc IH]; simpl; [reflexivity|].
  intros H. apply orb_false_elim in H. destruct H as [Ht Hacc].
  rewrite Ht. simpl. now rewrite IH.
Qed.

(** C7.  Whenever the later draft's [tokenize] succeeds, the pieces of
    the input lying between the start and the end of its tokens other
    than [EOF] (lines from 1, columns from 0, a newline last on its
    line), taken in output order, concatenate to the input. *)
Theorem tokenize_ranges_rebuild_input (input : string)
  (ts : list Ranged.MS.Token) :
  Ranged.tokenize input = Ranged.Tokens ts ->
  joinAll (map (tokenText input)
               (filter (fun t => negb (Ranged.MS.isEOF t)) ts))
  = input.
Proof.
  intros H. unfold Ranged.tokenize in H.
  pose proof (RangedFacts.tokenize_Inv input) as HI.
  destruct (Ranged.forLoop Ranged.INITIAL (Ranged.chars input))
    as [e | context]; [discriminate|].
  apply RangedFacts.Inv_finish in HI. rewrite H in HI.
  destruct HI as (acc & -> & HC).
  rewrite filter_app. simpl. rewrite app_nil_r.
  rewrite (filter_noEOF acc (RangedFacts.Covers_noEOF _ _ HC)).
  rewrite (map_ext _ _ (Ranged_tokenText input)).
  unfold RangedSpec.sourceText.
  pose proof (Covers_text acc (Ranged.chars input) HC []) as HT.
  rewrite app_nil_r in HT. rewrite HT.
  - rewrite Ranged_chars_from. apply chars_from_text.
  - rewrite Ranged_chars_from. apply chars_from_increasing.
Qed.

Lemma tokenize_ranges_rebuild_input_witness :
  let input := ("a |" ++ String LF (String TAB "b  c"))%string in
  Ranged.tokenize input
  = Ranged.Tokens
      [Ranged.MS.WORD "a" (at_ 1 0) (at_ 1 0);
       Ranged.MS.SPACE (at_ 1 1) (at_ 1 1);
       Ranged.MS.PIPE (at_ 1 2) (at_ 1 2);
       Ranged.MS.SPACE (at_ 1 3) (at_ 2 0);
       Ranged.MS.WORD "b" (at_ 2 1) (at_ 2 1);
       Ranged.MS.SPACE (at_ 2 2) (at_ 2 3);
       Ranged.MS.WORD "c" (at_ 2 4) (at_ 2 4);
       Ranged.MS.EOF sentinel sentinel]
  /\ joinAll
       [textBetween (at_ 1 0) (at_ 1 0) 1 0 input;
        textBetween (at_ 1 1) (at_ 1 1) 1 0 input;
        textBetween (at_ 1 2) (at_ 1 2) 1 0 input;
        textBetween (at_ 1 3) (at_ 2 0) 1 0 input;
        textBetween (at_ 2 1) (at_ 2 1) 1 0 input;
        textBetween (at_ 2 2) (at_ 2 3) 1 0 input;
        textBetween (at_ 2 4) (at_ 2 4) 1 0 input]
     = input.
Proof.
  intros input.
  assert (H : Ranged.tokenize input
              = Ranged.Tokens
                  [Ranged.MS.WORD "a" (at_ 1 0) (at_ 1 0);
                   Ranged.MS.SPACE (at_ 1 1) (at_ 1 1);
                   Ranged.MS.PIPE (at_ 1 2) (at_ 1 2);
                   Ranged.MS.SPACE (at_ 1 3) (at_ 2 0);
                   Ranged.MS.WORD "b" (at_ 2 1) (at_ 2 1);
                   Ranged.MS.SPACE (at_ 2 2) (at_ 2 3);
                   Ranged.MS.WORD "c" (at_ 2 4) (at_ 2 4);
                   Ranged.MS.EOF sentinel sentinel]) by reflexivity.
  split; [exact H|].
  exact (tokenize_ranges_rebuild_input input _ H).
Defined.

(** C1.  In both drafts [tokenize] is a total function with exactly two
    kinds of result: a token list made of tokens other than [EOF] followed
    by one [EOF], or one [TokenizeError].  The result type is a sum, so it
    is never both. *)
Theorem tokenize_tokens_or_error (input : string) :
  ((exists acc,
       Ranged.tokenize input
       = Ranged.Tokens (acc ++ [Ranged.MS.EOF sentinel sentinel])
       /\ existsb Ranged.MS.isEOF acc = false)
   \/ (exists e, Ranged.tokenize input = Ranged.Failure e))
  /\ ((exists acc,
          IndexTs.tokenize input
          = IndexTs.Tokens (acc ++ [IndexTs.MS.EOF sentinel sentinel])
          /\ existsb IndexTs.MS.isEOF acc = false)
      \/ (exists e, IndexTs.tokenize input = IndexTs.Failure e)).
Proof.
  split.
  - unfold Ranged.tokenize.
    pose proof (RangedFacts.tokenize_Inv input) as HI.
    destruct (Ranged.forLoop Ranged.INITIAL (Ranged.chars input))
      as [e | context]; [right; eauto|].
    apply RangedFacts.Inv_finish in HI.
    destruct (Ranged.finish context) as [ts | e | w];
      [left | right; eauto | contradiction].
    destruct HI as (acc & -> & HC). exists acc. split; [reflexivity|].
    eapply RangedFacts.Covers_noEOF; eassumption.
  - pose proof (IndexTsFacts.tokenize_shape input) as H.
    destruct (IndexTs.tokenize input) as [ts | e | w];
      [left | right; eauto | contradiction].
    destruct H as (acc & -> & H). exists acc. auto.
Qed.

(** C8.  In both drafts the step fed the end-of-input sentinel leaves the
    automaton in [ERROR] or in [DEFAULT], whatever the context the loop was
    left with, and [tokenize] then returns that error or that [DEFAULT]'s
    token list: the [throw] after the final step is never reached. *)
Theorem final_step_error_or_default (input : string) :
  (forall context,
      let next := Ranged.tokenizerMap context "" (-1) (-1) in
      RangedSpec.isERROR next || RangedSpec.isDEFAULT next = true)
  /\ RangedSpec.isThrown (Ranged.tokenize input) = false
  /\ (forall context,
         let next := IndexTs.tokenizerMap context "" (-1) (-1) in
         IndexTsSpec.isERROR next || IndexTsSpec.isDEFAULT next = true)
  /\ IndexTsSpec.isThrown (IndexTs.tokenize input) = false.
Proof.
  assert (HR : forall context,
             RangedSpec.isERROR (Ranged.tokenizerMap context "" (-1) (-1))
             || RangedSpec.isDEFAULT
                  (Ranged.tokenizerMap context "" (-1) (-1)) = true)
    by (intros []; reflexivity).
  assert (HX : forall context,
             IndexTsSpec.isERROR (IndexTs.tokenizerMap context "" (-1) (-1))
             || IndexTsSpec.isDEFAULT
                  (IndexTs.tokenizerMap context "" (-1) (-1)) = true)
    by (intros []; reflexivity).
  repeat split; try assumption.
  - unfold Ranged.tokenize.
    destruct (Ranged.forLoop _ _) as [e | context]; [reflexivity|].
    unfold Ranged.finish. specialize (HR context).
    destruct (Ranged.tokenizerMap context "" (-1) (-1));
      try discriminate; reflexivity.
  - unfold IndexTs.tokenize.
    destruct (IndexTs.forLoop _ _) as [e | context]; [reflexivity|].
    unfold IndexTs.finish. specialize (HX context).
    destruct (IndexTs.tokenizerMap context "" (-1) (-1));
      try discriminate; reflexivity.
Qed.

(** C3, as stated, fails: the [EOF] token of the empty input is at line -1,
    column -1 and not at line 1, column 0, and the [EOF] token of ["a"] is
    there too and not just past the last character, at line 1, column 1. *)
Lemma eof_position_counterexample :
  Ranged.tokenize "" = Ranged.Tokens [Ranged.MS.EOF sentinel sentinel]
  /\ pastEnd 1 0 "" = {| line := 1; column := 0 |}
  /\ Ranged.tokenize "a"
     = Ranged.Tokens
         [Ranged.MS.WORD "a" {| line := 1; column := 0 |}
            {| line := 1; column := 0 |};
          Ranged.MS.EOF sentinel sentinel]
  /\ pastEnd 1 0 "a" = {| line := 1; column := 1 |}
  /\ ~ (forall input ts,
           Ranged.tokenize input = Ranged.Tokens ts ->
           exists acc,
             ts = acc ++ [Ranged.MS.EOF (pastEnd 1 0 input)
                            (pastEnd 1 0 input)]).
Proof.
  repeat split; try reflexivity.
  intros H. destruct (H "" _ eq_refl) as (acc & Hacc).
  change [Ranged.MS.EOF sentinel sentinel]
    with ([] ++ [Ranged.MS.EOF sentinel sentinel]) in Hacc.
  apply app_inj_tail in Hacc. destruct Hacc as [_ Hacc]. discriminate.
Qed.

(** C3, amended.  Whenever [tokenize] succeeds, in either draft, the token
    list is a list of tokens other than [EOF] followed by one [EOF] token
    whose range is the zero-width point at line -1, column -1, the
    coordinates of the end-of-input sentinel, for every input. *)
Theorem eof_is_last_at_sentinel (input : string) :
  (forall ts,
      Ranged.tokenize input = Ranged.Tokens ts ->
      exists acc,
        ts = acc ++ [Ranged.MS.EOF sentinel sentinel]
        /\ existsb Ranged.MS.isEOF acc = false)
  /\ (forall ts,
         IndexTs.tokenize input = IndexTs.Tokens ts ->
         exists acc,
           ts = acc ++ [IndexTs.MS.EOF sentinel sentinel]
           /\ existsb IndexTs.MS.isEOF acc = false).
Proof.
  split; intros ts H.
  - unfold Ranged.tokenize in H.
    pose proof (RangedFacts.tokenize_Inv input) as HI.
    destruct (Ranged.forLoop Ranged.INITIAL (Ranged.chars input))
      as [e | context]; [discriminate|].
    apply RangedFacts.Inv_finish in HI. rewrite H in HI.
    destruct HI as (acc & -> & HC). exists acc. split; [reflexivity|].
    eapply RangedFacts.Covers_noEOF; eassumption.
  - pose proof (IndexTsFacts.tokenize_shape input) as HS.
    rewrite H in HS. exact HS.
Qed.

Lemma eof_is_last_at_sentinel_witness :
  exists ts acc,
    Ranged.tokenize "a<<b" = Ranged.Tokens ts
    /\ ts = acc ++ [Ranged.MS.EOF sentinel sentinel]
    /\ existsb Ranged.MS.isEOF acc = false.
Proof.
  destruct (proj1 (eof_is_last_at_sentinel "a<<b") _ eq_refl)
    as (acc & H1 & H2).
  eexists. exists acc. split; [reflexivity|]. split; assumption.
Defined.

Lemma last_app_cons {A : Type} (p : list A) :
  forall (c : A) (rest : list A) (d : A),
    last (p ++ c :: rest) d = last rest c.
Proof.
  induction p as [|x p IH]; intros c rest d.
  - apply last_cons.
  - change ((x :: p) ++ c :: rest) with (x :: (p ++ c :: rest)).
    rewrite last_cons. apply IH.
Qed.

Lemma Inv_quote_open (quote : string) (stream seg p0 : list CharInfo)
  (acc2 : string) (s e : Position) :
  stream = p0 ++ seg ->
  RangedSpec.quoted quote seg acc2 s e ->
  RangedSpec.openQuoteAt quote stream s e.
Proof.
  intros -> (q & body & -> & Hq & -> & -> & _ & Hb).
  exists p0, q, body. repeat split; auto.
  now rewrite last_app_cons.
Qed.

(** C4.  In the later draft, when the loop is left inside a single- or
    double-quote state, [tokenize] returns the error whose message is
    [Unterminated string], whose [start] is the position of the opening
    quote, the last quote character of the input, and whose [end] is the
    position of the last character of the input, lines counted from 1 and
    columns from 0 along the input.  For ["echo 'hi"] the error runs from
    line 1, column 5, the quote, to line 1, column 7, the final [i]. *)
Theorem unterminated_string_range :
  (forall input context,
      Ranged.forLoop Ranged.INITIAL (Ranged.chars input) = inr context ->
      (forall acc acc2 s e,
          context = Ranged.WORD_Q acc acc2 s e ->
          Ranged.tokenize input
          = Ranged.Failure
              {| Ranged.message := "Unterminated string";
                 Ranged.start := s; Ranged.end_ := e |}
          /\ RangedSpec.openQuoteAt "'" (chars_from 1 0 input) s e)
      /\ (forall acc acc2 s e,
             context = Ranged.WORD_DQ acc acc2 s e ->
             Ranged.tokenize input
             = Ranged.Failure
                 {| Ranged.message := "Unterminated string";
                    Ranged.start := s; Ranged.end_ := e |}
             /\ RangedSpec.openQuoteAt DQ (chars_from 1 0 input) s e))
  /\ Ranged.tokenize "echo 'hi"
     = Ranged.Failure
         {| Ranged.message := "Unterminated string";
            Ranged.start := {| line := 1; column := 5 |};
            Ranged.end_ := {| line := 1; column := 7 |} |}.
Proof.
  split; [|reflexivity].
  intros input context HL.
  pose proof (RangedFacts.tokenize_Inv input) as HI. rewrite HL in HI.
  destruct HI as (p0 & seg & Hp & _ & HP).
  rewrite Ranged_chars_from in Hp.
  split; intros acc acc2 s e ->; (split;
    [unfold Ranged.tokenize; rewrite HL; reflexivity|]);
    simpl in HP; eapply Inv_quote_open; eassumption.
Qed.

Lemma unterminated_string_range_witness :
  Ranged.forLoop Ranged.INITIAL (Ranged.chars "echo 'hi")
  = inr (Ranged.WORD_Q
           [Ranged.MS.WORD "echo" (at_ 1 0) (at_ 1 3);
            Ranged.MS.SPACE (at_ 1 4) (at_ 1 4)]
           "hi" (at_ 1 5) (at_ 1 7))
  /\ Ranged.tokenize "echo 'hi"
     = Ranged.Failure
         {| Ranged.message := "Unterminated string";
            Ranged.start := at_ 1 5; Ranged.end_ := at_ 1 7 |}
  /\ RangedSpec.openQuoteAt "'" (chars_from 1 0 "echo 'hi")
       (at_ 1 5) (at_ 1 7).
Proof.
  split; [reflexivity|].
  exact (proj1 (proj1 unterminated_string_range "echo 'hi" _ eq_refl)
           _ _ _ _ eq_refl).
Defined.

(** C5.  In the later draft, [PREV_L], [PREV_R] and [PREV_OR] are entered
    at a [<], [>] or [|] with the position of that character.  There, the
    matching character pushes [LL], [RR] or [OR] from that position to its
    own; any other character, the end-of-input sentinel included, pushes
    [L], [R] or [PIPE] with the range of the lone character alone and is
    then handled by [tokenizeDefault] itself, so the loop goes on as from
    [DEFAULT] on the same character.  ["a<<b"] gives [WORD a], [LL],
    [WORD b], [EOF]. *)
Theorem lookahead_operator_states :
  (forall l c acc,
      Ranged.tokenizeDefault "<" l c acc
      = Ranged.PREV_L acc {| line := l; column := c |}
      /\ Ranged.tokenizeDefault ">" l c acc
         = Ranged.PREV_R acc {| line := l; column := c |}
      /\ Ranged.tokenizeDefault "|" l c acc
         = Ranged.PREV_OR acc {| line := l; column := c |})
  /\ (forall l c acc s,
         Ranged.tokenizePrevL "<" l c acc s
         = Ranged.DEFAULT
             (acc ++ [Ranged.MS.LL s {| line := l; column := c |}])
         /\ Ranged.tokenizePrevR ">" l c acc s
            = Ranged.DEFAULT
                (acc ++ [Ranged.MS.RR s {| line := l; column := c |}])
         /\ Ranged.tokenizePrevOr "|" l c acc s
            = Ranged.DEFAULT
                (acc ++ [Ranged.MS.OR s {| line := l; column := c |}]))
  /\ (forall ch l c acc s,
         (ch <> "<" ->
          Ranged.tokenizePrevL ch l c acc s
          = Ranged.tokenizeDefault ch l c (acc ++ [Ranged.MS.L s s]))
         /\ (ch <> ">" ->
             Ranged.tokenizePrevR ch l c acc s
             = Ranged.tokenizeDefault ch l c (acc ++ [Ranged.MS.R s s]))
         /\ (ch <> "|" ->
             Ranged.tokenizePrevOr ch l c acc s
             = Ranged.tokenizeDefault ch l c (acc ++ [Ranged.MS.PIPE s s])))
  /\ (forall x rest acc s,
         (char x <> "<" ->
          Ranged.forLoop (Ranged.PREV_L acc s) (x :: rest)
          = Ranged.forLoop (Ranged.DEFAULT (acc ++ [Ranged.MS.L s s]))
              (x :: rest))
         /\ (char x <> ">" ->
             Ranged.forLoop (Ranged.PREV_R acc s) (x :: rest)
             = Ranged.forLoop (Ranged.DEFAULT (acc ++ [Ranged.MS.R s s]))
                 (x :: rest))
         /\ (char x <> "|" ->
             Ranged.forLoop (Ranged.PREV_OR acc s) (x :: rest)
             = Ranged.forLoop (Ranged.DEFAULT (acc ++ [Ranged.MS.PIPE s s]))
                 (x :: rest)))
  /\ Ranged.tokenize "a<<b"
     = Ranged.Tokens
         [Ranged.MS.WORD "a" {| line := 1; column := 0 |}
            {| line := 1; column := 0 |};
          Ranged.MS.LL {| line := 1; column := 1 |}
            {| line := 1; column := 2 |};
          Ranged.MS.WORD "b" {| line := 1; column := 3 |}
            {| line := 1; column := 3 |};
          Ranged.MS.EOF sentinel sentinel].
Proof.
  assert (Hstep : forall ch l c acc s,
             (ch <> "<" ->
              Ranged.tokenizePrevL ch l c acc s
              = Ranged.tokenizeDefault ch l c (acc ++ [Ranged.MS.L s s]))
             /\ (ch <> ">" ->
                 Ranged.tokenizePrevR ch l c acc s
                 = Ranged.tokenizeDefault ch l c (acc ++ [Ranged.MS.R s s]))
             /\ (ch <> "|" ->
                 Ranged.tokenizePrevOr ch l c acc s
                 = Ranged.tokenizeDefault ch l c
                     (acc ++ [Ranged.MS.PIPE s s]))).
  { intros ch l c acc s.
    unfold Ranged.tokenizePrevL, Ranged.tokenizePrevR, Ranged.tokenizePrevOr.
    repeat split; intros H; apply String.eqb_neq in H; now rewrite H. }
  repeat split; try reflexivity; try (intros; now apply Hstep).
  - intros H. simpl. now rewrite (proj1 (Hstep _ _ _ acc s) H).
  - intros H. simpl. now rewrite (proj1 (proj2 (Hstep _ _ _ acc s)) H).
  - intros H. simpl. now rewrite (proj2 (proj2 (Hstep _ _ _ acc s)) H).
Qed.

Lemma lookahead_operator_states_witness :
  "b" <> "<"
  /\ Ranged.tokenizePrevL "b" 1 2 [] {| line := 1; column := 1 |}
     = Ranged.WORD
         [Ranged.MS.L {| line := 1; column := 1 |}
            {| line := 1; column := 1 |}]
         "b" {| line := 1; column := 2 |} {| line := 1; column := 2 |}.
Proof.
  assert (H : "b" <> "<") by discriminate.
  split; [exact H|].
  destruct lookahead_operator_states as (_ & _ & H3 & _).
  rewrite (proj1 (H3 "b" 1 2 [] {| line := 1; column := 1 |}) H).
  reflexivity.
Defined.

(** After an input that tokenizes, a [&] enters the lone-[&] state. *)
Lemma Ranged_amp_enters (context : Ranged.TokenizerContext)
  (ts : list Ranged.MS.Token) (l c : Z) :
  Ranged.finish context = Ranged.Tokens ts ->
  exists acc,
    Ranged.tokenizerMap context "&" l c
    = Ranged.PREV_AND acc {| line := l; column := c |}.
Proof.
  destruct context; intros H; try discriminate; eexists; reflexivity.
Qed.

Lemma IndexTs_amp_enters (context : IndexTs.TokenizerContext)
  (ts : list IndexTs.MS.Token) (l c : Z) :
  IndexTs.finish context = IndexTs.Tokens ts ->
  exists acc,
    IndexTs.tokenizerMap context "&" l c
    = IndexTs.PREV_AND acc {| line := l; column := c |}.
Proof.
  destruct context; intros H; try discriminate; eexists; reflexivity.
Qed.

Lemma Ranged_forLoop_amp (pre : string) (ts : list Ranged.MS.Token)
  (rest : list CharInfo) :
  Ranged.tokenize pre = Ranged.Tokens ts ->
  exists acc,
    Ranged.forLoop Ranged.INITIAL
      (Ranged.chars pre
       ++ {| char := "&"; cline := line (pastEnd 1 0 pre);
             ccolumn := column (pastEnd 1 0 pre) |} :: rest)
    = Ranged.forLoop (Ranged.PREV_AND acc (pastEnd 1 0 pre)) rest.
Proof.
  unfold Ranged.tokenize. intros H. rewrite RangedFacts.forLoop_app.
  destruct (Ranged.forLoop Ranged.INITIAL (Ranged.chars pre))
    as [e | context]; [discriminate|].
  destruct (Ranged_amp_enters context ts (line (pastEnd 1 0 pre))
              (column (pastEnd 1 0 pre)) H) as (acc & Hacc).
  exists acc. cbn [Ranged.forLoop char cline ccolumn]. rewrite Hacc.
  now destruct (pastEnd 1 0 pre).
Qed.

Lemma IndexTs_forLoop_amp (pre : string) (ts : list IndexTs.MS.Token)
  (rest : list CharInfo) :
  IndexTs.tokenize pre = IndexTs.Tokens ts ->
  exists acc,
    IndexTs.forLoop IndexTs.INITIAL
      (IndexTs.chars pre
       ++ {| char := "&"; cline := line (pastEnd 1 0 pre);
             ccolumn := column (pastEnd 1 0 pre) |} :: rest)
    = IndexTs.forLoop (IndexTs.PREV_AND acc (pastEnd 1 0 pre)) rest.
Proof.
  unfold IndexTs.tokenize. intros H. rewrite IndexTsFacts.ix_forLoop_app.
  destruct (IndexTs.forLoop IndexTs.INITIAL (IndexTs.chars pre))
    as [e | context]; [discriminate|].
  destruct (IndexTs_amp_enters context ts (line (pastEnd 1 0 pre))
              (column (pastEnd 1 0 pre)) H) as (acc & Hacc).
  exists acc. cbn [IndexTs.forLoop char cline ccolumn]. rewrite Hacc.
  now destruct (pastEnd 1 0 pre).
Qed.

(** The stream of an input that goes on with [&] after [pre]. *)
Lemma Ranged_chars_amp (pre rest : string) :
  Ranged.chars (pre ++ String "&" rest)
  = Ranged.chars pre
    ++ {| char := "&"; cline := line (pastEnd 1 0 pre);
          ccolumn := column (pastEnd 1 0 pre) |}
    :: chars_from (line (pastEnd 1 0 pre)) (column (pastEnd 1 0 pre) + 1)
         rest.
Proof. rewrite !Ranged_chars_from, chars_from_app. reflexivity. Qed.

Lemma IndexTs_chars_amp (pre rest : string) :
  IndexTs.chars (pre ++ String "&" rest)
  = IndexTs.chars pre
    ++ {| char := "&"; cline := line (pastEnd 1 0 pre);
          ccolumn := column (pastEnd 1 0 pre) |}
    :: chars_skipping (line (pastEnd 1 0 pre))
         (column (pastEnd 1 0 pre) + 1) rest.
Proof. rewrite !IndexTs_chars_skipping, chars_skipping_app. reflexivity. Qed.

Lemma pastEnd_amp (pre : string) :
  pastEnd 1 0 (pre ++ "&")
  = {| line := line (pastEnd 1 0 pre);
       column := column (pastEnd 1 0 pre) + 1 |}.
Proof. rewrite pastEnd_app. reflexivity. Qed.

Lemma single_neq_eqb (a b : ascii) :
  a <> b -> (String a "" =? String b "")%string = false.
Proof.
  intros H. apply String.eqb_neq. intros Heq. inversion Heq. contradiction.
Qed.

(** C6, on the earlier draft.  The stream of [src/index.ts] leaves the
    newlines out, although its handlers list the newline among the
    whitespace characters they test for.  So a [&], a newline and a [&]
    reach the automaton as two [&] in a row and give one [AND] token from
    line 1 to line 2 and no error; and after ["a &"] and a newline the
    error is reported at the [b] of the next line, not at the newline that
    follows the [&].  The later draft, which puts the newlines back in the
    stream, returns [UnrecognizedToken] at the newline for both inputs. *)
Theorem lone_ampersand_newline_lost_in_index_ts :
  (forall a l c acc s,
      IndexTs.tokenizePrevAnd (String a "") l c acc s
      = if Ascii.eqb a "&"
        then IndexTs.DEFAULT
               (acc ++ [IndexTs.MS.AND s {| line := l; column := c |}])
        else IndexTs.ERROR
               {| IndexTs.message := "Unrecognized token";
                  IndexTs.line := l; IndexTs.column := c |})
  /\ includes whitespace (String LF "") = true
  /\ IndexTs.chars ("&" ++ String LF "&")
     = [{| char := "&"; cline := 1; ccolumn := 0 |};
        {| char := "&"; cline := 2; ccolumn := 0 |}]
  /\ IndexTs.tokenize ("&" ++ String LF "&")
     = IndexTs.Tokens
         [IndexTs.MS.AND {| line := 1; column := 0 |}
            {| line := 2; column := 0 |};
          IndexTs.MS.EOF sentinel sentinel]
  /\ Ranged.tokenize ("&" ++ String LF "&")
     = Ranged.Failure
         {| Ranged.message := "Unrecognized token";
            Ranged.start := {| line := 1; column := 1 |};
            Ranged.end_ := {| line := 1; column := 1 |} |}
  /\ IndexTs.tokenize ("a &" ++ String LF "b")
     = IndexTs.Failure
         {| IndexTs.message := "Unrecognized token";
            IndexTs.line := 2; IndexTs.column := 0 |}
  /\ Ranged.tokenize ("a &" ++ String LF "b")
     = Ranged.Failure
         {| Ranged.message := "Unrecognized token";
            Ranged.start := {| line := 1; column := 3 |};
            Ranged.end_ := {| line := 1; column := 3 |} |}.
Proof.
  repeat split; try reflexivity.
  intros a l c acc s. unfold IndexTs.tokenizePrevAnd.
  destruct (Ascii.eqb a "&") eqn:E.
  - apply Ascii.eqb_eq in E. subst a. reflexivity.
  - replace (String a "" =? "&")%string with false; [reflexivity|].
    symmetry. apply String.eqb_neq. intros H. inversion H; subst.
    rewrite Ascii.eqb_refl in E. discriminate.
Qed.

(** C9, as stated, fails in the later draft: the error produced at the end
    of the input ["'"] is [UnterminatedString] with the range of the quote
    state, line 1, column 0, not the coordinates -1, -1 of the sentinel. *)
Lemma end_of_input_error_counterexample :
  Ranged.forLoop Ranged.INITIAL (Ranged.chars "'")
  = inr (Ranged.WORD_Q [] "" {| line := 1; column := 0 |}
           {| line := 1; column := 0 |})
  /\ Ranged.tokenize "'"
     = Ranged.Failure
         {| Ranged.message := "Unterminated string";
            Ranged.start := {| line := 1; column := 0 |};
            Ranged.end_ := {| line := 1; column := 0 |} |}
  /\ ~ (forall input context e,
           Ranged.forLoop Ranged.INITIAL (Ranged.chars input) = inr context ->
           Ranged.finish context = Ranged.Failure e ->
           Ranged.start e = sentinel /\ Ranged.end_ e = sentinel).
Proof.
  repeat split; try reflexivity.
  intros H. destruct (H "'" _ _ eq_refl eq_refl) as [H1 _]. discriminate.
Qed.

(** C9, amended.  The end-of-input step is called with line -1, column -1,
    so an [UnrecognizedToken] produced there carries these coordinates: in
    both drafts, an input that tokenizes, followed by a lone [&], gives
    [UnrecognizedToken] at -1, -1, and so does every input on which the
    loop is left in the state entered at a lone [&].  In the earlier draft
    every error produced at end-of-input carries them; in the later draft
    the other error produced there, [UnterminatedString], carries the range
    kept in the quote state. *)
Theorem end_of_input_error_coordinates (input : string) :
  (forall ts,
      Ranged.tokenize input = Ranged.Tokens ts ->
      Ranged.tokenize (input ++ "&")
      = Ranged.Failure
          {| Ranged.message := "Unrecognized token";
            Ranged.start := sentinel; Ranged.end_ := sentinel |})
  /\ (forall ts,
         IndexTs.tokenize input = IndexTs.Tokens ts ->
         IndexTs.tokenize (input ++ "&")
         = IndexTs.Failure
            {| IndexTs.message := "Unrecognized token";
               IndexTs.line := -1; IndexTs.column := -1 |})
  /\ (forall acc s,
      Ranged.forLoop Ranged.INITIAL (Ranged.chars input)
      = inr (Ranged.PREV_AND acc s) ->
      Ranged.tokenize input
      = Ranged.Failure
          {| Ranged.message := "Unrecognized token";
            Ranged.start := sentinel; Ranged.end_ := sentinel |})
  /\ (forall acc s,
         IndexTs.forLoop IndexTs.INITIAL (IndexTs.chars input)
         = inr (IndexTs.PREV_AND acc s) ->
         IndexTs.tokenize input
         = IndexTs.Failure
            {| IndexTs.message := "Unrecognized token";
               IndexTs.line := -1; IndexTs.column := -1 |})
  /\ (forall context e,
         IndexTs.forLoop IndexTs.INITIAL (IndexTs.chars input) = inr context ->
         IndexTs.finish context = IndexTs.Failure e ->
         IndexTs.line e = -1 /\ IndexTs.column e = -1)
  /\ (forall context e,
         Ranged.forLoop Ranged.INITIAL (Ranged.chars input) = inr context ->
         Ranged.finish context = Ranged.Failure e ->
         e = {| Ranged.message := "Unrecognized token";
            Ranged.start := sentinel; Ranged.end_ := sentinel |}
         \/ exists acc acc2 s en,
             (context = Ranged.WORD_Q acc acc2 s en
              \/ context = Ranged.WORD_DQ acc acc2 s en)
             /\ e = {| Ranged.message := "Unterminated string";
                       Ranged.start := s; Ranged.end_ := en |}).
Proof.
  split; [|split; [|split; [|split; [|split]]]].
  - intros ts H. unfold Ranged.tokenize.
    change (input ++ "&")%string with (input ++ String "&" "")%string.
    rewrite Ranged_chars_amp.
    destruct (Ranged_forLoop_amp input ts
                (chars_from (line (pastEnd 1 0 input))
                   (column (pastEnd 1 0 input) + 1) "") H)
      as (acc & ->).
    reflexivity.
  - intros ts H. unfold IndexTs.tokenize.
    change (input ++ "&")%string with (input ++ String "&" "")%string.
    rewrite IndexTs_chars_amp.
    destruct (IndexTs_forLoop_amp input ts
                (chars_skipping (line (pastEnd 1 0 input))
                   (column (pastEnd 1 0 input) + 1) "") H)
      as (acc & ->).
    reflexivity.
  - intros acc s HL. unfold Ranged.tokenize. now rewrite HL.
  - intros acc s HL. unfold IndexTs.tokenize. now rewrite HL.
  - intros context e HL HF.
    pose proof (IndexTsFacts.ix_forLoop_not_ERROR _ IndexTs.INITIAL _
                  eq_refl HL) as HE.
    destruct context; try discriminate; simpl in HF;
      inversion HF; split; reflexivity.
  - intros context e HL HF.
    pose proof (RangedFacts.tokenize_Inv input) as HI. rewrite HL in HI.
    apply RangedFacts.Inv_finish in HI. rewrite HF in HI.
    destruct HI as [(acc & s & _ & ->) | H]; [now left | now right].
Qed.

Lemma end_of_input_error_coordinates_witness :
  Ranged.tokenize "a "
  = Ranged.Tokens
      [Ranged.MS.WORD "a" (at_ 1 0) (at_ 1 0);
       Ranged.MS.SPACE (at_ 1 1) (at_ 1 1);
       Ranged.MS.EOF sentinel sentinel]
  /\ Ranged.tokenize ("a " ++ "&")
     = Ranged.Failure
          {| Ranged.message := "Unrecognized token";
            Ranged.start := sentinel; Ranged.end_ := sentinel |}.
Proof.
  split; [reflexivity|].
  exact (proj1 (end_of_input_error_coordinates "a ") _ eq_refl).
Defined.

(** C10.  Empty quoted strings are accepted by both drafts: two single
    quotes give a [WORD_Q] token with empty body and then [EOF], two double
    quotes a [WORD_DQ] token with empty body and then [EOF]. *)
Theorem empty_quoted_strings :
  Ranged.tokenize "''"
  = Ranged.Tokens
      [Ranged.MS.WORD_Q "" {| line := 1; column := 0 |}
         {| line := 1; column := 1 |};
       Ranged.MS.EOF sentinel sentinel]
  /\ Ranged.tokenize (DQ ++ DQ)
     = Ranged.Tokens
         [Ranged.MS.WORD_DQ "" {| line := 1; column := 0 |}
            {| line := 1; column := 1 |};
          Ranged.MS.EOF sentinel sentinel]
  /\ IndexTs.tokenize "''"
     = IndexTs.Tokens
         [IndexTs.MS.WORD_Q "" {| line := 1; column := 0 |}
            {| line := 1; column := 1 |};
          IndexTs.MS.EOF sentinel sentinel]
  /\ IndexTs.tokenize (DQ ++ DQ)
     = IndexTs.Tokens
         [IndexTs.MS.WORD_DQ "" {| line := 1; column := 0 |}
            {| line := 1; column := 1 |};
          IndexTs.MS.EOF sentinel sentinel].
Proof. repeat split; reflexivity. Qed.

(** The later draft stays in the double-quote state until the closing
    quote: from that state, the loop over a body without double quote
    followed by a double quote ends in [DEFAULT] with one [WORD_DQ] token
    pushed, whose body is the accumulated text followed by that body. *)
Lemma Ranged_forLoop_double_quoted (body : string) :
  forall l c acc acc2 st e,
    occurs DQUOTE body = false ->
    Ranged.forLoop (Ranged.WORD_DQ acc acc2 st e)
      (chars_from l c (body ++ DQ))
    = inr (Ranged.DEFAULT
             (acc ++ [Ranged.MS.WORD_DQ (acc2 ++ body) st
                        (pastEnd l c body)])).
Proof.
  induction body as [|a r IH]; intros l c acc acc2 st e H.
  - simpl. now rewrite string_app_nil_r.
  - simpl in H. apply orb_false_elim in H. destruct H as [Ha Hr].
    assert (Hq : (String a "" =? DQ)%string = false).
    { apply String.eqb_neq. intros Heq. inversion Heq; subst.
      discriminate. }
    change (String a r ++ DQ)%string with (String a (r ++ DQ)%string).
    cbn [chars_from Ranged.forLoop char cline ccolumn Ranged.tokenizerMap].
    unfold Ranged.tokenizeWordDQ.
    change (String a "" =? "")%string with false. cbv iota.
    fold DQ. rewrite Hq.
    replace (acc2 ++ String a r)%string
      with ((acc2 ++ String a "") ++ r)%string
      by (now rewrite <- string_app_assoc).
    cbn [pastEnd]. destruct (Ascii.eqb a LF); apply IH; assumption.
Qed.

(** In the later draft, a body without double quote between two double
    quotes is one [WORD_DQ] token with that body, from the opening quote
    to the closing one, and then [EOF]. *)
Lemma Ranged_tokenize_double_quoted (body : string) :
  occurs DQUOTE body = false ->
  Ranged.tokenize (DQ ++ body ++ DQ)
  = Ranged.Tokens
      [Ranged.MS.WORD_DQ body {| line := 1; column := 0 |}
         (pastEnd 1 1 body);
       Ranged.MS.EOF sentinel sentinel].
Proof.
  intros H. unfold Ranged.tokenize. rewrite Ranged_chars_from.
  change (DQ ++ body ++ DQ)%string with (String DQUOTE (body ++ DQ)%string).
  cbn [chars_from Ranged.forLoop char cline ccolumn].
  change (Ascii.eqb DQUOTE LF) with false. cbv iota.
  change (Ranged.tokenizerMap Ranged.INITIAL (String DQUOTE "") 1 0)
    with (Ranged.WORD_DQ [] "" {| line := 1; column := 0 |}
            {| line := 1; column := 0 |}).
  cbv iota. change (0 + 1) with 1.
  rewrite (Ranged_forLoop_double_quoted body _ _ _ _ _ _ H).
  reflexivity.
Qed.

(** C2, on the earlier draft.  In the double-quote state of
    [src/index.ts], a character other than the double quote is accumulated
    but the context returned is the single-quote one, so the closing double
    quote is accumulated too and end-of-input is reached inside a quote:
    [tokenize] of a double quote, [a] and a double quote returns
    [UnterminatedString] and no [WORD_DQ] token, where the later draft
    returns the [WORD_DQ] token with body [a]. *)
Theorem double_quote_state_lost_in_index_ts :
  (forall a l c acc acc2 s,
      IndexTs.tokenizeWordDQ (String a "") l c acc acc2 s
      = if Ascii.eqb a DQUOTE
        then IndexTs.DEFAULT
               (acc ++ [IndexTs.MS.WORD_DQ acc2 s
                          {| line := l; column := c |}])
        else IndexTs.WORD_Q acc (acc2 ++ String a "") s)
  /\ IndexTs.forLoop IndexTs.INITIAL (IndexTs.chars (DQ ++ "a" ++ DQ))
     = inr (IndexTs.WORD_Q [] (String "a" DQ) {| line := 1; column := 0 |})
  /\ IndexTs.tokenize (DQ ++ "a" ++ DQ)
     = IndexTs.Failure
         {| IndexTs.message := "Unterminated string";
            IndexTs.line := -1; IndexTs.column := -1 |}
  /\ Ranged.tokenize (DQ ++ "a" ++ DQ)
     = Ranged.Tokens
         [Ranged.MS.WORD_DQ "a" {| line := 1; column := 0 |}
            {| line := 1; column := 2 |};
          Ranged.MS.EOF sentinel sentinel].
Proof.
  repeat split; try reflexivity.
  intros a l c acc acc2 s. unfold IndexTs.tokenizeWordDQ.
  change (String a "" =? "")%string with false. cbv iota.
  destruct (Ascii.eqb a DQUOTE) eqn:E.
  - apply Ascii.eqb_eq in E. subst a. reflexivity.
  - replace (String a "" =? DQ)%string with false;
      [reflexivity|].
    symmetry. apply String.eqb_neq. intros H. inversion H; subst.
    rewrite Ascii.eqb_refl in E. discriminate.
Qed.

(** In [src/index.ts] the double-quote state never holds accumulated
    text, so no [WORD_DQ] token with a body is ever pushed. *)
Lemma IndexTs_dqInv_default (ch : string) (l c : Z)
  (acc : list IndexTs.MS.Token) :
  forallb IndexTsSpec.dqBodyEmpty acc = true ->
  IndexTsSpec.dqInv (IndexTs.tokenizeDefault ch l c acc) = true.
Proof.
  intros H. unfold IndexTs.tokenizeDefault, IndexTsSpec.dqInv. cbv zeta.
  repeat IndexTsFacts.break_if; simpl;
    rewrite ?forallb_app, ?H; reflexivity.
Qed.

Lemma IndexTs_dqInv_step (context : IndexTs.TokenizerContext)
  (ch : string) (l c : Z) :
  IndexTsSpec.dqInv context = true ->
  IndexTsSpec.dqInv (IndexTs.tokenizerMap context ch l c) = true.
Proof.
  unfold IndexTsSpec.dqInv at 1. intros H.
  apply andb_prop in H. destruct H as [H Hd].
  destruct context; simpl in H; simpl IndexTs.tokenizerMap;
    unfold IndexTs.tokenizeInitial, IndexTs.tokenizeSpace,
      IndexTs.tokenizePrevL, IndexTs.tokenizePrevR,
      IndexTs.tokenizePrevAnd, IndexTs.tokenizePrevOr,
      IndexTs.tokenizeWord, IndexTs.tokenizeWordQ, IndexTs.tokenizeWordDQ;
    repeat IndexTsFacts.break_if;
    try (apply IndexTs_dqInv_default);
    unfold IndexTsSpec.dqInv; simpl;
    rewrite ?forallb_app, ?H; simpl; rewrite ?Hd; reflexivity.
Qed.

Lemma IndexTs_dqInv_forLoop (q : list CharInfo) :
  forall context context',
    IndexTsSpec.dqInv context = true ->
    IndexTs.forLoop context q = inr context' ->
    IndexTsSpec.dqInv context' = true.
Proof.
  induction q as [|x q IH]; intros context context' H HL; simpl in HL.
  - congruence.
  - pose proof (IndexTs_dqInv_step context (char x) (cline x) (ccolumn x) H)
      as Hs.
    destruct (IndexTs.tokenizerMap context (char x) (cline x) (ccolumn x));
      try discriminate; (eapply IH; [exact Hs | exact HL]).
Qed.

Lemma IndexTs_word_dq_body_empty (input : string)
  (ts : list IndexTs.MS.Token) :
  IndexTs.tokenize input = IndexTs.Tokens ts ->
  forallb IndexTsSpec.dqBodyEmpty ts = true.
Proof.
  unfold IndexTs.tokenize. intros H.
  destruct (IndexTs.forLoop IndexTs.INITIAL (IndexTs.chars input))
    as [e | context] eqn:HL; [discriminate|].
  pose proof (IndexTs_dqInv_forLoop _ IndexTs.INITIAL _ eq_refl HL) as HI.
  pose proof (IndexTs_dqInv_step context "" (-1) (-1) HI) as HF.
  unfold IndexTs.finish in H.
  destruct (IndexTs.tokenizerMap context "" (-1) (-1));
    try discriminate.
  inversion H; subst. unfold IndexTsSpec.dqInv in HF. simpl in HF.
  now rewrite andb_true_r in HF.
Qed.

(** ** Characters and the handlers on one character *)

Section Characters.

Lemma single_eqb (a b : ascii) :
  (String a "" =? String b "")%string = Ascii.eqb a b.
Proof. cbn [String.eqb]. apply andb_true_r. Qed.

Lemma prefix_empty (s : string) : String.prefix "" s = true.
Proof. now destruct s. Qed.

Lemma includes_single (s : string) (a : ascii) :
  includes s (String a "") = occurs a s.
Proof.
  induction s as [|b s IH]; [reflexivity|].
  cbn [includes occurs String.prefix]. rewrite IH.
  destruct (ascii_dec a b) as [-> | Hne].
  - now rewrite prefix_empty, Ascii.eqb_refl.
  - apply not_eq_sym in Hne. apply Ascii.eqb_neq in Hne. now rewrite Hne.
Qed.

Lemma occurs_app (a : ascii) (s t : string) :
  occurs a (s ++ t) = occurs a s || occurs a t.
Proof.
  induction s as [|b s IH]; simpl; [reflexivity|].
  now rewrite IH, orb_assoc.
Qed.

Lemma allChars_app (P : ascii -> bool) (s t : string) :
  allChars P (s ++ t) = allChars P s && allChars P t.
Proof.
  induction s as [|b s IH]; simpl; [reflexivity|].
  now rewrite IH, andb_assoc.
Qed.

Lemma startsWith_app (P : ascii -> bool) (s t : string) :
  startsWith P s = true -> startsWith P (s ++ t) = true.
Proof. destruct s; simpl; [discriminate | auto]. Qed.

Lemma whitespaceRun_single (a : ascii) :
  isWhitespace a = true -> whitespaceRun (String a "") = true.
Proof. intros H. unfold whitespaceRun. simpl. now rewrite H. Qed.

Lemma whitespaceRun_snoc (txt : string) (a : ascii) :
  whitespaceRun txt = true -> isWhitespace a = true ->
  whitespaceRun (txt ++ String a "") = true.
Proof.
  unfold whitespaceRun. intros H Ha. apply andb_prop in H.
  destruct H as [Hne Hall]. rewrite allChars_app, Hall. simpl.
  rewrite Ha. destruct txt; [discriminate | reflexivity].
Qed.

Lemma isDelimiter_cases (a : ascii) :
  isDelimiter a
  = isWhitespace a
    || (Ascii.eqb a "<" || Ascii.eqb a ">" || Ascii.eqb a "("
        || Ascii.eqb a ")" || Ascii.eqb a "&" || Ascii.eqb a "|").
Proof.
  unfold isDelimiter, delimiters. rewrite occurs_app.
  fold (isWhitespace a). f_equal. cbn [occurs].
  rewrite !(Ascii.eqb_sym _ a), orb_false_r, !orb_assoc. reflexivity.
Qed.

Lemma wordBody_single (a : ascii) :
  isDelimiter a = false -> isQuote a = false ->
  wordBody (String a "") = true.
Proof. intros Hd Hq. unfold wordBody. simpl. now rewrite Hd, Hq. Qed.

Lemma wordBody_snoc (txt : string) (a : ascii) :
  wordBody txt = true -> isDelimiter a = false ->
  wordBody (txt ++ String a "") = true.
Proof.
  unfold wordBody. intros H Ha. apply andb_prop in H.
  destruct H as [Hs Hall].
  rewrite (startsWith_app _ txt _ Hs), allChars_app, Hall. simpl.
  now rewrite Ha.
Qed.

(** The handlers of the later draft on a character of the input. *)
Lemma Ranged_tokenizeDefault_single (a : ascii) (l c : Z)
  (acc : list Ranged.MS.Token) :
  Ranged.tokenizeDefault (String a "") l c acc
  = if isWhitespace a then Ranged.SPACE acc (at_ l c) (at_ l c)
    else if Ascii.eqb a "<" then Ranged.PREV_L acc (at_ l c)
    else if Ascii.eqb a ">" then Ranged.PREV_R acc (at_ l c)
    else if Ascii.eqb a "&" then Ranged.PREV_AND acc (at_ l c)
    else if Ascii.eqb a "|" then Ranged.PREV_OR acc (at_ l c)
    else if Ascii.eqb a "("
         then Ranged.DEFAULT
                (acc ++ [Ranged.MS.LPAREN (at_ l c) (at_ l c)])
    else if Ascii.eqb a ")"
         then Ranged.DEFAULT
                (acc ++ [Ranged.MS.RPAREN (at_ l c) (at_ l c)])
    else if Ascii.eqb a DQUOTE
         then Ranged.WORD_DQ acc "" (at_ l c) (at_ l c)
    else if Ascii.eqb a "'" then Ranged.WORD_Q acc "" (at_ l c) (at_ l c)
    else Ranged.WORD acc (String a "") (at_ l c) (at_ l c).
Proof.
  unfold Ranged.tokenizeDefault, DQ.
  rewrite !single_eqb, includes_single. reflexivity.
Qed.

Lemma Ranged_tokenizeSpace_single (a : ascii) (l c : Z)
  (acc : list Ranged.MS.Token) (s e : Position) :
  Ranged.tokenizeSpace (String a "") l c acc s e
  = if isWhitespace a then Ranged.SPACE acc s (at_ l c)
    else Ranged.tokenizeDefault (String a "") l c
           (acc ++ [Ranged.MS.SPACE s e]).
Proof.
  unfold Ranged.tokenizeSpace. rewrite includes_single. reflexivity.
Qed.

Lemma Ranged_tokenizeWord_single (a : ascii) (l c : Z)
  (acc : list Ranged.MS.Token) (acc2 : string) (s e : Position) :
  Ranged.tokenizeWord (String a "") l c acc acc2 s e
  = if isDelimiter a
    then Ranged.tokenizeDefault (String a "") l c
           (acc ++ [Ranged.MS.WORD acc2 s e])
    else Ranged.WORD acc (acc2 ++ String a "") s (at_ l c).
Proof.
  unfold Ranged.tokenizeWord. rewrite includes_single. reflexivity.
Qed.

Lemma Ranged_tokenizeWordQ_single (a : ascii) (l c : Z)
  (acc : list Ranged.MS.Token) (acc2 : string) (s e : Position) :
  Ranged.tokenizeWordQ (String a "") l c acc acc2 s e
  = if Ascii.eqb a "'"
    then Ranged.DEFAULT (acc ++ [Ranged.MS.WORD_Q acc2 s (at_ l c)])
    else Ranged.WORD_Q acc (acc2 ++ String a "") s (at_ l c).
Proof.
  unfold Ranged.tokenizeWordQ. rewrite single_eqb. reflexivity.
Qed.

Lemma Ranged_tokenizeWordDQ_single (a : ascii) (l c : Z)
  (acc : list Ranged.MS.Token) (acc2 : string) (s e : Position) :
  Ranged.tokenizeWordDQ (String a "") l c acc acc2 s e
  = if Ascii.eqb a DQUOTE
    then Ranged.DEFAULT (acc ++ [Ranged.MS.WORD_DQ acc2 s (at_ l c)])
    else Ranged.WORD_DQ acc (acc2 ++ String a "") s (at_ l c).
Proof.
  unfold Ranged.tokenizeWordDQ, DQ. rewrite single_eqb. reflexivity.
Qed.

End Characters.

(** ** The loop invariant of the later draft, with the texts *)

Module RangedLexFacts.
Import Ranged RangedSpec RangedLex.

Ltac break_if :=
  match goal with
  | |- context [if ?b then _ else _] =>
      let E := fresh "E" in destruct b eqn:E
  end.

Ltac is_char a H :=
  apply Ascii.eqb_eq in H; subst a.

Lemma Lexed_Covers acc p : Lexed acc p -> Covers acc p.
Proof.
  induction 1 as [|acc p t c rest _ IH Hs He Ht]; [constructor|].
  apply Covers_snoc; auto. now destruct t.
Qed.

Lemma Lexed_nil_inv (p : list CharInfo) : Lexed [] p -> p = [].
Proof. intros H. apply Lexed_Covers in H. now apply RangedFacts.Covers_nil_inv. Qed.

Lemma Lexed_push acc p0 c0 rest t :
  Lexed acc p0 ->
  MS.start t = posOf c0 -> MS.end_ t = posOf (last rest c0) ->
  lexemeOK t (textOf (c0 :: rest)) = true ->
  Lexed (acc ++ [t]) (p0 ++ c0 :: rest).
Proof. intros. apply Lexed_snoc; assumption. Qed.

Lemma textOf_one (c : CharInfo) (a : ascii) :
  char c = String a "" -> textOf [c] = String a "".
Proof. intros H. simpl. now rewrite H. Qed.

Lemma textOf_two (c0 c : CharInfo) (a b : ascii) :
  char c0 = String a "" -> char c = String b "" ->
  textOf [c0; c] = String a (String b "").
Proof. intros H0 H. simpl. now rewrite H0, H. Qed.

Lemma LexInv_default (p : list CharInfo) (acc : list MS.Token)
  (c : CharInfo) :
  Lexed acc p -> single c ->
  LexInv (p ++ [c]) (tokenizeDefault (char c) (cline c) (ccolumn c) acc).
Proof.
  intros HL [a Ha]. rewrite Ha, Ranged_tokenizeDefault_single.
  unfold at_. rewrite posOf_eta.
  repeat break_if; unfold LexInv; simpl accOf.
  - exists p, [c]. repeat split; auto.
    + exists c, []. auto.
    + rewrite (textOf_one c a Ha). now apply whitespaceRun_single.
  - is_char a E0. exists p, [c]. repeat split; auto. exists c. auto.
  - is_char a E1. exists p, [c]. repeat split; auto. exists c. auto.
  - is_char a E2. exists p, [c]. repeat split; auto. exists c. auto.
  - is_char a E3. exists p, [c]. repeat split; auto. exists c. auto.
  - is_char a E4. exists (p ++ [c]), []. rewrite app_nil_r.
    repeat split; auto. apply Lexed_push; auto.
    now rewrite (textOf_one c _ Ha).
  - is_char a E5. exists (p ++ [c]), []. rewrite app_nil_r.
    repeat split; auto. apply Lexed_push; auto.
    now rewrite (textOf_one c _ Ha).
  - is_char a E6. exists p, [c]. repeat split; auto.
    exists c, []. repeat split; auto.
  - is_char a E7. exists p, [c]. repeat split; auto.
    exists c, []. repeat split; auto.
  - exists p, [c]. repeat split; auto.
    + exists c, []. auto.
    + now rewrite (textOf_one c a Ha).
    + apply wordBody_single.
      * rewrite isDelimiter_cases, E, E0, E1, E2, E3, E4, E5. reflexivity.
      * unfold isQuote. now rewrite E6, E7.
Qed.

Lemma lexeme_two (c0 c : CharInfo) (a b : ascii) (op : string) :
  char c0 = String a "" -> char c = String b "" ->
  op = String a (String b "") ->
  (textOf [c0; c] =? op)%string = true.
Proof.
  intros H0 H ->. rewrite (textOf_two c0 c a b H0 H). apply String.eqb_refl.
Qed.

(** One turn of the loop: it fails at a character other than [&] in the
    lone-[&] state, or it keeps the invariant. *)
Lemma LexInv_step (p : list CharInfo) (context : TokenizerContext)
  (c : CharInfo) :
  LexInv p context -> single c ->
  (exists p0 c0,
      p = p0 ++ [c0] /\ char c0 = "&" /\ char c <> "&"
      /\ tokenizerMap context (char c) (cline c) (ccolumn c)
         = ERROR (UnrecognizedToken (cline c) (ccolumn c)))
  \/ LexInv (p ++ [c]) (tokenizerMap context (char c) (cline c) (ccolumn c)).
Proof.
  intros (p0 & seg & -> & HL & HP) Hs.
  destruct context; simpl in HL, HP; simpl tokenizerMap.
  - (* INITIAL *)
    subst seg. apply Lexed_nil_inv in HL. subst p0. right.
    apply (LexInv_default [] [] c); [constructor | assumption].
  - contradiction.
  - (* PREV_L *)
    destruct HP as (c0 & -> & -> & H0). right. unfold tokenizePrevL.
    break_if.
    + apply String.eqb_eq in E.
      exists (p0 ++ [c0; c]), []. rewrite app_nil_r, RangedFacts.snoc_assoc.
      repeat split; simpl accOf; auto. apply Lexed_push; auto.
      apply (lexeme_two c0 c "<" "<"); auto.
    + apply LexInv_default; auto. apply Lexed_push; auto.
      simpl. now rewrite H0.
  - (* PREV_R *)
    destruct HP as (c0 & -> & -> & H0). right. unfold tokenizePrevR.
    break_if.
    + apply String.eqb_eq in E.
      exists (p0 ++ [c0; c]), []. rewrite app_nil_r, RangedFacts.snoc_assoc.
      repeat split; simpl accOf; auto. apply Lexed_push; auto.
      apply (lexeme_two c0 c ">" ">"); auto.
    + apply LexInv_default; auto. apply Lexed_push; auto.
      simpl. now rewrite H0.
  - (* PREV_AND *)
    destruct HP as (c0 & -> & -> & H0). unfold tokenizePrevAnd. break_if.
    + right. apply String.eqb_eq in E.
      exists (p0 ++ [c0; c]), []. rewrite app_nil_r, RangedFacts.snoc_assoc.
      repeat split; simpl accOf; auto. apply Lexed_push; auto.
      apply (lexeme_two c0 c "&" "&"); auto.
    + left. apply String.eqb_neq in E. exists p0, c0. auto.
  - (* PREV_OR *)
    destruct HP as (c0 & -> & -> & H0). right. unfold tokenizePrevOr.
    break_if.
    + apply String.eqb_eq in E.
      exists (p0 ++ [c0; c]), []. rewrite app_nil_r, RangedFacts.snoc_assoc.
      repeat split; simpl accOf; auto. apply Lexed_push; auto.
      apply (lexeme_two c0 c "|" "|"); auto.
    + apply LexInv_default; auto. apply Lexed_push; auto.
      simpl. now rewrite H0.
  - (* DEFAULT *)
    subst seg. rewrite app_nil_r. right. apply LexInv_default; auto.
  - (* SPACE *)
    destruct HP as ((c0 & rest & -> & -> & ->) & Hw). right.
    pose proof Hs as [a Ha]. rewrite Ha, Ranged_tokenizeSpace_single.
    break_if.
    + exists p0, (c0 :: rest ++ [c]). rewrite RangedFacts.snoc_assoc.
      unfold at_. rewrite posOf_eta.
      repeat split; simpl accOf; auto.
      * exists c0, (rest ++ [c]). rewrite last_last. auto.
      * change (c0 :: rest ++ [c]) with ((c0 :: rest) ++ [c]).
        rewrite textOf_snoc, Ha. now apply whitespaceRun_snoc.
    + rewrite <- Ha. apply LexInv_default; auto. apply Lexed_push; auto.
  - (* WORD *)
    destruct HP as ((c0 & rest & -> & -> & ->) & -> & Hw). right.
    pose proof Hs as [a Ha]. rewrite Ha, Ranged_tokenizeWord_single.
    break_if.
    + rewrite <- Ha. apply LexInv_default; auto. apply Lexed_push; auto.
      cbn [lexemeOK]. now rewrite String.eqb_refl, Hw.
    + exists p0, (c0 :: rest ++ [c]). rewrite RangedFacts.snoc_assoc.
      unfold at_. rewrite posOf_eta.
      change (c0 :: rest ++ [c]) with ((c0 :: rest) ++ [c]).
      repeat split; simpl accOf; auto.
      * exists c0, (rest ++ [c]). rewrite last_last. auto.
      * now rewrite textOf_snoc, Ha.
      * now apply wordBody_snoc.
  - (* WORD_Q *)
    destruct HP as (q & body & -> & Hq & -> & -> & -> & Hb). right.
    pose proof Hs as [a Ha]. rewrite Ha, Ranged_tokenizeWordQ_single.
    unfold at_. rewrite posOf_eta. break_if.
    + is_char a E.
      exists (p0 ++ q :: body ++ [c]), [].
      rewrite app_nil_r, RangedFacts.snoc_assoc.
      repeat split; simpl accOf; auto. apply Lexed_push; auto.
      * simpl. now rewrite last_last.
      * cbn [lexemeOK]. rewrite Hb.
        change (q :: body ++ [c]) with ([q] ++ body ++ [c]).
        rewrite !textOf_app, (textOf_one q _ Hq), (textOf_one c _ Ha).
        now rewrite String.eqb_refl.
    + exists p0, (q :: body ++ [c]). rewrite RangedFacts.snoc_assoc.
      repeat split; simpl accOf; auto.
      exists q, (body ++ [c]). rewrite last_last, textOf_snoc, Ha.
      repeat split; auto. rewrite occurs_app, Hb. simpl.
      now rewrite E.
  - (* WORD_DQ *)
    destruct HP as (q & body & -> & Hq & -> & -> & -> & Hb). right.
    pose proof Hs as [a Ha]. rewrite Ha, Ranged_tokenizeWordDQ_single.
    unfold at_. rewrite posOf_eta. break_if.
    + is_char a E.
      exists (p0 ++ q :: body ++ [c]), [].
      rewrite app_nil_r, RangedFacts.snoc_assoc.
      repeat split; simpl accOf; auto. apply Lexed_push; auto.
      * simpl. now rewrite last_last.
      * cbn [lexemeOK]. rewrite Hb.
        change (q :: body ++ [c]) with ([q] ++ body ++ [c]).
        rewrite !textOf_app, (textOf_one q _ Hq), (textOf_one c _ Ha).
        now rewrite String.eqb_refl.
    + exists p0, (q :: body ++ [c]). rewrite RangedFacts.snoc_assoc.
      repeat split; simpl accOf; auto.
      exists q, (body ++ [c]). rewrite last_last, textOf_snoc, Ha.
      repeat split; auto. rewrite occurs_app, Hb. simpl.
      now rewrite E.
Qed.

Lemma LexInv_INITIAL : LexInv [] INITIAL.
Proof. exists [], []. repeat split. constructor. Qed.

Lemma LexInv_not_ERROR p context :
  LexInv p context -> isERROR context = false.
Proof.
  intros (p0 & seg & _ & _ & HP). destruct context; simpl in *; tauto.
Qed.

(** The loop over a run of characters: it fails at a character other than
    [&] that follows a [&], or it keeps the invariant. *)
Lemma forLoop_LexInv (q : list CharInfo) :
  forall p context,
    Forall single q -> LexInv p context ->
    match forLoop context q with
    | inl e =>
        exists p' c0 x rest,
          p ++ q = p' ++ c0 :: x :: rest /\ char c0 = "&" /\ char x <> "&"
          /\ e = UnrecognizedToken (cline x) (ccolumn x)
    | inr context' => LexInv (p ++ q) context'
    end.
Proof.
  induction q as [|c q IH]; intros p context Hq HI.
  - simpl. now rewrite app_nil_r.
  - inversion Hq as [|? ? Hc Hq']; subst.
    destruct (LexInv_step p context c HI Hc)
      as [(p0 & c0 & -> & H0 & Hx & HE) | HI'].
    + simpl. rewrite HE. exists p0, c0, c, q.
      rewrite <- app_assoc. auto.
    + specialize (IH (p ++ [c]) _ Hq' HI').
      rewrite <- app_assoc in IH. simpl in IH.
      pose proof (LexInv_not_ERROR _ _ HI') as HnE. simpl.
      destruct (tokenizerMap context (char c) (cline c) (ccolumn c));
        try discriminate; exact IH.
Qed.

Lemma occurs_textOf (a : ascii) (body : list CharInfo) :
  occurs a (textOf body) = false ->
  Forall (fun c => char c <> String a "") body.
Proof.
  induction body as [|c body IH]; intros H; constructor.
  - simpl in H. rewrite occurs_app in H. apply orb_false_elim in H.
    destruct H as [H _]. intros Hc. rewrite Hc in H. simpl in H.
    now rewrite Ascii.eqb_refl in H.
  - apply IH. simpl in H. rewrite occurs_app in H.
    apply orb_false_elim in H. tauto.
Qed.

Lemma quotedText_open (quote : ascii) (p0 seg : list CharInfo)
  (acc2 : string) (s e : Position) :
  quotedText quote seg acc2 s e ->
  openQuoteAt (String quote "") (p0 ++ seg) s e.
Proof.
  intros (q & body & -> & Hq & -> & -> & -> & Hb).
  exists p0, q, body. repeat split; auto.
  - now rewrite last_app_cons.
  - now apply occurs_textOf.
Qed.

(** The step fed the sentinel, with the texts. *)
Lemma LexInv_finish (p : list CharInfo) (context : TokenizerContext) :
  LexInv p context ->
  match finish context with
  | Tokens ts =>
      exists acc, ts = acc ++ [MS.EOF sentinel sentinel] /\ Lexed acc p
  | Failure e =>
      (exists p0 c0,
          p = p0 ++ [c0] /\ char c0 = "&"
          /\ e = UnrecognizedToken (-1) (-1))
      \/ (exists s en,
             e = UnterminatedString s en
             /\ (openQuoteAt "'" p s en \/ openQuoteAt DQ p s en))
  | Thrown _ => False
  end.
Proof.
  intros (p0 & seg & -> & HL & HP).
  destruct context; simpl in HL, HP.
  - subst seg. apply Lexed_nil_inv in HL. subst p0.
    rewrite RangedFacts.finish_INITIAL. exists [].
    split; [reflexivity | constructor].
  - contradiction.
  - destruct HP as (c0 & -> & -> & H0). rewrite RangedFacts.finish_PREV_L.
    eexists. split; [reflexivity|]. apply Lexed_push; auto.
    simpl. now rewrite H0.
  - destruct HP as (c0 & -> & -> & H0). rewrite RangedFacts.finish_PREV_R.
    eexists. split; [reflexivity|]. apply Lexed_push; auto.
    simpl. now rewrite H0.
  - destruct HP as (c0 & -> & -> & H0). rewrite RangedFacts.finish_PREV_AND.
    left. eauto.
  - destruct HP as (c0 & -> & -> & H0). rewrite RangedFacts.finish_PREV_OR.
    eexists. split; [reflexivity|]. apply Lexed_push; auto.
    simpl. now rewrite H0.
  - subst seg. rewrite app_nil_r, RangedFacts.finish_DEFAULT. eauto.
  - destruct HP as ((c0 & rest & -> & -> & ->) & Hw).
    rewrite RangedFacts.finish_SPACE.
    eexists. split; [reflexivity|]. apply Lexed_push; auto.
  - destruct HP as ((c0 & rest & -> & -> & ->) & -> & Hw).
    rewrite RangedFacts.finish_WORD.
    eexists. split; [reflexivity|]. apply Lexed_push; auto.
    cbn [lexemeOK]. now rewrite String.eqb_refl, Hw.
  - rewrite RangedFacts.finish_WORD_Q. right. do 2 eexists.
    split; [reflexivity|]. left. eapply quotedText_open; eassumption.
  - rewrite RangedFacts.finish_WORD_DQ. right. do 2 eexists.
    split; [reflexivity|]. right. eapply quotedText_open; eassumption.
Qed.

(** Each token's text, read back through its range. *)
Lemma Lexed_covered (acc : list MS.Token) (p : list CharInfo) :
  Lexed acc p ->
  forall q, increasing (p ++ q) ->
    forallb (fun t => lexemeOK t (covered (p ++ q) (MS.start t) (MS.end_ t)))
            acc = true.
Proof.
  induction 1 as [|acc p t c rest HL IH Hs He Ht]; intros q Hq;
    [reflexivity|].
  rewrite forallb_app. cbn [forallb].
  rewrite <- app_assoc in Hq |- *.
  rewrite (IH _ Hq), Hs, He.
  change (c :: rest ++ q) with ((c :: rest) ++ q) in Hq |- *.
  rewrite (covered_piece p rest q c Hq), Ht. reflexivity.
Qed.

(** The outcome of the later draft's [tokenize], with the texts. *)
Lemma tokenize_Lexed (input : string) :
  match tokenize input with
  | Tokens ts =>
      exists acc,
        ts = acc ++ [MS.EOF sentinel sentinel] /\ Lexed acc (chars input)
  | Failure e => failureCause (chars input) e
  | Thrown _ => False
  end.
Proof.
  unfold tokenize.
  pose proof (forLoop_LexInv (chars input) [] INITIAL) as H.
  rewrite Ranged_chars_from in H at 1.
  specialize (H (chars_from_single input 1 0) LexInv_INITIAL).
  simpl app in H.
  destruct (forLoop INITIAL (chars input)) as [e | context].
  - left. exact H.
  - apply LexInv_finish in H.
    destruct (finish context) as [ts | e | w]; auto.
    right. exact H.
Qed.

End RangedLexFacts.

(** ** Further properties of the later draft *)

Lemma Ranged_lexemes (input : string) (ts : list Ranged.MS.Token) :
  Ranged.tokenize input = Ranged.Tokens ts ->
  exists acc,
    ts = acc ++ [Ranged.MS.EOF sentinel sentinel]
    /\ forallb (fun t => RangedLex.lexemeOK t
                           (RangedSpec.sourceText input t)) acc = true.
Proof.
  intros H. pose proof (RangedLexFacts.tokenize_Lexed input) as HL.
  rewrite H in HL. destruct HL as (acc & -> & HL).
  exists acc. split; [reflexivity|].
  pose proof (RangedLexFacts.Lexed_covered acc _ HL []) as HC.
  rewrite app_nil_r in HC. apply HC.
  rewrite Ranged_chars_from. apply chars_from_increasing.
Qed.

Lemma Ranged_lexeme_of (input : string) (ts : list Ranged.MS.Token)
  (t : Ranged.MS.Token) :
  Ranged.tokenize input = Ranged.Tokens ts ->
  In t ts -> Ranged.MS.isEOF t = false ->
  RangedLex.lexemeOK t (RangedSpec.sourceText input t) = true.
Proof.
  intros H Hin Ht. destruct (Ranged_lexemes input ts H) as (acc & -> & HF).
  rewrite forallb_forall in HF. apply HF.
  apply in_app_or in Hin. destruct Hin as [Hin | [<- | []]];
    [assumption | discriminate].
Qed.

(** X1.  Whenever the later draft's [tokenize] succeeds, the source text
    under the range of every token other than [EOF] is what the token
    stands for: the operator's own characters for an operator or a
    parenthesis, a non-empty run of whitespace for [SPACE], the body for a
    [WORD], and the body between two quotes for a quoted word. *)
Theorem tokens_stand_for_their_text (input : string)
  (ts : list Ranged.MS.Token) :
  Ranged.tokenize input = Ranged.Tokens ts ->
  forallb (fun t => Ranged.MS.isEOF t
                    || RangedLex.lexemeOK t (tokenText input t))
          ts = true.
Proof.
  intros H. destruct (Ranged_lexemes input ts H) as (acc & -> & HF).
  rewrite forallb_app. cbn [forallb Ranged.MS.isEOF orb andb].
  rewrite andb_true_r, forallb_forall in *. intros t Ht.
  rewrite Ranged_tokenText, (HF t Ht). apply orb_true_r.
Qed.

Lemma tokens_stand_for_their_text_witness :
  let input := ("a'b |" ++ String LF (String TAB "'c d' >>e"))%string in
  exists ts,
    Ranged.tokenize input = Ranged.Tokens ts
    /\ forallb (fun t => Ranged.MS.isEOF t
                         || RangedLex.lexemeOK t (tokenText input t))
               ts = true.
Proof.
  intros input. eexists. split.
  - reflexivity.
  - apply (tokens_stand_for_their_text input). reflexivity.
Defined.

(** X2.  Whenever the later draft's [tokenize] succeeds, the body of every
    [WORD] token is the source text under its range; it is not empty, does
    not start with a quote and holds no delimiter (whitespace, [<], [>],
    [(], [)], [&], [|]). *)
Theorem word_body_is_its_text (input : string) (ts : list Ranged.MS.Token)
  (body : string) (s e : Position) :
  Ranged.tokenize input = Ranged.Tokens ts ->
  In (Ranged.MS.WORD body s e) ts ->
  textBetween s e 1 0 input = body
  /\ body <> ""
  /\ startsWith (fun a => negb (isQuote a)) body = true
  /\ allChars (fun a => negb (isDelimiter a)) body = true.
Proof.
  intros H Hin. pose proof (Ranged_lexeme_of input ts _ H Hin eq_refl) as HT.
  cbn [RangedLex.lexemeOK] in HT.
  rewrite <- Ranged_tokenText in HT.
  unfold tokenText in HT. cbn [Ranged.MS.start Ranged.MS.end_] in HT.
  apply andb_prop in HT. destruct HT as [Ht Hw].
  apply String.eqb_eq in Ht. unfold wordBody in Hw.
  apply andb_prop in Hw. destruct Hw as [Hs Ha].
  repeat split; auto. intros ->. discriminate.
Qed.

Lemma word_body_is_its_text_witness :
  textBetween (at_ 1 3) (at_ 1 6) 1 0 "ls a'b'" = "a'b'"
  /\ "a'b'" <> ""
  /\ startsWith (fun a => negb (isQuote a)) "a'b'" = true
  /\ allChars (fun a => negb (isDelimiter a)) "a'b'" = true.
Proof.
  apply (word_body_is_its_text "ls a'b'" _ "a'b'" (at_ 1 3) (at_ 1 6)
           eq_refl).
  simpl. right. right. left. reflexivity.
Defined.

(** X3.  Whenever the later draft's [tokenize] succeeds, the source text
    under the range of a [WORD_Q] (or [WORD_DQ]) token is its body between
    two single (or double) quotes, and the body holds no quote of that
    kind. *)
Theorem quoted_body_is_its_text (input : string)
  (ts : list Ranged.MS.Token) (body : string) (s e : Position) :
  Ranged.tokenize input = Ranged.Tokens ts ->
  (In (Ranged.MS.WORD_Q body s e) ts ->
   textBetween s e 1 0 input = ("'" ++ body ++ "'")%string
   /\ occurs "'" body = false)
  /\ (In (Ranged.MS.WORD_DQ body s e) ts ->
      textBetween s e 1 0 input = (DQ ++ body ++ DQ)%string
      /\ occurs DQUOTE body = false).
Proof.
  intros H.
  split; intros Hin;
    pose proof (Ranged_lexeme_of input ts _ H Hin eq_refl) as HT;
    cbn [RangedLex.lexemeOK] in HT;
    rewrite <- Ranged_tokenText in HT;
    unfold tokenText in HT;
    cbn [Ranged.MS.start Ranged.MS.end_] in HT;
    apply andb_prop in HT; destruct HT as [Ht Ho];
    apply String.eqb_eq in Ht; apply negb_true_iff in Ho; auto.
Qed.

Lemma quoted_body_is_its_text_witness :
  textBetween (at_ 1 5) (at_ 1 9) 1 0 "echo 'a b'" = "'a b'"
  /\ occurs "'" "a b" = false.
Proof.
  apply (proj1 (quoted_body_is_its_text "echo 'a b'" _ "a b"
                  (at_ 1 5) (at_ 1 9) eq_refl)).
  simpl. right. right. left. reflexivity.
Defined.

(** X4.  The later draft's [tokenize] fails for three reasons only: a
    character other than [&] right after a [&], reported as
    [UnrecognizedToken] at that character; the end of the input right
    after a [&], reported as [UnrecognizedToken] at -1, -1; the end of the
    input inside a quote, reported as [UnterminatedString] from the
    opening quote to the last character. *)
Theorem tokenize_failure_causes (input : string)
  (e : Ranged.TokenizeError) :
  Ranged.tokenize input = Ranged.Failure e ->
  RangedLex.failureCause (chars_from 1 0 input) e.
Proof.
  intros H. pose proof (RangedLexFacts.tokenize_Lexed input) as HL.
  rewrite H in HL. now rewrite <- Ranged_chars_from.
Qed.

Lemma tokenize_failure_causes_witness :
  RangedLex.failureCause (chars_from 1 0 "a &&& b")
    {| Ranged.message := "Unrecognized token";
       Ranged.start := at_ 1 5; Ranged.end_ := at_ 1 5 |}.
Proof. apply (tokenize_failure_causes "a &&& b"). reflexivity. Defined.

Lemma Covers_length (acc : list Ranged.MS.Token) (p : list CharInfo) :
  RangedSpec.Covers acc p -> (List.length acc <= List.length p)%nat.
Proof.
  induction 1 as [|acc p t c rest _ IH _ _ _]; [apply Nat.le_refl|].
  rewrite !length_app. simpl. lia.
Qed.

Lemma chars_from_length (s : string) :
  forall l c, List.length (chars_from l c s) = String.length s.
Proof.
  induction s as [|a s IH]; intros l c; simpl; [reflexivity|].
  f_equal. destruct (Ascii.eqb a LF); apply IH.
Qed.

(** X5.  The later draft's [tokenize] returns at most one token for each
    character of the input, and [EOF]. *)
Theorem token_count_bound (input : string) (ts : list Ranged.MS.Token) :
  Ranged.tokenize input = Ranged.Tokens ts ->
  (List.length ts <= String.length input + 1)%nat.
Proof.
  intros H. unfold Ranged.tokenize in H.
  pose proof (RangedFacts.tokenize_Inv input) as HI.
  destruct (Ranged.forLoop Ranged.INITIAL (Ranged.chars input))
    as [e | context]; [discriminate|].
  apply RangedFacts.Inv_finish in HI. rewrite H in HI.
  destruct HI as (acc & -> & HC). apply Covers_length in HC.
  rewrite Ranged_chars_from, chars_from_length in HC.
  rewrite length_app. simpl. lia.
Qed.

Lemma token_count_bound_witness :
  exists ts,
    Ranged.tokenize "(a)" = Ranged.Tokens ts
    /\ (List.length ts <= String.length "(a)" + 1)%nat.
Proof.
  eexists. split; [reflexivity|].
  apply (token_count_bound "(a)"). reflexivity.
Defined.

Lemma StronglySorted_snoc {A : Type} (R : A -> A -> Prop) (l : list A)
  (x : A) :
  StronglySorted R l -> Forall (fun y => R y x) l ->
  StronglySorted R (l ++ [x]).
Proof.
  induction 1 as [|y l HS IH Hy]; intros HF; simpl.
  - repeat constructor.
  - inversion HF; subst. constructor; [now apply IH|].
    apply Forall_app. split; [assumption | now constructor].
Qed.

Lemma Covers_ordered (acc : list Ranged.MS.Token) (p : list CharInfo) :
  RangedSpec.Covers acc p ->
  forall q, increasing (p ++ q) ->
    StronglySorted
      (fun t1 t2 => Position_lt (Ranged.MS.end_ t1) (Ranged.MS.start t2)) acc
    /\ Forall (fun t =>
                 Position_leb (Ranged.MS.start t) (Ranged.MS.end_ t) = true
                 /\ exists x y,
                     In x p /\ In y p
                     /\ Ranged.MS.start t = posOf x
                     /\ Ranged.MS.end_ t = posOf y) acc.
Proof.
  induction 1 as [|acc p t c rest HC IH Ht Hs He]; intros q Hq.
  - split; constructor.
  - rewrite <- app_assoc in Hq.
    destruct (IH _ Hq) as [HS HF].
    pose proof Hq as Hq'.
    apply StronglySorted_app_inv in Hq'. destruct Hq' as (_ & Hcq & Hpc).
    change (c :: rest ++ q) with ((c :: rest) ++ q) in Hcq.
    apply StronglySorted_app_inv in Hcq. destruct Hcq as (Hseg & _ & _).
    split.
    + apply StronglySorted_snoc; [assumption|].
      rewrite Forall_forall in HF, Hpc |- *. intros t' Ht'.
      destruct (HF t' Ht') as (_ & x & y & _ & Hy & _ & Hey).
      rewrite Hey, Hs. specialize (Hpc y Hy).
      now inversion Hpc.
    + apply Forall_app. split.
      * eapply Forall_impl; [|exact HF]. simpl.
        intros t' (Hle & x & y & Hx & Hy & Hsx & Hey).
        split; [assumption|]. exists x, y.
        repeat split; auto; apply in_or_app; now left.
      * constructor; [|constructor]. split.
        -- rewrite Hs, He.
           pose proof (increasing_last c rest Hseg) as Hl.
           now inversion Hl.
        -- exists c, (last rest c). repeat split; auto.
           ++ apply in_or_app. right. now left.
           ++ apply in_or_app. right. apply last_In.
Qed.

(** X6.  Whenever the later draft's [tokenize] succeeds, the tokens before
    [EOF] lie in the order of the input without overlap: every token ends
    strictly before the next one starts.  Each starts no later than it
    ends, and starts and ends at the position of a character of the
    input: only [EOF] carries coordinates that are not in the input. *)
Theorem token_ranges_in_order (input : string)
  (ts : list Ranged.MS.Token) :
  Ranged.tokenize input = Ranged.Tokens ts ->
  exists acc,
    ts = acc ++ [Ranged.MS.EOF sentinel sentinel]
    /\ StronglySorted
         (fun t1 t2 =>
            Position_lt (Ranged.MS.end_ t1) (Ranged.MS.start t2)) acc
    /\ Forall (fun t =>
                 Position_leb (Ranged.MS.start t) (Ranged.MS.end_ t) = true
                 /\ exists x y,
                     In x (chars_from 1 0 input)
                     /\ In y (chars_from 1 0 input)
                     /\ Ranged.MS.start t = posOf x
                     /\ Ranged.MS.end_ t = posOf y) acc.
Proof.
  intros H. unfold Ranged.tokenize in H.
  pose proof (RangedFacts.tokenize_Inv input) as HI.
  destruct (Ranged.forLoop Ranged.INITIAL (Ranged.chars input))
    as [e | context]; [discriminate|].
  apply RangedFacts.Inv_finish in HI. rewrite H in HI.
  destruct HI as (acc & -> & HC). exists acc. split; [reflexivity|].
  rewrite Ranged_chars_from in HC.
  apply (Covers_ordered acc _ HC []). rewrite app_nil_r.
  apply chars_from_increasing.
Qed.

Lemma token_ranges_in_order_witness :
  exists ts acc,
    Ranged.tokenize "a >>b" = Ranged.Tokens ts
    /\ ts = acc ++ [Ranged.MS.EOF sentinel sentinel]
    /\ StronglySorted
         (fun t1 t2 =>
            Position_lt (Ranged.MS.end_ t1) (Ranged.MS.start t2)) acc.
Proof.
  destruct (token_ranges_in_order "a >>b" _ eq_refl) as (acc & H1 & H2 & _).
  eexists. exists acc. split; [reflexivity|]. split; assumption.
Defined.

Lemma Ranged_chars_app (s t : string) :
  exists rest, Ranged.chars (s ++ t) = Ranged.chars s ++ rest.
Proof. rewrite !Ranged_chars_from, chars_from_app. eauto. Qed.

Lemma IndexTs_chars_app (s t : string) :
  exists rest, IndexTs.chars (s ++ t) = IndexTs.chars s ++ rest.
Proof. rewrite !IndexTs_chars_skipping, chars_skipping_app. eauto. Qed.

(** X7.  In both drafts the first error ends the scan: when [tokenize]
    fails on an input with an [UnrecognizedToken] located in the input
    (its line is not the -1 of the sentinel), it fails with the same error
    on every input that goes on after it. *)
Theorem error_in_input_is_final (s t : string) :
  (forall l c,
      Ranged.tokenize s
      = Ranged.Failure {| Ranged.message := "Unrecognized token";
                          Ranged.start := at_ l c; Ranged.end_ := at_ l c |} ->
      l <> -1 ->
      Ranged.tokenize (s ++ t)
      = Ranged.Failure {| Ranged.message := "Unrecognized token";
                          Ranged.start := at_ l c; Ranged.end_ := at_ l c |})
  /\ (forall e,
         IndexTs.tokenize s = IndexTs.Failure e ->
         IndexTs.line e <> -1 ->
         IndexTs.tokenize (s ++ t) = IndexTs.Failure e).
Proof.
  split.
  - intros l c H Hl. destruct (Ranged_chars_app s t) as (rest & Hrest).
    unfold Ranged.tokenize in *. rewrite Hrest, RangedFacts.forLoop_app.
    pose proof (RangedFacts.tokenize_Inv s) as HI.
    destruct (Ranged.forLoop Ranged.INITIAL (Ranged.chars s))
      as [e' | context]; [exact H|].
    exfalso. apply RangedFacts.Inv_finish in HI. rewrite H in HI.
    destruct HI as [(acc & p & _ & He) | (acc & acc2 & st & en & _ & He)].
    + inversion He. contradiction.
    + discriminate.
  - intros e H Hl. destruct (IndexTs_chars_app s t) as (rest & Hrest).
    unfold IndexTs.tokenize in *.
    rewrite Hrest, IndexTsFacts.ix_forLoop_app.
    destruct (IndexTs.forLoop IndexTs.INITIAL (IndexTs.chars s))
      as [e' | context] eqn:HF; [exact H|].
    exfalso.
    pose proof (IndexTsFacts.ix_forLoop_not_ERROR _ IndexTs.INITIAL _
                  eq_refl HF) as HE.
    pose proof (IndexTsFacts.noEOF_forLoop _ IndexTs.INITIAL _
                  (IndexTs_chars_single s) eq_refl HF) as HN.
    pose proof (IndexTsFacts.noEOF_finish context HE HN) as HX.
    rewrite H in HX. destruct HX as [HX _]. contradiction.
Qed.

Lemma error_in_input_is_final_witness :
  Ranged.tokenize "a &b"
  = Ranged.Failure {| Ranged.message := "Unrecognized token";
                      Ranged.start := at_ 1 3; Ranged.end_ := at_ 1 3 |}
  /\ Ranged.tokenize ("a &b" ++ " && c'")
     = Ranged.Failure {| Ranged.message := "Unrecognized token";
                         Ranged.start := at_ 1 3; Ranged.end_ := at_ 1 3 |}.
Proof.
  split; [reflexivity|].
  apply (proj1 (error_in_input_is_final "a &b" " && c'")).
  - reflexivity.
  - discriminate.
Defined.

(** X8.  The character stream of the later draft spells the input: it has
    one element for each character of the input, in order, each holding
    that one character, and the positions grow strictly from one element
    to the next. *)
Theorem Ranged_chars_spell_input (input : string) :
  textOf (Ranged.chars input) = input
  /\ List.length (Ranged.chars input) = String.length input
  /\ Forall single (Ranged.chars input)
  /\ increasing (Ranged.chars input).
Proof.
  rewrite Ranged_chars_from. repeat split.
  - apply chars_from_text.
  - apply chars_from_length.
  - apply chars_from_single.
  - apply chars_from_increasing.
Qed.

(** X9.  The positions in the stream of the later draft: the first
    character is at line 1, column 0; the character after a newline is at
    column 0 of the next line, the character after any other character at
    the next column of the same line; the newline itself is the last
    element of its line.  The stream of an input that goes on after [s]
    is the stream of [s] followed by the elements of the rest, laid out
    from the position just past [s]. *)
Theorem Ranged_chars_positions (s t : string) :
  Ranged.chars s = chars_from 1 0 s
  /\ Ranged.chars (s ++ t)
     = Ranged.chars s
       ++ chars_from (line (pastEnd 1 0 s)) (column (pastEnd 1 0 s)) t.
Proof.
  split.
  - apply Ranged_chars_from.
  - rewrite !Ranged_chars_from. apply chars_from_app.
Qed.

Lemma chars_skipping_text (s : string) :
  forall l c, textOf (chars_skipping l c s) = dropNewlines s.
Proof.
  induction s as [|a s IH]; intros l c; simpl; [reflexivity|].
  destruct (Ascii.eqb a LF); [apply IH|]. simpl. f_equal. apply IH.
Qed.

Lemma chars_skipping_no_newline (s : string) :
  forall l c,
    Forall (fun x => char x <> String LF "") (chars_skipping l c s).
Proof.
  induction s as [|a s IH]; intros l c; simpl; [constructor|].
  destruct (Ascii.eqb a LF) eqn:E; [apply IH|].
  constructor; [|apply IH]. simpl. intros H. inversion H; subst.
  rewrite Ascii.eqb_refl in E. discriminate.
Qed.

(** X10.  The character stream of [src/index.ts] holds the characters of
    the input other than newlines, in order, and no newline: a newline
    only moves the position to column 0 of the next line, so the handlers
    of that draft never see one. *)
Theorem IndexTs_chars_drop_newlines (input : string) :
  IndexTs.chars input = chars_skipping 1 0 input
  /\ textOf (IndexTs.chars input) = dropNewlines input
  /\ Forall (fun x => char x <> String LF "") (IndexTs.chars input).
Proof.
  rewrite IndexTs_chars_skipping. repeat split.
  - apply chars_skipping_text.
  - apply chars_skipping_no_newline.
Qed.

(** ** The two drafts side by side *)

Module DraftsFacts.
Import Drafts.

Ltac break_if :=
  match goal with
  | |- context [if ?b then _ else _] =>
      let E := fresh "E" in destruct b eqn:E
  end.

Lemma eraseAll_snoc (a : list Ranged.MS.Token) (t : Ranged.MS.Token) :
  eraseAll (a ++ [t]) = eraseAll a ++ erase t.
Proof. unfold eraseAll. rewrite flat_map_app. simpl. now rewrite app_nil_r. Qed.

Lemma sameError_point (l c : Z) :
  sameError (Ranged.UnrecognizedToken l c) (IndexTs.UnrecognizedToken l c).
Proof. split; [reflexivity | intros _; split; reflexivity]. Qed.

Lemma sim_default (ch : string) (l c : Z) (a : list Ranged.MS.Token) :
  (ch =? DQ)%string = false ->
  sim (Ranged.tokenizeDefault ch l c a)
      (IndexTs.tokenizeDefault ch l c (eraseAll a)).
Proof.
  intros Hdq. unfold Ranged.tokenizeDefault, IndexTs.tokenizeDefault.
  cbv zeta. rewrite Hdq.
  repeat break_if; simpl; rewrite ?eraseAll_snoc; auto.
Qed.

(** One turn of the loops of the two drafts, on a character other than
    the double quote. *)
Lemma sim_step (cR : Ranged.TokenizerContext)
  (cI : IndexTs.TokenizerContext) (ch : string) (l c : Z) :
  (ch =? DQ)%string = false ->
  sim cR cI ->
  sim (Ranged.tokenizerMap cR ch l c) (IndexTs.tokenizerMap cI ch l c).
Proof.
  intros Hdq H.
  destruct cR, cI; simpl in H; try contradiction;
    simpl Ranged.tokenizerMap; simpl IndexTs.tokenizerMap.
  - apply (sim_default ch l c [] Hdq).
  - exact H.
  - destruct H as [-> ->].
    unfold Ranged.tokenizePrevL, IndexTs.tokenizePrevL. break_if.
    + simpl. now rewrite eraseAll_snoc.
    + change [IndexTs.MS.L start start]
        with (erase (Ranged.MS.L start start)).
      rewrite <- eraseAll_snoc. now apply sim_default.
  - destruct H as [-> ->].
    unfold Ranged.tokenizePrevR, IndexTs.tokenizePrevR. break_if.
    + simpl. now rewrite eraseAll_snoc.
    + change [IndexTs.MS.R start start]
        with (erase (Ranged.MS.R start start)).
      rewrite <- eraseAll_snoc. now apply sim_default.
  - destruct H as [-> ->].
    unfold Ranged.tokenizePrevAnd, IndexTs.tokenizePrevAnd. break_if.
    + simpl. now rewrite eraseAll_snoc.
    + apply sameError_point.
  - destruct H as [-> ->].
    unfold Ranged.tokenizePrevOr, IndexTs.tokenizePrevOr. break_if.
    + simpl. now rewrite eraseAll_snoc.
    + change [IndexTs.MS.PIPE start start]
        with (erase (Ranged.MS.PIPE start start)).
      rewrite <- eraseAll_snoc. now apply sim_default.
  - subst. now apply sim_default.
  - subst. unfold Ranged.tokenizeSpace, IndexTs.tokenizeSpace. break_if.
    + reflexivity.
    + replace (eraseAll acc)
        with (eraseAll (acc ++ [Ranged.MS.SPACE start end_]))
        by (rewrite eraseAll_snoc; simpl; apply app_nil_r).
      now apply sim_default.
  - destruct H as (-> & -> & -> & ->).
    unfold Ranged.tokenizeWord, IndexTs.tokenizeWord. break_if.
    + change [IndexTs.MS.WORD acc2 start end_]
        with (erase (Ranged.MS.WORD acc2 start end_)).
      rewrite <- eraseAll_snoc. now apply sim_default.
    + simpl. auto.
  - destruct H as (-> & -> & ->).
    unfold Ranged.tokenizeWordQ, IndexTs.tokenizeWordQ.
    repeat break_if; simpl; rewrite ?eraseAll_snoc; auto.
    split; [reflexivity | intros; discriminate].
Qed.

(** The loops of the two drafts over the same run of characters, none of
    them a double quote. *)
Lemma sim_forLoop (q : list CharInfo) :
  forall cR cI,
    Forall (fun x => (char x =? DQ)%string = false) q ->
    sim cR cI ->
    match Ranged.forLoop cR q, IndexTs.forLoop cI q with
    | inl eR, inl eI => sameError eR eI
    | inr cR', inr cI' => sim cR' cI'
    | _, _ => False
    end.
Proof.
  induction q as [|x q IH]; intros cR cI Hq H; [exact H|].
  inversion Hq as [|? ? Hx Hq']; subst.
  pose proof (sim_step cR cI (char x) (cline x) (ccolumn x) Hx H) as Hs.
  simpl.
  destruct (Ranged.tokenizerMap cR (char x) (cline x) (ccolumn x)) eqn:ER;
    destruct (IndexTs.tokenizerMap cI (char x) (cline x) (ccolumn x))
      eqn:EI;
    simpl in Hs; try contradiction; try exact Hs;
    apply IH; assumption.
Qed.

(** The steps fed the sentinel. *)
Lemma sim_finish (cR : Ranged.TokenizerContext)
  (cI : IndexTs.TokenizerContext) :
  sim cR cI -> agree (Ranged.finish cR) (IndexTs.finish cI).
Proof.
  intros H. destruct cR, cI; simpl in H; try contradiction.
  - reflexivity.
  - exact H.
  - destruct H as [-> ->]. simpl. now rewrite !eraseAll_snoc.
  - destruct H as [-> ->]. simpl. now rewrite !eraseAll_snoc.
  - destruct H as [-> ->]. apply sameError_point.
  - destruct H as [-> ->]. simpl. now rewrite !eraseAll_snoc.
  - subst. simpl. now rewrite eraseAll_snoc.
  - subst. simpl. rewrite !eraseAll_snoc. simpl. now rewrite app_nil_r.
  - destruct H as (-> & -> & -> & ->). simpl. now rewrite !eraseAll_snoc.
  - destruct H as (-> & -> & ->). split; [reflexivity|].
    intros; discriminate.
Qed.

Lemma chars_skipping_chars_from (s : string) :
  forall l c,
    occurs LF s = false -> chars_skipping l c s = chars_from l c s.
Proof.
  induction s as [|a s IH]; intros l c H; [reflexivity|].
  simpl in H. apply orb_false_elim in H. destruct H as [Ha Hs].
  simpl. rewrite Ha. f_equal. now apply IH.
Qed.

Lemma chars_from_no_char (b : ascii) (s : string) :
  forall l c,
    occurs b s = false ->
    Forall (fun x => (char x =? String b "")%string = false)
           (chars_from l c s).
Proof.
  induction s as [|a s IH]; intros l c H; simpl; [constructor|].
  simpl in H. apply orb_false_elim in H. destruct H as [Ha Hs].
  constructor.
  - cbn [char]. now rewrite single_eqb.
  - destruct (Ascii.eqb a LF); now apply IH.
Qed.

End DraftsFacts.

(** X11.  On an input of one line that holds no double quote, the two
    drafts agree: [src/index.ts] returns the tokens of the later draft
    without the [SPACE] tokens, and it fails exactly when the later draft
    fails, with the same message, and for [UnrecognizedToken] at the same
    point. *)
Theorem drafts_agree_on_one_line (input : string) :
  occurs LF input = false ->
  occurs DQUOTE input = false ->
  Drafts.agree (Ranged.tokenize input) (IndexTs.tokenize input).
Proof.
  intros Hlf Hdq. unfold Ranged.tokenize, IndexTs.tokenize.
  rewrite IndexTs_chars_skipping, Ranged_chars_from.
  rewrite (DraftsFacts.chars_skipping_chars_from input 1 0 Hlf).
  pose proof (DraftsFacts.sim_forLoop (chars_from 1 0 input)
                Ranged.INITIAL IndexTs.INITIAL
                (DraftsFacts.chars_from_no_char DQUOTE input 1 0 Hdq) I)
    as H.
  destruct (Ranged.forLoop Ranged.INITIAL (chars_from 1 0 input))
    as [eR | cR];
    destruct (IndexTs.forLoop IndexTs.INITIAL (chars_from 1 0 input))
      as [eI | cI]; try contradiction.
  - exact H.
  - now apply DraftsFacts.sim_finish.
Qed.

Lemma drafts_agree_on_one_line_witness :
  occurs LF "ls -al | grep 'a b' >>out" = false
  /\ occurs DQUOTE "ls -al | grep 'a b' >>out" = false
  /\ Drafts.agree (Ranged.tokenize "ls -al | grep 'a b' >>out")
       (IndexTs.tokenize "ls -al | grep 'a b' >>out").
Proof.
  split; [reflexivity|]. split; [reflexivity|].
  apply drafts_agree_on_one_line; reflexivity.
Defined.

(** ** The longest match in the later draft *)

Module RangedGreedyFacts.
Import Ranged RangedSpec RangedGreedy.

Ltac break_if :=
  match goal with
  | |- context [if ?b then _ else _] =>
      let E := fresh "E" in destruct b eqn:E
  end.

Lemma lastToken_snoc (acc : list MS.Token) (t : MS.Token) :
  lastToken (acc ++ [t]) = Some t.
Proof. unfold lastToken. now rewrite rev_unit. Qed.

Lemma adjacentOK_snoc (acc : list MS.Token) (t : MS.Token) :
  adjacentOK (acc ++ [t])
  = adjacentOK acc
    && match lastToken acc with
       | Some t0 => canFollow t0 t
       | None => true
       end.
Proof.
  induction acc as [|x acc IH]; [reflexivity|].
  destruct acc as [|y acc].
  - simpl. now rewrite andb_true_r.
  - change ((x :: y :: acc) ++ [t]) with (x :: ((y :: acc) ++ [t])).
    change (adjacentOK (x :: (y :: acc) ++ [t]))
      with (canFollow x y && adjacentOK ((y :: acc) ++ [t])).
    rewrite IH. change (adjacentOK (x :: y :: acc))
      with (canFollow x y && adjacentOK (y :: acc)).
    rewrite andb_assoc. f_equal.
    unfold lastToken. simpl rev.
    destruct (rev acc) as [|z r]; reflexivity.
Qed.

Ltac push_tokens :=
  unfold greedy; cbn [accOf];
  rewrite ?adjacentOK_snoc, ?lastToken_snoc.

Ltac by_last H :=
  unfold greedy in H; cbn [accOf] in H;
  apply andb_prop in H; destruct H as [?Hadj ?Hlast];
  push_tokens;
  match goal with
  | |- context [lastToken ?acc] =>
      destruct (lastToken acc) as [[]|]
  | _ => idtac
  end;
  cbn in *; rewrite ?Hadj; try reflexivity; try discriminate.

Lemma greedy_default (a : ascii) (l c : Z) (acc : list MS.Token) :
  greedy (DEFAULT acc) = true ->
  greedy (tokenizeDefault (String a "") l c acc) = true.
Proof.
  intros H. rewrite Ranged_tokenizeDefault_single.
  repeat break_if; by_last H.
Qed.

(** After a token that ends at a character which is not its own, the
    handler of that character keeps the invariant. *)
Lemma greedy_default_after (a : ascii) (l c : Z) (acc : list MS.Token)
  (t : MS.Token) :
  adjacentOK acc = true ->
  lastToken acc = Some t ->
  match tokenizeDefault (String a "") l c acc with
  | DEFAULT _ => true
  | context => okAfter t context
  end = true ->
  canFollow t (MS.LPAREN (at_ l c) (at_ l c)) = true ->
  canFollow t (MS.RPAREN (at_ l c) (at_ l c)) = true ->
  greedy (tokenizeDefault (String a "") l c acc) = true.
Proof.
  intros Hadj Hlast Hok HL HR. revert Hok.
  rewrite Ranged_tokenizeDefault_single.
  repeat break_if; intros Hok; push_tokens;
    rewrite ?Hlast, ?Hadj, ?HL, ?HR, ?Hok; reflexivity.
Qed.

(** The token pushed by a context may follow the last one. *)
Lemma greedy_push (context : TokenizerContext) (acc : list MS.Token)
  (t : MS.Token) :
  greedy context = true -> accOf context = acc ->
  (forall t0, okAfter t0 context = true -> canFollow t0 t = true) ->
  adjacentOK (acc ++ [t]) = true.
Proof.
  unfold greedy. intros H <- Hf. apply andb_prop in H.
  destruct H as [Hadj Hlast]. rewrite adjacentOK_snoc, Hadj.
  destruct (lastToken (accOf context)) as [t0|]; [|reflexivity].
  simpl. now apply Hf.
Qed.

Ltac not_delimiter :=
  match goal with
  | Hd : isDelimiter _ = true |- _ =>
      rewrite isDelimiter_cases in Hd;
      repeat match goal with
             | H : _ = false |- _ => rewrite H in Hd
             end;
      discriminate Hd
  end.

Lemma greedy_same_acc (context context' : TokenizerContext) :
  greedy context = true ->
  accOf context' = accOf context ->
  (forall t, okAfter t context' = okAfter t context) ->
  greedy context' = true.
Proof.
  unfold greedy. intros H -> Hok.
  destruct (lastToken (accOf context)) as [t|]; [|exact H].
  now rewrite Hok.
Qed.

(** One turn of the loop keeps the longest-match invariant. *)
Lemma greedy_step (context : TokenizerContext) (a : ascii) (l c : Z) :
  greedy context = true ->
  greedy (tokenizerMap context (String a "") l c) = true.
Proof.
  intros H.
  destruct context
    as [ | err | acc s | acc s | acc s | acc s | acc | acc s e
       | acc acc2 s e | acc acc2 s e | acc acc2 s e ];
    simpl tokenizerMap.
  - now apply greedy_default.
  - reflexivity.
  - unfold tokenizePrevL. rewrite single_eqb. break_if.
    + push_tokens. rewrite andb_true_r. rewrite <- adjacentOK_snoc.
      eapply greedy_push; [exact H | reflexivity |].
      intros []; simpl; auto.
    + apply greedy_default_after with (t := MS.L s s);
        try reflexivity; try apply lastToken_snoc.
      * eapply greedy_push; [exact H | reflexivity |].
        intros []; simpl; auto.
      * rewrite Ranged_tokenizeDefault_single, E.
        repeat break_if; reflexivity.
  - unfold tokenizePrevR. rewrite single_eqb. break_if.
    + push_tokens. rewrite andb_true_r. rewrite <- adjacentOK_snoc.
      eapply greedy_push; [exact H | reflexivity |].
      intros []; simpl; auto.
    + apply greedy_default_after with (t := MS.R s s);
        try reflexivity; try apply lastToken_snoc.
      * eapply greedy_push; [exact H | reflexivity |].
        intros []; simpl; auto.
      * rewrite Ranged_tokenizeDefault_single, E.
        repeat break_if; reflexivity.
  - unfold tokenizePrevAnd. rewrite single_eqb. break_if; [|reflexivity].
    push_tokens. rewrite andb_true_r. rewrite <- adjacentOK_snoc.
    eapply greedy_push; [exact H | reflexivity |].
    intros []; simpl; auto.
  - unfold tokenizePrevOr. rewrite single_eqb. break_if.
    + push_tokens. rewrite andb_true_r. rewrite <- adjacentOK_snoc.
      eapply greedy_push; [exact H | reflexivity |].
      intros []; simpl; auto.
    + apply greedy_default_after with (t := MS.PIPE s s);
        try reflexivity; try apply lastToken_snoc.
      * eapply greedy_push; [exact H | reflexivity |].
        intros []; simpl; auto.
      * rewrite Ranged_tokenizeDefault_single, E.
        repeat break_if; reflexivity.
  - now apply greedy_default.
  - rewrite Ranged_tokenizeSpace_single. break_if.
    + eapply greedy_same_acc; [exact H | reflexivity | reflexivity].
    + apply greedy_default_after with (t := MS.SPACE s e);
        try reflexivity; try apply lastToken_snoc.
      * eapply greedy_push; [exact H | reflexivity |].
        intros []; simpl; auto.
      * rewrite Ranged_tokenizeDefault_single, E.
        repeat break_if; reflexivity.
  - rewrite Ranged_tokenizeWord_single. break_if.
    + apply greedy_default_after with (t := MS.WORD acc2 s e);
        try reflexivity; try apply lastToken_snoc.
      * eapply greedy_push; [exact H | reflexivity |].
        intros []; simpl; auto.
      * rewrite Ranged_tokenizeDefault_single.
        repeat break_if; try reflexivity; not_delimiter.
    + eapply greedy_same_acc; [exact H | reflexivity | reflexivity].
  - rewrite Ranged_tokenizeWordQ_single. break_if.
    + push_tokens. rewrite andb_true_r. rewrite <- adjacentOK_snoc.
      eapply greedy_push; [exact H | reflexivity |].
      intros []; simpl; auto.
    + eapply greedy_same_acc; [exact H | reflexivity | reflexivity].
  - rewrite Ranged_tokenizeWordDQ_single. break_if.
    + push_tokens. rewrite andb_true_r. rewrite <- adjacentOK_snoc.
      eapply greedy_push; [exact H | reflexivity |].
      intros []; simpl; auto.
    + eapply greedy_same_acc; [exact H | reflexivity | reflexivity].
Qed.

Lemma greedy_forLoop (q : list CharInfo) :
  forall context context',
    Forall single q ->
    greedy context = true ->
    forLoop context q = inr context' ->
    greedy context' = true.
Proof.
  induction q as [|x q IH]; intros context context' Hq H HL; simpl in HL.
  - congruence.
  - inversion Hq as [|? ? [a Ha] Hq']; subst.
    pose proof (greedy_step context a (cline x) (ccolumn x) H) as Hs.
    rewrite <- Ha in Hs.
    destruct (tokenizerMap context (char x) (cline x) (ccolumn x));
      try discriminate; (eapply IH; [exact Hq' | exact Hs | exact HL]).
Qed.

(** The step fed the sentinel keeps the tokens well placed. *)
Lemma greedy_finish (context : TokenizerContext) (ts : list MS.Token) :
  greedy context = true ->
  finish context = Tokens ts ->
  adjacentOK ts = true.
Proof.
  intros H HF.
  assert (Hlast : forall acc t,
             adjacentOK (acc ++ [t]) = true ->
             adjacentOK ((acc ++ [t]) ++ [MS.EOF sentinel sentinel]) = true).
  { intros acc t Ht. rewrite adjacentOK_snoc, Ht, lastToken_snoc.
    now destruct t. }
  destruct context; simpl in HF; try discriminate;
    inversion HF; subst; clear HF.
  - reflexivity.
  - apply Hlast. eapply greedy_push; [exact H | reflexivity |].
    intros []; simpl; auto.
  - apply Hlast. eapply greedy_push; [exact H | reflexivity |].
    intros []; simpl; auto.
  - apply Hlast. eapply greedy_push; [exact H | reflexivity |].
    intros []; simpl; auto.
  - eapply greedy_push; [exact H | reflexivity |].
    intros []; simpl; auto.
  - apply Hlast. eapply greedy_push; [exact H | reflexivity |].
    intros []; simpl; auto.
  - apply Hlast. eapply greedy_push; [exact H | reflexivity |].
    intros []; simpl; auto.
Qed.

End RangedGreedyFacts.

(** X12.  The later draft matches the longest token: whenever [tokenize]
    succeeds, no [SPACE] token comes right after a [SPACE] token, no
    [WORD], [WORD_Q] or [WORD_DQ] right after a [WORD], no [L] or [LL]
    right after an [L], no [R] or [RR] right after an [R], and no [PIPE]
    or [OR] right after a [PIPE]. *)
Theorem tokens_are_longest_matches (input : string)
  (ts : list Ranged.MS.Token) :
  Ranged.tokenize input = Ranged.Tokens ts ->
  RangedGreedy.adjacentOK ts = true.
Proof.
  unfold Ranged.tokenize. intros H.
  destruct (Ranged.forLoop Ranged.INITIAL (Ranged.chars input))
    as [e | context] eqn:HL; [discriminate|].
  eapply RangedGreedyFacts.greedy_finish; [|exact H].
  eapply RangedGreedyFacts.greedy_forLoop; [| |exact HL].
  - rewrite Ranged_chars_from. apply chars_from_single.
  - reflexivity.
Qed.

Lemma tokens_are_longest_matches_witness :
  exists ts,
    Ranged.tokenize "a'b  <<< c|||d" = Ranged.Tokens ts
    /\ RangedGreedy.adjacentOK ts = true.
Proof.
  eexists. split; [reflexivity|].
  apply (tokens_are_longest_matches "a'b  <<< c|||d"). reflexivity.
Defined.

(** X13.  [src/index.ts] never returns a [WORD_DQ] token with a body: the
    body of every [WORD_DQ] token it returns is empty, whatever stood
    between the double quotes of the input. *)
Theorem index_ts_double_quoted_body_is_empty (input : string)
  (ts : list IndexTs.MS.Token) (body : string) (s e : Position) :
  IndexTs.tokenize input = IndexTs.Tokens ts ->
  In (IndexTs.MS.WORD_DQ body s e) ts ->
  body = "".
Proof.
  intros H Hin. pose proof (IndexTs_word_dq_body_empty input ts H) as HB.
  rewrite forallb_forall in HB. specialize (HB _ Hin).
  now apply String.eqb_eq in HB.
Qed.

Lemma index_ts_double_quoted_body_is_empty_witness :
  exists ts,
    IndexTs.tokenize ("a " ++ DQ ++ DQ ++ " b") = IndexTs.Tokens ts
    /\ In (IndexTs.MS.WORD_DQ "" (at_ 1 2) (at_ 1 3)) ts
    /\ "" = "".
Proof.
  eexists. split; [reflexivity|].
  assert (Hin : In (IndexTs.MS.WORD_DQ "" (at_ 1 2) (at_ 1 3))
                  [IndexTs.MS.WORD "a" (at_ 1 0) (at_ 1 0);
                   IndexTs.MS.WORD_DQ "" (at_ 1 2) (at_ 1 3);
                   IndexTs.MS.WORD "b" (at_ 1 5) (at_ 1 5);
                   IndexTs.MS.EOF sentinel sentinel])
    by (right; left; reflexivity).
  split; [exact Hin|].
  exact (index_ts_double_quoted_body_is_empty
           ("a " ++ DQ ++ DQ ++ " b") _ "" (at_ 1 2) (at_ 1 3) eq_refl Hin).
Defined.

Lemma Ranged_forLoop_single_quoted (body : string) :
  forall l c acc acc2 st e,
    occurs "'" body = false ->
    Ranged.forLoop (Ranged.WORD_Q acc acc2 st e)
      (chars_from l c (body ++ "'"))
    = inr (Ranged.DEFAULT
             (acc ++ [Ranged.MS.WORD_Q (acc2 ++ body) st
                        (pastEnd l c body)])).
Proof.
  induction body as [|a r IH]; intros l c acc acc2 st e H.
  - simpl. now rewrite string_app_nil_r.
  - simpl in H. apply orb_false_elim in H. destruct H as [Ha Hr].
    change (String a r ++ "'")%string with (String a (r ++ "'")%string).
    cbn [chars_from Ranged.forLoop char cline ccolumn Ranged.tokenizerMap].
    rewrite Ranged_tokenizeWordQ_single, Ha.
    replace (acc2 ++ String a r)%string
      with ((acc2 ++ String a "") ++ r)%string
      by (now rewrite <- string_app_assoc).
    cbn [pastEnd]. destruct (Ascii.eqb a LF); apply IH; assumption.
Qed.

(** X14.  In the later draft a text between two quotes of one kind, with
    no quote of that kind in it, is one token: [WORD_Q] for single quotes,
    [WORD_DQ] for double quotes, with the text as its body, newlines
    included, ranging from the opening quote to the closing one, and then
    [EOF]. *)
Theorem quoted_text_is_one_token (body : string) :
  (occurs "'" body = false ->
   Ranged.tokenize ("'" ++ body ++ "'")
   = Ranged.Tokens
       [Ranged.MS.WORD_Q body (at_ 1 0) (pastEnd 1 1 body);
        Ranged.MS.EOF sentinel sentinel])
  /\ (occurs DQUOTE body = false ->
      Ranged.tokenize (DQ ++ body ++ DQ)
      = Ranged.Tokens
          [Ranged.MS.WORD_DQ body (at_ 1 0) (pastEnd 1 1 body);
           Ranged.MS.EOF sentinel sentinel]).
Proof.
  split; intros H.
  - unfold Ranged.tokenize. rewrite Ranged_chars_from.
    change ("'" ++ body ++ "'")%string with (String "'" (body ++ "'")%string).
    cbn [chars_from Ranged.forLoop char cline ccolumn].
    change (Ascii.eqb "'" LF) with false. cbv iota.
    change (Ranged.tokenizerMap Ranged.INITIAL (String "'" "") 1 0)
      with (Ranged.WORD_Q [] "" (at_ 1 0) (at_ 1 0)).
    cbv iota. change (0 + 1) with 1.
    rewrite (Ranged_forLoop_single_quoted body _ _ _ _ _ _ H).
    reflexivity.
  - now apply Ranged_tokenize_double_quoted.
Qed.

Lemma quoted_text_is_one_token_witness :
  occurs "'" ("a |" ++ String LF "b") = false
  /\ Ranged.tokenize ("'" ++ ("a |" ++ String LF "b") ++ "'")
     = Ranged.Tokens
         [Ranged.MS.WORD_Q ("a |" ++ String LF "b") (at_ 1 0) (at_ 2 1);
          Ranged.MS.EOF sentinel sentinel].
Proof.
  split; [reflexivity|].
  apply (proj1 (quoted_text_is_one_token ("a |" ++ String LF "b"))).
  reflexivity.
Defined.

Lemma not_delimiter_not_newline (a : ascii) :
  isDelimiter a = false -> Ascii.eqb a LF = false.
Proof.
  intros H. destruct (Ascii.eqb a LF) eqn:E; [|reflexivity].
  apply Ascii.eqb_eq in E. subst a. discriminate.
Qed.

Lemma Ranged_forLoop_word (r : string) :
  forall l c acc acc2 st e,
    allChars (fun a => negb (isDelimiter a)) r = true ->
    Ranged.forLoop (Ranged.WORD acc acc2 st e) (chars_from l c r)
    = inr (Ranged.WORD acc (acc2 ++ r) st
             (match r with
              | EmptyString => e
              | String _ _ => at_ l (c + Z.of_nat (String.length r) - 1)
              end)).
Proof.
  induction r as [|a r IH]; intros l c acc acc2 st e H.
  - simpl. now rewrite string_app_nil_r.
  - simpl in H. apply andb_prop in H. destruct H as [Ha Hr].
    apply negb_true_iff in Ha.
    cbn [chars_from Ranged.forLoop char cline ccolumn Ranged.tokenizerMap].
    rewrite Ranged_tokenizeWord_single, Ha,
      (not_delimiter_not_newline a Ha).
    rewrite (IH l (c + 1) acc (acc2 ++ String a "")%string st (at_ l c) Hr).
    rewrite <- string_app_assoc. cbn [String.append].
    do 2 f_equal. destruct r as [|b r]; unfold at_; f_equal.
    + simpl. lia.
    + cbn [String.length]. lia.
Qed.

(** X15.  In the later draft a text that does not start with a quote and
    holds no delimiter is one [WORD] token with the text as its body,
    from line 1, column 0 to its last character, and then [EOF]. *)
Theorem plain_text_is_one_word (body : string) :
  wordBody body = true ->
  Ranged.tokenize body
  = Ranged.Tokens
      [Ranged.MS.WORD body (at_ 1 0)
         (at_ 1 (Z.of_nat (String.length body) - 1));
       Ranged.MS.EOF sentinel sentinel].
Proof.
  unfold wordBody. intros H. apply andb_prop in H. destruct H as [Hs Ha].
  destruct body as [|a r]; [discriminate|].
  simpl in Hs, Ha. apply negb_true_iff in Hs.
  apply andb_prop in Ha. destruct Ha as [Hd Hr].
  apply negb_true_iff in Hd.
  unfold Ranged.tokenize. rewrite Ranged_chars_from.
  cbn [chars_from Ranged.forLoop char cline ccolumn Ranged.tokenizerMap].
  rewrite (not_delimiter_not_newline a Hd).
  unfold Ranged.tokenizeInitial. rewrite Ranged_tokenizeDefault_single.
  pose proof Hd as Hd'. rewrite isDelimiter_cases in Hd'.
  apply orb_false_elim in Hd'. destruct Hd' as [Hw Hops].
  repeat (apply orb_false_elim in Hops;
          let H := fresh "Hop" in destruct Hops as [Hops H]).
  unfold isQuote in Hs. apply orb_false_elim in Hs. destruct Hs as [Hq Hdq].
  rewrite Hw, Hops, Hop3, Hop2, Hop1, Hop0, Hop, Hdq, Hq.
  rewrite (Ranged_forLoop_word r 1 (0 + 1) [] (String a "")
             (at_ 1 0) (at_ 1 0) Hr).
  cbn [String.append]. rewrite RangedFacts.finish_WORD.
  cbn [app]. do 3 f_equal.
  destruct r as [|b r]; unfold at_; f_equal.
  cbn [String.length]. lia.
Qed.

Lemma plain_text_is_one_word_witness :
  wordBody "a'b=c" = true
  /\ Ranged.tokenize "a'b=c"
     = Ranged.Tokens
         [Ranged.MS.WORD "a'b=c" (at_ 1 0) (at_ 1 4);
          Ranged.MS.EOF sentinel sentinel].
Proof.
  split; [reflexivity|].
  apply (plain_text_is_one_word "a'b=c"). reflexivity.
Defined.

(** ** The diagnostic printer *)

Section Printer.

Example printToken_first_call :
  RangedPrint.printToken
    ("ls -al |" ++ String LF (String TAB "grep \\.c &&& cat test.c"))
  = RangedPrint.Error
      ("Failed to parse: Unrecognized token at 2:14 to 2:14"
       ++ String LF (String TAB "grep \\.c &&& cat test.c")
       ++ String LF "              ^").
Proof. reflexivity. Qed.

Example printToken_second_call :
  RangedPrint.printToken ("echo 'Hello world!" ++ DQ)
  = RangedPrint.Error
      ("Failed to parse: Unterminated string at 1:5 to 1:18"
       ++ String LF ("echo 'Hello world!" ++ DQ)
       ++ String LF "     ^^^^^^^^^^^^^^").
Proof. reflexivity. Qed.

Lemma string_length_app (a b : string) :
  String.length (a ++ b) = (String.length a + String.length b)%nat.
Proof. induction a as [|x a IH]; simpl; [reflexivity | now rewrite IH]. Qed.

Lemma concat_empty_cons (x : string) (l : list string) :
  String.concat "" (x :: l) = (x ++ String.concat "" l)%string.
Proof. destruct l; simpl; [now rewrite string_app_nil_r | reflexivity]. Qed.

Lemma copies_length (input : string) (n : nat) :
  String.length
    (String.concat "" (List.map (fun _ : unit => input) (List.repeat tt n)))
  = (n * String.length input)%nat.
Proof.
  induction n as [|n IH]; [reflexivity|].
  cbn [List.repeat List.map]. rewrite concat_empty_cons, string_length_app.
  rewrite IH. reflexivity.
Qed.

Lemma copies_allChars (P : ascii -> bool) (input : string) (n : nat) :
  allChars P input = true ->
  allChars P
    (String.concat "" (List.map (fun _ : unit => input) (List.repeat tt n)))
  = true.
Proof.
  intros H. induction n as [|n IH]; [reflexivity|].
  cbn [List.repeat List.map]. rewrite concat_empty_cons, allChars_app.
  now rewrite H, IH.
Qed.

Lemma copies_concat (input : string) (n : nat) :
  String.concat "" (List.map (fun _ : unit => input) (List.repeat tt n))
  = copies input n.
Proof.
  induction n as [|n IH]; [reflexivity|].
  cbn [List.repeat List.map copies]. rewrite concat_empty_cons.
  now rewrite IH.
Qed.

Lemma repeat_is_copies (input : string) (times : Z) :
  0 <= times <= 4294967295 ->
  RangedPrint.repeat input times = Some (copies input (Z.to_nat times)).
Proof.
  intros [H0 H1]. unfold RangedPrint.repeat.
  apply Z.leb_le in H0. apply Z.leb_le in H1. rewrite H0, H1. simpl.
  now rewrite copies_concat.
Qed.

Lemma repeat_in_range (input : string) (times : Z) :
  0 <= times <= 4294967295 ->
  exists r,
    RangedPrint.repeat input times = Some r
    /\ String.length r = (Z.to_nat times * String.length input)%nat
    /\ (forall P, allChars P input = true -> allChars P r = true).
Proof.
  intros [H0 H1]. unfold RangedPrint.repeat.
  apply Z.leb_le in H0. apply Z.leb_le in H1. rewrite H0, H1. simpl.
  eexists. split; [reflexivity|]. split.
  - apply copies_length.
  - intros P HP. now apply copies_allChars.
Qed.

Lemma repeat_out_of_range (input : string) (times : Z) :
  times < 0 \/ 4294967295 < times ->
  RangedPrint.repeat input times = None.
Proof.
  intros H. unfold RangedPrint.repeat.
  destruct (0 <=? times) eqn:E0; [|reflexivity].
  destruct (times <=? 4294967295) eqn:E1; [|reflexivity].
  apply Z.leb_le in E0. apply Z.leb_le in E1. lia.
Qed.

End Printer.

(** X16.  [repeat] returns [times] copies of [input] in a row when [times]
    is from 0 to 2^32 - 1: the string [copies input times], which starts
    with [input] and goes on with one copy fewer; it is [times] times as
    long as [input] and made of the characters of [input] only.  For any
    other count, a negative one in particular, it throws a [RangeError]. *)
Theorem repeat_copies_or_range_error (input : string) (times : Z) :
  (0 <= times <= 4294967295 ->
   exists r,
     RangedPrint.repeat input times = Some r
     /\ r = copies input (Z.to_nat times)
     /\ String.length r = (Z.to_nat times * String.length input)%nat
     /\ (forall P, allChars P input = true -> allChars P r = true))
  /\ (times < 0 \/ 4294967295 < times ->
      RangedPrint.repeat input times = None).
Proof.
  split; [|apply repeat_out_of_range].
  intros Hr. destruct (repeat_in_range input times Hr) as (r & H1 & H2 & H3).
  exists r. repeat split; try assumption.
  rewrite (repeat_is_copies input times Hr) in H1. now inversion H1.
Qed.

Lemma repeat_copies_or_range_error_witness :
  RangedPrint.repeat "ab" 3 = Some "ababab"
  /\ RangedPrint.repeat "ab" (-1) = None.
Proof.
  split.
  - destruct (proj1 (repeat_copies_or_range_error "ab" 3))
      as (r & H1 & H2 & _); [lia|].
    rewrite H1, H2. reflexivity.
  - apply (proj2 (repeat_copies_or_range_error "ab" (-1))). lia.
Defined.

Lemma chars_from_columns (s : string) :
  forall l c,
    0 <= c ->
    Forall (fun x => 0 <= ccolumn x < c + Z.of_nat (String.length s))
           (chars_from l c s).
Proof.
  induction s as [|a s IH]; intros l c Hc; simpl; constructor.
  - simpl. lia.
  - destruct (Ascii.eqb a LF).
    + eapply Forall_impl; [|apply (IH (l + 1) 0); lia].
      simpl. intros x Hx. lia.
    + eapply Forall_impl; [|apply (IH l (c + 1)); lia].
      simpl. intros x Hx. lia.
Qed.

Lemma chars_from_lines (s : string) :
  forall l c, Forall (fun x => l <= cline x) (chars_from l c s).
Proof.
  induction s as [|a s IH]; intros l c; simpl; constructor.
  - simpl. lia.
  - destruct (Ascii.eqb a LF).
    + eapply Forall_impl; [|apply (IH (l + 1) 0)]. simpl. intros x Hx. lia.
    + apply IH.
Qed.

(** Where the error of the later draft points: nowhere, or from a
    character of the input to the same or a later one. *)
Lemma failure_positions (input : string) (e : Ranged.TokenizeError) :
  Ranged.tokenize input = Ranged.Failure e ->
  (Ranged.start e = sentinel /\ Ranged.end_ e = sentinel)
  \/ (exists x y,
         In x (Ranged.chars input) /\ In y (Ranged.chars input)
         /\ Ranged.start e = posOf x /\ Ranged.end_ e = posOf y
         /\ Position_leb (posOf x) (posOf y) = true).
Proof.
  intros H. pose proof (RangedLexFacts.tokenize_Lexed input) as HL.
  rewrite H in HL.
  assert (Hinc : increasing (Ranged.chars input))
    by (rewrite Ranged_chars_from; apply chars_from_increasing).
  assert (Hq : forall quote s en,
             RangedSpec.openQuoteAt quote (Ranged.chars input) s en ->
             exists x y,
               In x (Ranged.chars input) /\ In y (Ranged.chars input)
               /\ s = posOf x /\ en = posOf y
               /\ Position_leb (posOf x) (posOf y) = true).
  { intros quote s en (p & q & body & Hs & _ & -> & -> & _).
    rewrite Hs in Hinc |- *. rewrite last_app_cons.
    exists q, (last body q). repeat split.
    - apply in_or_app. right. now left.
    - apply in_or_app. right. apply last_In.
    - apply StronglySorted_app_inv in Hinc. destruct Hinc as (_ & Hinc & _).
      pose proof (increasing_last q body Hinc) as Hl. now inversion Hl. }
  destruct HL as [(p & c0 & x & rest & Hs & _ & _ & ->)
                 | [(p & c0 & _ & _ & ->) | (s & en & -> & [Ho | Ho])]].
  - right. exists x, x. rewrite Hs. repeat split.
    + apply in_or_app. right. right. now left.
    + apply in_or_app. right. right. now left.
    + apply Position_leb_refl.
  - left. split; reflexivity.
  - right. destruct (Hq _ _ _ Ho) as (x & y & Hx & Hy & -> & -> & Hle).
    exists x, y. repeat split; auto.
  - right. destruct (Hq _ _ _ Ho) as (x & y & Hx & Hy & -> & -> & Hle).
    exists x, y. repeat split; auto.
Qed.



Lemma Ranged_tokenize_trailing_amp (pre : string)
  (ts : list Ranged.MS.Token) :
  Ranged.tokenize pre = Ranged.Tokens ts ->
  Ranged.tokenize (pre ++ "&")
  = Ranged.Failure (Ranged.UnrecognizedToken (-1) (-1)).
Proof.
  intros H. unfold Ranged.tokenize.
  change (pre ++ "&")%string with (pre ++ String "&" "")%string.
  rewrite Ranged_chars_amp.
  destruct (Ranged_forLoop_amp pre ts
              (chars_from (line (pastEnd 1 0 pre))
                 (column (pastEnd 1 0 pre) + 1) "") H)
    as (acc & ->).
  reflexivity.
Qed.

(** X18.  [printToken] reports nothing for a lone [&] at the end of the
    input: on every input that tokenizes, followed by [&], it throws a
    [RangeError] (the error carries column -1, and [repeat] is asked for
    -1 spaces) before [console.error] is called. *)
Theorem printToken_trailing_ampersand_throws (pre : string)
  (ts : list Ranged.MS.Token) :
  Ranged.tokenize pre = Ranged.Tokens ts ->
  RangedPrint.printToken (pre ++ "&") = RangedPrint.RangeError.
Proof.
  intros H. unfold RangedPrint.printToken.
  rewrite (Ranged_tokenize_trailing_amp pre ts H). reflexivity.
Qed.

Lemma printToken_trailing_ampersand_throws_witness :
  exists ts,
    Ranged.tokenize "ls && cat " = Ranged.Tokens ts
    /\ RangedPrint.printToken ("ls && cat " ++ "&") = RangedPrint.RangeError.
Proof.
  eexists. split; [reflexivity|].
  apply (printToken_trailing_ampersand_throws "ls && cat " _ eq_refl).
Defined.

(** X19.  [printToken] prints every error that lies within one line of an
    input shorter than 2^32 characters: when [tokenize] fails with an
    error that starts and ends on the same line of the input, the text
    goes to [console.error], with at least one caret, the first one in the
    column where the error starts: as many spaces as the start column,
    then one caret for each column from the start to the end. *)
Theorem printToken_prints_one_line_errors (input : string)
  (e : Ranged.TokenizeError) :
  Ranged.tokenize input = Ranged.Failure e ->
  Z.of_nat (String.length input) <= 4294967295 ->
  line (Ranged.start e) = line (Ranged.end_ e) ->
  line (Ranged.start e) <> -1 ->
  exists spaces carets,
    RangedPrint.printToken input
    = RangedPrint.Error (RangedPrint.errorText input e spaces carets)
    /\ Z.of_nat (String.length spaces) = column (Ranged.start e)
    /\ 1 <= Z.of_nat (String.length carets)
    /\ Z.of_nat (String.length carets)
       = 1 + column (Ranged.end_ e) - column (Ranged.start e)
    /\ spaces = copies " " (Z.to_nat (column (Ranged.start e)))
    /\ carets
       = copies "^"
           (Z.to_nat (1 + column (Ranged.end_ e) - column (Ranged.start e))).
Proof.
  intros H Hlen Hline Hin. unfold RangedPrint.printToken. rewrite H.
  destruct (failure_positions input e H)
    as [[Hs _] | (x & y & Hx & Hy & Hs & He & Hle)].
  - rewrite Hs in Hin. now contradiction Hin.
  - rewrite Hs, He in *. cbn [posOf line column] in *.
    unfold Position_leb in Hle. cbn [posOf line column] in Hle.
    rewrite Hline, Z.ltb_irrefl, Z.eqb_refl in Hle. cbn [orb andb] in Hle.
    apply Z.leb_le in Hle.
    assert (Hcols : forall z,
               In z (Ranged.chars input) ->
               0 <= ccolumn z < Z.of_nat (String.length input)).
    { intros z Hz. rewrite Ranged_chars_from in Hz.
      pose proof (chars_from_columns input 1 0 (Z.le_refl 0)) as HF.
      rewrite Forall_forall in HF. apply (HF z Hz). }
    pose proof (Hcols x Hx) as Bx. pose proof (Hcols y Hy) as By.
    destruct (repeat_in_range " " (ccolumn x)) as (sp & Hsp & Lsp & _);
      [lia|].
    destruct (repeat_in_range "^" (1 + ccolumn y - ccolumn x))
      as (ca & Hca & Lca & _); [lia|].
    rewrite Hsp, Hca. exists sp, ca. split; [reflexivity|].
    rewrite Lsp, Lca. cbn [String.length].
    rewrite repeat_is_copies in Hsp by lia.
    rewrite repeat_is_copies in Hca by lia.
    inversion Hsp. inversion Hca. repeat split; lia.
Qed.

Lemma printToken_prints_one_line_errors_witness :
  RangedPrint.printToken "echo 'hi"
  = RangedPrint.Error
      ("Failed to parse: Unterminated string at 1:5 to 1:7"
       ++ String LF "echo 'hi"
       ++ String LF "     ^^^").
Proof.
  destruct (printToken_prints_one_line_errors "echo 'hi"
              {| Ranged.message := "Unterminated string";
                 Ranged.start := at_ 1 5; Ranged.end_ := at_ 1 7 |})
    as (spaces & carets & H & _ & _ & _ & -> & ->).
  - reflexivity.
  - vm_compute. discriminate.
  - reflexivity.
  - discriminate.
  - exact H.
Defined.

Lemma In_mapi_from {A B : Type} (f : A -> nat -> B) (l : list A) :
  forall i y,
    In y (mapi_from i f l) ->
    exists n x, nth_error l n = Some x /\ y = f x (i + n)%nat.
Proof.
  induction l as [|x l IH]; intros i y H; [contradiction|].
  destruct H as [<- | H].
  - exists 0%nat, x. now rewrite Nat.add_0_r.
  - destruct (IH _ _ H) as (n & x' & Hn & ->).
    exists (S n), x'. split; [exact Hn|]. f_equal. lia.
Qed.

Lemma nth_error_split_chars (s : string) :
  forall k ch,
    nth_error (split_chars s) k = Some ch ->
    exists a, ch = String a "" /\ String.get k s = Some a.
Proof.
  induction s as [|b s IH]; intros k ch H.
  - destruct k; discriminate.
  - destruct k as [|k]; simpl in H.
    + inversion H. exists b. auto.
    + apply IH in H. exact H.
Qed.

Lemma get_app_newline (l : string) :
  forall k a,
    String.get k (l ++ String LF "") = Some a ->
    String.get k l = Some a \/ (a = LF /\ k = String.length l).
Proof.
  induction l as [|b l IH]; intros k a H.
  - destruct k as [|k]; simpl in H.
    + inversion H. now right.
    + destruct k; discriminate.
  - destruct k as [|k]; simpl in H |- *.
    + now left.
    + destruct (IH _ _ H) as [Hl | [-> ->]]; [now left | now right].
Qed.

Lemma nth_error_mapi_from {A B : Type} (g : A -> nat -> B) (l : list A) :
  forall i n y,
    nth_error (mapi_from i g l) n = Some y ->
    exists x, nth_error l n = Some x /\ y = g x (i + n)%nat.
Proof.
  induction l as [|x l IH]; intros i n y H.
  - destruct n; discriminate.
  - destruct n as [|n]; simpl in H.
    + inversion H. exists x. now rewrite Nat.add_0_r.
    + destruct (IH _ _ _ H) as (x' & Hn & ->).
      exists x'. split; [exact Hn|]. f_equal. lia.
Qed.

Lemma Ranged_chars_element (input : string) (x : CharInfo) :
  In x (Ranged.chars input) ->
  exists n ln k a,
    nth_error (split_lines input) n = Some ln
    /\ x = {| char := String a ""; cline := Z.of_nat n + 1;
              ccolumn := Z.of_nat k |}
    /\ (String.get k ln = Some a \/ (a = LF /\ k = String.length ln)).
Proof.
  unfold Ranged.chars, flatMapi, mapi. intros H.
  apply in_concat in H. destruct H as (piece & Hpiece & Hx).
  apply In_mapi_from in Hpiece.
  destruct Hpiece as (n & l' & Hn & ->). simpl Nat.add in Hx.
  apply nth_error_mapi_from in Hn. destruct Hn as (ln & Hln & Hl').
  simpl Nat.add in Hl'.
  apply In_mapi_from in Hx. destruct Hx as (k & ch & Hk & ->).
  simpl Nat.add.
  apply nth_error_split_chars in Hk. destruct Hk as (a & -> & Hget).
  exists n, ln, k, a. repeat split; try assumption.
  subst l'. destruct (Nat.eqb n (List.length (split_lines input) - 1)).
  - now left.
  - now apply get_app_newline.
Qed.

(** X20.  The positions of the later draft's stream address the input as
    [input.split] cuts it into lines: an element at line [n], column [k]
    holds character [k] of line [n - 1] of the split, or it holds the
    newline that ended that line and [k] is the length of the line.
    Lines count from 1 and columns from 0. *)
Theorem Ranged_chars_address_lines (input : string) (x : CharInfo) :
  In x (Ranged.chars input) ->
  exists ln a,
    1 <= cline x /\ 0 <= ccolumn x
    /\ nth_error (split_lines input) (Z.to_nat (cline x - 1)) = Some ln
    /\ char x = String a ""
    /\ (String.get (Z.to_nat (ccolumn x)) ln = Some a
        \/ (a = LF /\ Z.to_nat (ccolumn x) = String.length ln)).
Proof.
  intros H.
  destruct (Ranged_chars_element input x H) as (n & ln & k & a & Hn & -> & Hk).
  exists ln, a. cbn [cline ccolumn char].
  replace (Z.to_nat (Z.of_nat n + 1 - 1)) with n by lia.
  rewrite Nat2Z.id. repeat split; try lia; assumption.
Qed.

Lemma Ranged_chars_address_lines_witness :
  exists ln a,
    1 <= 2 /\ 0 <= 1
    /\ nth_error (split_lines ("ab" ++ String LF "cd")) (Z.to_nat (2 - 1))
       = Some ln
    /\ "d" = String a ""
    /\ (String.get (Z.to_nat 1) ln = Some a
        \/ (a = LF /\ Z.to_nat 1 = String.length ln)).
Proof.
  apply (Ranged_chars_address_lines ("ab" ++ String LF "cd")
           {| char := "d"; cline := 2; ccolumn := 1 |}).
  simpl. right. right. right. right. left. reflexivity.
Defined.




(** ** Errors of the earlier draft *)






(** ** Newlines in the earlier draft *)

Lemma IndexTs_tokenizeWord_single (a : ascii) (l c : Z)
  (acc : list IndexTs.MS.Token) (acc2 : string) (s e : Position) :
  IndexTs.tokenizeWord (String a "") l c acc acc2 s e
  = if isDelimiter a
    then IndexTs.tokenizeDefault (String a "") l c
           (acc ++ [IndexTs.MS.WORD acc2 s e])
    else IndexTs.WORD acc (acc2 ++ String a "") s (at_ l c).
Proof.
  unfold IndexTs.tokenizeWord. rewrite includes_single. reflexivity.
Qed.

Lemma IndexTs_tokenizeDefault_word (a : ascii) (l c : Z)
  (acc : list IndexTs.MS.Token) :
  isDelimiter a = false -> isQuote a = false ->
  IndexTs.tokenizeDefault (String a "") l c acc
  = IndexTs.WORD acc (String a "") (at_ l c) (at_ l c).
Proof.
  intros Hd Hq. rewrite isDelimiter_cases in Hd.
  apply orb_false_elim in Hd. destruct Hd as [Hw Hops].
  repeat (apply orb_false_elim in Hops;
          let H := fresh "Hop" in destruct Hops as [Hops H]).
  unfold isQuote in Hq. apply orb_false_elim in Hq. destruct Hq as [Hq Hdq].
  unfold IndexTs.tokenizeDefault, DQ. cbv zeta.
  rewrite !single_eqb, includes_single.
  fold (isWhitespace a).
  rewrite Hw, Hops, Hop3, Hop2, Hop1, Hop0, Hop, Hdq, Hq. reflexivity.
Qed.

Lemma IndexTs_forLoop_word (r : string) :
  forall l c acc acc2 st e,
    allChars (fun a => negb (isDelimiter a)) r = true ->
    IndexTs.forLoop (IndexTs.WORD acc acc2 st e) (chars_skipping l c r)
    = inr (IndexTs.WORD acc (acc2 ++ r) st
             (match r with
              | EmptyString => e
              | String _ _ => at_ l (c + Z.of_nat (String.length r) - 1)
              end)).
Proof.
  induction r as [|a r IH]; intros l c acc acc2 st e H.
  - simpl. now rewrite string_app_nil_r.
  - simpl in H. apply andb_prop in H. destruct H as [Ha Hr].
    apply negb_true_iff in Ha.
    cbn [chars_skipping]. rewrite (not_delimiter_not_newline a Ha).
    cbn [IndexTs.forLoop char cline ccolumn IndexTs.tokenizerMap].
    rewrite IndexTs_tokenizeWord_single, Ha.
    rewrite (IH l (c + 1) acc (acc2 ++ String a "")%string st (at_ l c) Hr).
    rewrite <- string_app_assoc. cbn [String.append].
    do 2 f_equal. destruct r as [|b r]; unfold at_; f_equal.
    + simpl. lia.
    + cbn [String.length]. lia.
Qed.

Lemma chars_skipping_word_app (b : string) :
  forall l c t,
    allChars (fun a => negb (isDelimiter a)) b = true ->
    chars_skipping l c (b ++ t)
    = chars_skipping l c b
      ++ chars_skipping l (c + Z.of_nat (String.length b)) t.
Proof.
  induction b as [|a b IH]; intros l c t H.
  - simpl. now rewrite Z.add_0_r.
  - simpl in H. apply andb_prop in H. destruct H as [Ha Hb].
    apply negb_true_iff in Ha.
    cbn [String.append chars_skipping].
    rewrite (not_delimiter_not_newline a Ha). cbn [app]. f_equal.
    rewrite (IH l (c + 1) t Hb). do 2 f_equal.
    cbn [String.length]. lia.
Qed.

(** X23.  In [src/index.ts] a newline does not end a word: two runs of
    word characters on consecutive lines are one [WORD] token, whose body
    is the two runs joined without the newline and whose range goes from
    line 1 to line 2. *)
Theorem index_ts_newline_joins_words (b1 b2 : string) :
  wordBody b1 = true ->
  allChars (fun a => negb (isDelimiter a)) b2 = true ->
  b2 <> "" ->
  IndexTs.tokenize (b1 ++ String LF b2)
  = IndexTs.Tokens
      [IndexTs.MS.WORD (b1 ++ b2) (at_ 1 0)
         (at_ 2 (Z.of_nat (String.length b2) - 1));
       IndexTs.MS.EOF sentinel sentinel].
Proof.
  unfold wordBody. intros H H2 Hne. apply andb_prop in H.
  destruct H as [Hs Ha].
  unfold IndexTs.tokenize. rewrite IndexTs_chars_skipping.
  rewrite (chars_skipping_word_app b1 1 0 (String LF b2) Ha).
  cbn [chars_skipping]. change (Ascii.eqb LF LF) with true. cbv iota.
  rewrite IndexTsFacts.ix_forLoop_app.
  destruct b1 as [|a r]; [discriminate|].
  simpl in Hs, Ha. apply negb_true_iff in Hs.
  apply andb_prop in Ha. destruct Ha as [Hd Hr].
  apply negb_true_iff in Hd.
  cbn [chars_skipping]. rewrite (not_delimiter_not_newline a Hd).
  cbn [IndexTs.forLoop char cline ccolumn IndexTs.tokenizerMap].
  unfold IndexTs.tokenizeInitial.
  rewrite (IndexTs_tokenizeDefault_word a 1 0 [] Hd Hs).
  rewrite (IndexTs_forLoop_word r 1 (0 + 1) [] (String a "")
             (at_ 1 0) (at_ 1 0) Hr).
  rewrite (IndexTs_forLoop_word b2 (1 + 1) 0 [] (String a "" ++ r) (at_ 1 0)
             _ H2).
  destruct b2 as [|b b2]; [contradiction|].
  rewrite IndexTsFacts.ix_finish_WORD. cbn [app String.append].
  unfold IndexTsSpec.eofSentinel. do 3 f_equal.
Qed.

Lemma index_ts_newline_joins_words_witness :
  wordBody "ab" = true
  /\ allChars (fun a => negb (isDelimiter a)) "cd" = true
  /\ "cd" <> ""
  /\ IndexTs.tokenize ("ab" ++ String LF "cd")
     = IndexTs.Tokens
         [IndexTs.MS.WORD "abcd" (at_ 1 0) (at_ 2 1);
          IndexTs.MS.EOF sentinel sentinel].
Proof.
  assert (H3 : "cd" <> "") by discriminate.
  split; [reflexivity|]. split; [reflexivity|]. split; [exact H3|].
  apply (index_ts_newline_joins_words "ab" "cd"); [reflexivity.. | exact H3].
Defined.

Lemma chars_from_occurs (b : ascii) (s : string) :
  forall l c x,
    In x (chars_from l c s) -> char x = String b "" -> occurs b s = true.
Proof.
  induction s as [|a s IH]; intros l c x Hin Hc; [contradiction|].
  simpl in Hin. destruct Hin as [<- | Hin].
  - simpl in Hc. inversion Hc. simpl. now rewrite Ascii.eqb_refl.
  - simpl. apply orb_true_iff. right.
    destruct (Ascii.eqb a LF); eapply IH; eassumption.
Qed.

(** X24.  The later draft accepts every input that holds no [&], no single
    quote and no double quote: [tokenize] returns a token list for it. *)
Theorem tokenize_succeeds_without_ampersand_and_quotes (input : string) :
  occurs "&" input = false ->
  occurs "'" input = false ->
  occurs DQUOTE input = false ->
  exists ts, Ranged.tokenize input = Ranged.Tokens ts.
Proof.
  intros Ha Hq Hdq.
  pose proof (RangedLexFacts.tokenize_Lexed input) as HL.
  destruct (Ranged.tokenize input) as [ts | e | w];
    [eauto | exfalso | contradiction].
  assert (Hno : forall b x,
             In x (Ranged.chars input) -> char x = String b "" ->
             occurs b input = true).
  { intros b x Hx Hc. rewrite Ranged_chars_from in Hx.
    eapply chars_from_occurs; eassumption. }
  assert (Hopen : forall b s en,
             RangedSpec.openQuoteAt (String b "") (Ranged.chars input) s en ->
             occurs b input = true).
  { intros b s en (p & q & body & Hs & Hc & _).
    apply (Hno b q); [|exact Hc].
    rewrite Hs. apply in_or_app. right. now left. }
  destruct HL as [(p & c0 & x & rest & Hs & Hc & _)
                 | [(p & c0 & Hs & Hc & _) | (s & en & _ & [Ho | Ho])]].
  - rewrite (Hno "&"%char c0) in Ha; [discriminate | | exact Hc].
    rewrite Hs. apply in_or_app. right. now left.
  - rewrite (Hno "&"%char c0) in Ha; [discriminate | | exact Hc].
    rewrite Hs. apply in_or_app. right. now left.
  - rewrite (Hopen _ _ _ Ho) in Hq. discriminate.
  - rewrite (Hopen _ _ _ Ho) in Hdq. discriminate.
Qed.

Lemma tokenize_succeeds_without_ampersand_and_quotes_witness :
  exists ts,
    Ranged.tokenize ("(ls || cat <<x) |" ++ String LF "wc >>out")
    = Ranged.Tokens ts.
Proof.
  apply (tokenize_succeeds_without_ampersand_and_quotes
           ("(ls || cat <<x) |" ++ String LF "wc >>out"));
    reflexivity.
Defined.

(** ** A lone [&], on whole inputs *)

(** The tokens an input ends with are the ones a [&] finds pushed. *)
Lemma Ranged_amp_enters_with (context : Ranged.TokenizerContext)
  (ts : list Ranged.MS.Token) (l c : Z) :
  Ranged.finish context = Ranged.Tokens ts ->
  exists acc,
    ts = acc ++ [Ranged.MS.EOF sentinel sentinel]
    /\ Ranged.tokenizerMap context "&" l c
       = Ranged.PREV_AND acc {| line := l; column := c |}.
Proof.
  destruct context; intros H; try discriminate;
    (eexists; split; [|reflexivity]); inversion H; subst; reflexivity.
Qed.

Lemma IndexTs_amp_enters_with (context : IndexTs.TokenizerContext)
  (ts : list IndexTs.MS.Token) (l c : Z) :
  IndexTs.finish context = IndexTs.Tokens ts ->
  exists acc,
    ts = acc ++ [IndexTs.MS.EOF sentinel sentinel]
    /\ IndexTs.tokenizerMap context "&" l c
       = IndexTs.PREV_AND acc {| line := l; column := c |}.
Proof.
  destruct context; intros H; try discriminate;
    (eexists; split; [|reflexivity]); inversion H; subst; reflexivity.
Qed.

Lemma Ranged_forLoop_amp_with (pre : string) (ts : list Ranged.MS.Token) :
  Ranged.tokenize pre = Ranged.Tokens ts ->
  exists acc,
    ts = acc ++ [Ranged.MS.EOF sentinel sentinel]
    /\ forall rest,
        Ranged.forLoop Ranged.INITIAL (Ranged.chars (pre ++ String "&" rest))
        = Ranged.forLoop (Ranged.PREV_AND acc (pastEnd 1 0 pre))
            (chars_from (line (pastEnd 1 0 pre))
               (column (pastEnd 1 0 pre) + 1) rest).
Proof.
  unfold Ranged.tokenize. intros H.
  destruct (Ranged.forLoop Ranged.INITIAL (Ranged.chars pre))
    as [e | context] eqn:HL; [discriminate|].
  destruct (Ranged_amp_enters_with context ts (line (pastEnd 1 0 pre))
              (column (pastEnd 1 0 pre)) H) as (acc & Hts & Hacc).
  exists acc. split; [exact Hts|]. intros rest.
  rewrite Ranged_chars_amp, RangedFacts.forLoop_app, HL.
  cbn [Ranged.forLoop char cline ccolumn]. rewrite Hacc.
  now destruct (pastEnd 1 0 pre).
Qed.

Lemma IndexTs_forLoop_amp_with (pre : string)
  (ts : list IndexTs.MS.Token) :
  IndexTs.tokenize pre = IndexTs.Tokens ts ->
  exists acc,
    ts = acc ++ [IndexTs.MS.EOF sentinel sentinel]
    /\ forall rest,
        IndexTs.forLoop IndexTs.INITIAL
          (IndexTs.chars (pre ++ String "&" rest))
        = IndexTs.forLoop (IndexTs.PREV_AND acc (pastEnd 1 0 pre))
            (chars_skipping (line (pastEnd 1 0 pre))
               (column (pastEnd 1 0 pre) + 1) rest).
Proof.
  unfold IndexTs.tokenize. intros H.
  destruct (IndexTs.forLoop IndexTs.INITIAL (IndexTs.chars pre))
    as [e | context] eqn:HL; [discriminate|].
  destruct (IndexTs_amp_enters_with context ts (line (pastEnd 1 0 pre))
              (column (pastEnd 1 0 pre)) H) as (acc & Hts & Hacc).
  exists acc. split; [exact Hts|]. intros rest.
  rewrite IndexTs_chars_amp, IndexTsFacts.ix_forLoop_app, HL.
  cbn [IndexTs.forLoop char cline ccolumn]. rewrite Hacc.
  now destruct (pastEnd 1 0 pre).
Qed.

(** X25.  A lone [&] in the later draft, on whole inputs.  Let [pre] be an
    input that tokenizes, to the tokens [acc] and [EOF].  Then [pre]
    followed by two [&] tokenizes to [acc], one [AND] from the position
    of the first [&] (just past the end of [pre]) to the position of the
    second, and [EOF].  [pre] followed by one [&] and a character that is
    not [&], whatever comes after, fails with the message
    "Unrecognized token" and a range that starts and ends at the position
    of that character, the one just past the [&]; a newline is such a
    character.  [pre] followed by one [&] and nothing fails with the same
    message at line -1, column -1. *)
Theorem lone_ampersand_in_later_draft (pre : string)
  (ts : list Ranged.MS.Token) :
  Ranged.tokenize pre = Ranged.Tokens ts ->
  exists acc,
    ts = acc ++ [Ranged.MS.EOF sentinel sentinel]
    /\ Ranged.tokenize (pre ++ "&&")
       = Ranged.Tokens
           (acc ++ [Ranged.MS.AND (pastEnd 1 0 pre) (pastEnd 1 0 (pre ++ "&"));
                    Ranged.MS.EOF sentinel sentinel])
    /\ Ranged.tokenize (pre ++ "&")
       = Ranged.Failure
           {| Ranged.message := "Unrecognized token";
              Ranged.start := sentinel; Ranged.end_ := sentinel |}
    /\ forall a rest,
        a <> "&"%char ->
        Ranged.tokenize (pre ++ String "&" (String a rest))
        = Ranged.Failure
            {| Ranged.message := "Unrecognized token";
               Ranged.start := pastEnd 1 0 (pre ++ "&");
               Ranged.end_ := pastEnd 1 0 (pre ++ "&") |}.
Proof.
  intros H. destruct (Ranged_forLoop_amp_with pre ts H) as (acc & Hts & HL).
  exists acc. split; [exact Hts|]. rewrite pastEnd_amp.
  split; [|split].
  - unfold Ranged.tokenize.
    change (pre ++ "&&")%string with (pre ++ String "&" "&")%string.
    rewrite HL. cbn [chars_from Ranged.forLoop Ranged.tokenizerMap
                       char cline ccolumn].
    change (Ascii.eqb "&" LF) with false. cbv iota.
    cbn [chars_from Ranged.forLoop]. unfold Ranged.tokenizePrevAnd.
    cbn [String.eqb Ascii.eqb Bool.eqb andb]. cbv iota.
    rewrite RangedFacts.finish_DEFAULT, <- app_assoc. reflexivity.
  - unfold Ranged.tokenize.
    change (pre ++ "&")%string with (pre ++ String "&" "")%string.
    rewrite HL. reflexivity.
  - intros a rest Ha. unfold Ranged.tokenize. rewrite HL.
    cbn [chars_from Ranged.forLoop Ranged.tokenizerMap char cline ccolumn].
    unfold Ranged.tokenizePrevAnd.
    rewrite (single_neq_eqb a "&" Ha). reflexivity.
Qed.

Lemma lone_ampersand_in_later_draft_witness :
  Ranged.tokenize "a "
  = Ranged.Tokens
      [Ranged.MS.WORD "a" (at_ 1 0) (at_ 1 0);
       Ranged.MS.SPACE (at_ 1 1) (at_ 1 1);
       Ranged.MS.EOF sentinel sentinel]
  /\ Ranged.tokenize ("a " ++ "&&")
     = Ranged.Tokens
         [Ranged.MS.WORD "a" (at_ 1 0) (at_ 1 0);
          Ranged.MS.SPACE (at_ 1 1) (at_ 1 1);
          Ranged.MS.AND (at_ 1 2) (at_ 1 3);
          Ranged.MS.EOF sentinel sentinel]
  /\ Ranged.tokenize ("a " ++ String "&" (String LF "b"))
     = Ranged.Failure
         {| Ranged.message := "Unrecognized token";
            Ranged.start := at_ 1 3; Ranged.end_ := at_ 1 3 |}.
Proof.
  destruct (lone_ampersand_in_later_draft "a " _ eq_refl)
    as (acc & Hts & H2 & _ & H3).
  apply app_inj_tail in Hts. destruct Hts as [<- _].
  split; [reflexivity|]. split; [exact H2|].
  apply (H3 LF "b"). discriminate.
Defined.

(** X26.  A lone [&] in [src/index.ts], on whole inputs.  Let [pre] be an
    input that tokenizes, to the tokens [acc] and [EOF].  Then [pre]
    followed by two [&] tokenizes to [acc], one [AND] from the position
    of the first [&] to the position of the second, and [EOF]; and so
    does [pre] followed by [&], a newline and [&], with the [AND] ending
    at column 0 of the next line.  [pre] followed by one [&] and a
    character that is neither [&] nor a newline fails with
    "Unrecognized token" at the line and column of that character.  [pre]
    followed by one [&] and nothing, or by one [&] and a newline, fails
    with the same message at line -1, column -1. *)
Theorem lone_ampersand_in_index_ts (pre : string)
  (ts : list IndexTs.MS.Token) :
  IndexTs.tokenize pre = IndexTs.Tokens ts ->
  exists acc,
    ts = acc ++ [IndexTs.MS.EOF sentinel sentinel]
    /\ IndexTs.tokenize (pre ++ "&&")
       = IndexTs.Tokens
           (acc ++ [IndexTs.MS.AND (pastEnd 1 0 pre)
                      (pastEnd 1 0 (pre ++ "&"));
                    IndexTs.MS.EOF sentinel sentinel])
    /\ IndexTs.tokenize (pre ++ String "&" (String LF "&"))
       = IndexTs.Tokens
           (acc ++ [IndexTs.MS.AND (pastEnd 1 0 pre)
                      {| line := line (pastEnd 1 0 pre) + 1; column := 0 |};
                    IndexTs.MS.EOF sentinel sentinel])
    /\ IndexTs.tokenize (pre ++ "&")
       = IndexTs.Failure
           {| IndexTs.message := "Unrecognized token";
              IndexTs.line := -1; IndexTs.column := -1 |}
    /\ IndexTs.tokenize (pre ++ String "&" (String LF ""))
       = IndexTs.Failure
           {| IndexTs.message := "Unrecognized token";
              IndexTs.line := -1; IndexTs.column := -1 |}
    /\ forall a rest,
        a <> "&"%char -> a <> LF ->
        IndexTs.tokenize (pre ++ String "&" (String a rest))
        = IndexTs.Failure
            {| IndexTs.message := "Unrecognized token";
               IndexTs.line := line (pastEnd 1 0 (pre ++ "&"));
               IndexTs.column := column (pastEnd 1 0 (pre ++ "&")) |}.
Proof.
  intros H. destruct (IndexTs_forLoop_amp_with pre ts H) as (acc & Hts & HL).
  exists acc. split; [exact Hts|]. rewrite pastEnd_amp.
  cbn [line column].
  split; [|split; [|split; [|split]]].
  - unfold IndexTs.tokenize.
    change (pre ++ "&&")%string with (pre ++ String "&" "&")%string.
    rewrite HL. cbn [chars_skipping].
    change (Ascii.eqb "&" LF) with false. cbv iota.
    cbn [chars_skipping IndexTs.forLoop IndexTs.tokenizerMap
           char cline ccolumn].
    unfold IndexTs.tokenizePrevAnd.
    cbn [String.eqb Ascii.eqb Bool.eqb andb]. cbv iota.
    rewrite IndexTsFacts.ix_finish_DEFAULT, <- app_assoc. reflexivity.
  - unfold IndexTs.tokenize. rewrite HL. cbn [chars_skipping].
    change (Ascii.eqb LF LF) with true.
    change (Ascii.eqb "&" LF) with false. cbv iota.
    cbn [chars_skipping IndexTs.forLoop IndexTs.tokenizerMap
           char cline ccolumn].
    unfold IndexTs.tokenizePrevAnd.
    cbn [String.eqb Ascii.eqb Bool.eqb andb]. cbv iota.
    rewrite IndexTsFacts.ix_finish_DEFAULT, <- app_assoc. reflexivity.
  - unfold IndexTs.tokenize.
    change (pre ++ "&")%string with (pre ++ String "&" "")%string.
    rewrite HL. reflexivity.
  - unfold IndexTs.tokenize. rewrite HL. reflexivity.
  - intros a rest Ha Hnl. unfold IndexTs.tokenize. rewrite HL.
    cbn [chars_skipping]. apply Ascii.eqb_neq in Hnl. rewrite Hnl.
    cbn [IndexTs.forLoop IndexTs.tokenizerMap char cline ccolumn].
    unfold IndexTs.tokenizePrevAnd.
    rewrite (single_neq_eqb a "&" Ha). reflexivity.
Qed.

Lemma lone_ampersand_in_index_ts_witness :
  IndexTs.tokenize "a "
  = IndexTs.Tokens
      [IndexTs.MS.WORD "a" (at_ 1 0) (at_ 1 0);
       IndexTs.MS.EOF sentinel sentinel]
  /\ IndexTs.tokenize ("a " ++ String "&" (String LF "&"))
     = IndexTs.Tokens
         [IndexTs.MS.WORD "a" (at_ 1 0) (at_ 1 0);
          IndexTs.MS.AND (at_ 1 2) (at_ 2 0);
          IndexTs.MS.EOF sentinel sentinel]
  /\ IndexTs.tokenize ("a " ++ String "&" (String "b" " c"))
     = IndexTs.Failure
         {| IndexTs.message := "Unrecognized token";
            IndexTs.line := 1; IndexTs.column := 3 |}.
Proof.
  destruct (lone_ampersand_in_index_ts "a " _ eq_refl)
    as (acc & Hts & _ & H2 & _ & _ & H3).
  apply app_inj_tail in Hts. destruct Hts as [<- _].
  split; [reflexivity|]. split; [exact H2|].
  apply (H3 "b"%char " c"); discriminate.
Defined.
